(** * rct: Connection framing and Process supervision

    A shallow embedding of [Connection.cpp] and [Process.cpp] of the rct
    toolkit, together with the properties its specification states about
    them.  Byte strings ([String], [Buffer]) are lists of bytes, C integers
    are [Z] with the conversions of the C++ code written out, and the
    effects of a member function (signals emitted, log lines, system calls)
    are returned as a list next to the new state. *)

From Stdlib Require Import Strings.Byte Strings.String.
From Stdlib Require Import ZArith List Lia Bool.
Import ListNotations.
Open Scope Z_scope.

(** ** Integers and byte strings *)

Definition Buffer := list byte.
Definition String := list byte.

Definition size {A : Type} (l : list A) : Z := Z.of_nat (length l).

Definition mid {A : Type} (l : list A) (from : Z) : list A :=
  skipn (Z.to_nat from) l.

Definition left {A : Type} (l : list A) (n : Z) : list A :=
  firstn (Z.to_nat n) l.

(** Conversion to [unsigned int] and to [int] (two's complement, 32 bits). *)
Definition to_uint32 (z : Z) : Z := z mod 2 ^ 32.
Definition to_int32 (z : Z) : Z := (z + 2 ^ 31) mod 2 ^ 32 - 2 ^ 31.

Definition int32_range (z : Z) : Prop := - 2 ^ 31 <= z < 2 ^ 31.

Definition byte_val (b : byte) : Z := Z.of_N (Byte.to_N b).

Definition byte_of_Z (z : Z) : byte :=
  match Byte.of_N (Z.to_N (z mod 256)) with
  | Some b => b
  | None => x00
  end.

(** Modelled from the spec: the [Serializer]/[Deserializer] pair of
    [Serializer.h], which is not among the sources.  The specification fixes
    the header as a little-endian u32, so a 32-bit integer is written as four
    bytes, least significant first, and read back the same way. *)
Fixpoint le_decode (bs : list byte) : Z :=
  match bs with
  | [] => 0
  | b :: rest => byte_val b + 256 * le_decode rest
  end.

Definition le32_encode (n : Z) : list byte :=
  [ byte_of_Z n; byte_of_Z (Z.shiftr n 8);
    byte_of_Z (Z.shiftr n 16); byte_of_Z (Z.shiftr n 24) ].

(** Outcome of a piece of code that can leave the defined behaviour of C++
    (a write past the end of an array), or whose loop is run on fuel. *)
Inductive outcome (A : Type) : Type :=
| Ok (a : A)
| Undefined
| OutOfFuel.
Arguments Ok {A} a.
Arguments Undefined {A}.
Arguments OutOfFuel {A}.

(** ** Connection *)

Module Connection.

(** Modelled from the spec: [SocketClient] ([SocketClient.h] is not among the
    sources): a byte-stream transport that is connected or not, holds the
    bytes received and not yet taken, and accepts writes unless the transport
    has failed, in which case [write] reports [false]. *)
Record SocketClient : Type := mkSocketClient {
  sc_connected : bool;
  sc_buffer : Buffer;
  sc_sent : list byte;
  sc_failed : bool
}.

Definition isConnected (s : SocketClient) : bool := sc_connected s.

Definition takeBuffer (s : SocketClient) : Buffer * SocketClient :=
  (sc_buffer s,
   mkSocketClient (sc_connected s) [] (sc_sent s) (sc_failed s)).

Definition write (s : SocketClient) (data : String) : bool * SocketClient :=
  if sc_failed s
  then (false, mkSocketClient false (sc_buffer s) (sc_sent s) true)
  else (true, mkSocketClient (sc_connected s) (sc_buffer s)
                (sc_sent s ++ data) false).

Record Message : Type := mkMessage {
  messageId : byte;
  messageBody : String
}.

Inductive Signal : Type :=
| Finished
| NewMessage (m : Message)
| SendFinished.

Inductive Effect : Type :=
| Emit (s : Signal)
| LogError (text : string).

(** The members of [Connection] that the framing and the sending use.
    [mPendingRead] and [mPendingWrite] are of type [int]: [Connection.h] is not
    among the sources, and the code compares and asserts them as [int]s. *)
Record Connection : Type := mkConnection {
  mSocketClient : SocketClient;
  mBuffers : list Buffer;
  mPendingRead : Z;
  mPendingWrite : Z
}.

(** [Connection::Connection(const SocketClient::SharedPtr &)] *)
Definition Connection_new (client : SocketClient) : Connection :=
  mkConnection client [] 0 0.

(** [bufferSize]: an [unsigned int] sum of the sizes. *)
Definition bufferSize (buffers : list Buffer) : Z :=
  fold_left (fun sz buffer => to_uint32 (sz + size buffer)) buffers 0.

(** The [while] loop of [bufferRead].  [out] collects the bytes copied so
    far; the result is the list that is left, the bytes copied and the value
    returned.  In the second branch [cur <> it->size()] gives [cur = rem], so
    the [rem] left is [0] (the code asserts it) and the function returns. *)
Fixpoint bufferRead_loop (buffers : list Buffer) (out : list byte)
    (num rem sz : Z) : list Buffer * list byte * Z :=
  match buffers with
  | [] => ([], out, num)
  | it :: rest =>
      let cur := Z.min (size it) rem in
      let out := out ++ left it cur in
      let rem := rem - cur in
      let num := num + cur in
      if cur =? size it then
        if rem =? 0 then (rest, out, sz)
        else bufferRead_loop rest out num rem sz
      else (mid it cur :: rest, out, sz)
  end.

(** [bufferRead].  The parameter [size] is an [unsigned int]: the size asked
    for is taken modulo [2^32], and [num] and [rem] stay below it.  The value
    returned is an [int]: a count of [2^31] or more comes back negative. *)
Definition bufferRead (buffers : list Buffer) (sz : Z)
  : list Buffer * list byte * Z :=
  let sz := to_uint32 sz in
  if sz =? 0 then (buffers, [], 0)
  else
    let '(buffers, out, read) := bufferRead_loop buffers [] 0 sz sz in
    (buffers, out, to_int32 read).

(** [Connection::sendData].  The payload is the id followed by the message;
    the header is its size.  [mPendingWrite] is an [int] and is raised before
    the two writes are tried. *)
Definition sendData (id : byte) (message : String) (c : Connection)
  : bool * Connection * list Effect :=
  if negb (isConnected (mSocketClient c))
  then (false, c,
        [LogError "Trying to send message to unconnected client (%d)"])
  else
    let data := [id] ++ (if size message =? 0 then [] else message) in
    let header := le32_encode (size data) in
    let pendingWrite :=
      to_int32 (mPendingWrite c + (size header + size data)) in
    let '(ok, sock) := write (mSocketClient c) header in
    if negb ok
    then (false,
          mkConnection sock (mBuffers c) (mPendingRead c) pendingWrite, [])
    else
      let '(ok, sock) :=
        if size data =? 0 then (true, sock) else write sock data in
      (ok, mkConnection sock (mBuffers c) (mPendingRead c) pendingWrite, []).

(** [Connection::pendingWrite] *)
Definition pendingWrite (c : Connection) : Z := mPendingWrite c.

(** [Connection::onDataWritten].  [bytes] is an [int].  The function begins
    with [assert(mPendingWrite >= bytes)]: where the assertion fails the
    program is aborted, which is [None]. *)
Definition onDataWritten (bytes : Z) (c : Connection)
  : option (Connection * list Effect) :=
  if mPendingWrite c <? bytes then None
  else
    let pendingWrite := to_int32 (mPendingWrite c - bytes) in
    Some
      (mkConnection (mSocketClient c) (mBuffers c) (mPendingRead c)
         pendingWrite,
       if pendingWrite =? 0 then [Emit SendFinished] else []).

Section Framing.

(** [FinishMessage::MessageId] and the ids for which a message factory is
    registered; both live in [Messages.h]/[Messages.cpp], which are not among
    the sources. *)
Variable FinishId : byte.
Variable registered : byte -> bool.

(** Modelled from the spec: [Messages::create] ([Messages.cpp] is not among
    the sources).  The first byte of the payload is the message id and the
    rest is the body; an empty payload or an id without a factory gives no
    message. *)
Definition Messages_create (data : list byte) : option Message :=
  match data with
  | [] => None
  | id :: body => if registered id then Some (mkMessage id body) else None
  end.

(** One pass through the body of [while (true)] in
    [Connection::onDataAvailable].  The boolean tells whether the loop goes
    round again ([false] is a [break]).  [mPendingRead] is an [int] that is
    compared with the [unsigned] count of bytes at hand, and the frame is
    copied to [char buf[1024]] unless [mPendingRead > 1024] as an [int]: a
    length of [2^31] or more whose bytes are all at hand is copied past the
    end of [buf]. *)
Definition onDataAvailable_body (c : Connection)
  : outcome (Connection * list Effect * bool) :=
  let sock := mSocketClient c in
  let '(sock, buffers) :=
    if negb (size (sc_buffer sock) =? 0)
    then let '(b, sock') := takeBuffer sock in (sock', mBuffers c ++ [b])
    else (sock, mBuffers c) in
  let available := bufferSize buffers in
  if available =? 0
  then Ok (mkConnection sock buffers (mPendingRead c) (mPendingWrite c), [], false)
  else
    let header :=
      if mPendingRead c =? 0 then
        if available <? 4 then None
        else
          let '(buffers', buf, read) := bufferRead buffers 4 in
          Some (buffers', to_int32 (le_decode (left buf read)),
                to_uint32 (available - 4))
      else Some (buffers, mPendingRead c, available) in
    match header with
    | None =>
        Ok (mkConnection sock buffers (mPendingRead c) (mPendingWrite c), [], false)
    | Some (buffers, pendingRead, available) =>
        if available <? to_uint32 pendingRead
        then Ok (mkConnection sock buffers pendingRead (mPendingWrite c), [], false)
        else
          let capacity := if pendingRead >? 1024 then pendingRead else 1024 in
          let '(buffers', buffer, read) :=
            bufferRead buffers (to_uint32 pendingRead) in
          if capacity <? size buffer then Undefined
          else
            let effects :=
              match Messages_create (left buffer read) with
              | Some message =>
                  if Byte.eqb (messageId message) FinishId
                  then [Emit Finished]
                  else [Emit (NewMessage message)]
              | None => []
              end in
            Ok (mkConnection sock buffers' 0 (mPendingWrite c), effects, true)
    end.

Fixpoint onDataAvailable_loop (fuel : nat) (c : Connection)
  : outcome (Connection * list Effect) :=
  match fuel with
  | O => OutOfFuel
  | S fuel' =>
      match onDataAvailable_body c with
      | Ok (c', effects, true) =>
          match onDataAvailable_loop fuel' c' with
          | Ok (c'', effects') => Ok (c'', effects ++ effects')
          | Undefined => Undefined
          | OutOfFuel => OutOfFuel
          end
      | Ok (c', effects, false) => Ok (c', effects)
      | Undefined => Undefined
      | OutOfFuel => OutOfFuel
      end
  end.

(** The bytes that have arrived and are not consumed yet, in order. *)
Definition queued (c : Connection) : list byte :=
  concat (mBuffers c) ++ sc_buffer (mSocketClient c).

(** [Connection::onDataAvailable].  Every pass that does not break consumes
    at least one queued byte, so one more pass than there are bytes is
    enough. *)
Definition onDataAvailable (c : Connection)
  : outcome (Connection * list Effect) :=
  onDataAvailable_loop (S (length (queued c))) c.

End Framing.

End Connection.

(** ** Process *)

Module Process.

Inductive Mode : Type := Sync | Async.

Inductive ExecState : Type := Error | Done | TimedOut.

(** [mFinished], [mReadyReadStdOut] and [mReadyReadStdErr]. *)
Inductive Signal : Type :=
| FinishedSignal
| ReadyReadStdOut
| ReadyReadStdErr.

(** What a member function does to the world around the object, in the
    order in which it does it.  [Lock]/[Unlock] are on the mutex of the
    process ([mMutex]); [SysWrite fd data w] is a call of [write] on [fd]
    with the bytes [data] that returns [w]. *)
Inductive Effect : Type :=
| Lock
| Unlock
| RegisterSocket (fd : Z) (mode : Z)
| UnregisterSocket (fd : Z)
| SysClose (fd : Z)
| SysWrite (fd : Z) (data : list byte) (w : Z)
| SysKill (pid : Z) (sig : Z)
| LogError (text : string)
| Emit (s : Signal).

(** [EventLoop::SocketRead] and [EventLoop::SocketWrite]. *)
Definition SocketRead : Z := 1.
Definition SocketWrite : Z := 2.
Definition SIGTERM : Z := 15.

Record Process : Type := mkProcess {
  mPid : Z;
  mReturn : Z;
  mStdIn : Z * Z;
  mStdOut : Z * Z;
  mStdErr : Z * Z;
  mSync : Z * Z;
  mStdInBuffer : list String;
  mStdInIndex : Z;
  mStdOutBuffer : String;
  mStdOutIndex : Z;
  mStdErrBuffer : String;
  mStdErrIndex : Z;
  mMode : Mode;
  mErrorString : string
}.

Definition set_mPid (v : Z) (p : Process) : Process :=
  mkProcess v (mReturn p) (mStdIn p) (mStdOut p) (mStdErr p) (mSync p)
    (mStdInBuffer p) (mStdInIndex p) (mStdOutBuffer p) (mStdOutIndex p)
    (mStdErrBuffer p) (mStdErrIndex p) (mMode p) (mErrorString p).

Definition set_mReturn (v : Z) (p : Process) : Process :=
  mkProcess (mPid p) v (mStdIn p) (mStdOut p) (mStdErr p) (mSync p)
    (mStdInBuffer p) (mStdInIndex p) (mStdOutBuffer p) (mStdOutIndex p)
    (mStdErrBuffer p) (mStdErrIndex p) (mMode p) (mErrorString p).

Definition set_mStdIn (v : Z * Z) (p : Process) : Process :=
  mkProcess (mPid p) (mReturn p) v (mStdOut p) (mStdErr p) (mSync p)
    (mStdInBuffer p) (mStdInIndex p) (mStdOutBuffer p) (mStdOutIndex p)
    (mStdErrBuffer p) (mStdErrIndex p) (mMode p) (mErrorString p).

Definition set_mStdOut (v : Z * Z) (p : Process) : Process :=
  mkProcess (mPid p) (mReturn p) (mStdIn p) v (mStdErr p) (mSync p)
    (mStdInBuffer p) (mStdInIndex p) (mStdOutBuffer p) (mStdOutIndex p)
    (mStdErrBuffer p) (mStdErrIndex p) (mMode p) (mErrorString p).

Definition set_mStdErr (v : Z * Z) (p : Process) : Process :=
  mkProcess (mPid p) (mReturn p) (mStdIn p) (mStdOut p) v (mSync p)
    (mStdInBuffer p) (mStdInIndex p) (mStdOutBuffer p) (mStdOutIndex p)
    (mStdErrBuffer p) (mStdErrIndex p) (mMode p) (mErrorString p).

Definition set_mSync (v : Z * Z) (p : Process) : Process :=
  mkProcess (mPid p) (mReturn p) (mStdIn p) (mStdOut p) (mStdErr p) v
    (mStdInBuffer p) (mStdInIndex p) (mStdOutBuffer p) (mStdOutIndex p)
    (mStdErrBuffer p) (mStdErrIndex p) (mMode p) (mErrorString p).

Definition set_stdin_queue (q : list String) (i : Z) (p : Process) : Process :=
  mkProcess (mPid p) (mReturn p) (mStdIn p) (mStdOut p) (mStdErr p) (mSync p)
    q i (mStdOutBuffer p) (mStdOutIndex p)
    (mStdErrBuffer p) (mStdErrIndex p) (mMode p) (mErrorString p).

Definition set_stdout (b : String) (i : Z) (p : Process) : Process :=
  mkProcess (mPid p) (mReturn p) (mStdIn p) (mStdOut p) (mStdErr p) (mSync p)
    (mStdInBuffer p) (mStdInIndex p) b i
    (mStdErrBuffer p) (mStdErrIndex p) (mMode p) (mErrorString p).

Definition set_stderr (b : String) (i : Z) (p : Process) : Process :=
  mkProcess (mPid p) (mReturn p) (mStdIn p) (mStdOut p) (mStdErr p) (mSync p)
    (mStdInBuffer p) (mStdInIndex p) (mStdOutBuffer p) (mStdOutIndex p)
    b i (mMode p) (mErrorString p).

Definition set_mMode (v : Mode) (p : Process) : Process :=
  mkProcess (mPid p) (mReturn p) (mStdIn p) (mStdOut p) (mStdErr p) (mSync p)
    (mStdInBuffer p) (mStdInIndex p) (mStdOutBuffer p) (mStdOutIndex p)
    (mStdErrBuffer p) (mStdErrIndex p) v (mErrorString p).

Definition set_mErrorString (v : string) (p : Process) : Process :=
  mkProcess (mPid p) (mReturn p) (mStdIn p) (mStdOut p) (mStdErr p) (mSync p)
    (mStdInBuffer p) (mStdInIndex p) (mStdOutBuffer p) (mStdOutIndex p)
    (mStdErrBuffer p) (mStdErrIndex p) (mMode p) v.

(** [Process::Process()] *)
Definition Process_new : Process :=
  mkProcess (-1) 0 (-1, -1) (-1, -1) (-1, -1) (-1, -1)
    [] 0 [] 0 [] 0 Sync EmptyString.

(** The kernel as the process sees it through its pipes.  For every
    descriptor, [k_reads] is what the successive [read] calls on it return:
    the bytes of each read that gives data, at most [BufSize] of them as that
    is what is asked for; an empty entry is a read that returns 0, end of
    file; once the entries are used up the read returns -1, there is nothing
    to read now.  [k_writes] is the room that the successive [write] calls on
    it find in the pipe: a write that finds no room returns -1, any other
    takes as many of its bytes as there is room for; once the entries are
    used up the pipe is full.  [eintrwrap] repeats a call that was
    interrupted, so an interrupted call does not show. *)
Record Kernel : Type := mkKernel {
  k_reads : Z -> list (list byte);
  k_writes : Z -> list Z
}.

Definition upd {A : Type} (f : Z -> A) (k : Z) (v : A) : Z -> A :=
  fun k' => if k' =? k then v else f k'.

Definition set_reads (k : Kernel) (fd : Z) (r : list (list byte)) : Kernel :=
  mkKernel (upd (k_reads k) fd r) (k_writes k).

Definition set_writes (k : Kernel) (fd : Z) (w : list Z) : Kernel :=
  mkKernel (k_reads k) (upd (k_writes k) fd w).

(** [Process::closeStdIn], [closeStdOut], [closeStdErr] *)
Definition closeStdIn (p : Process) : Process * list Effect :=
  if snd (mStdIn p) =? -1 then (p, [])
  else (set_mStdIn (fst (mStdIn p), -1) p,
        [UnregisterSocket (snd (mStdIn p)); SysClose (snd (mStdIn p))]).

Definition closeStdOut (p : Process) : Process * list Effect :=
  if fst (mStdOut p) =? -1 then (p, [])
  else (set_mStdOut (-1, snd (mStdOut p)) p,
        [UnregisterSocket (fst (mStdOut p)); SysClose (fst (mStdOut p))]).

Definition closeStdErr (p : Process) : Process * list Effect :=
  if fst (mStdErr p) =? -1 then (p, [])
  else (set_mStdErr (-1, snd (mStdErr p)) p,
        [UnregisterSocket (fst (mStdErr p)); SysClose (fst (mStdErr p))]).

(** [Process::readAllStdOut] and [Process::readAllStdErr]: the buffer is
    swapped with an empty string and the index is reset. *)
Definition readAllStdOut (p : Process) : String * Process :=
  (mStdOutBuffer p, set_stdout [] 0 p).

Definition readAllStdErr (p : Process) : String * Process :=
  (mStdErrBuffer p, set_stderr [] 0 p).

Definition BufSize : Z := 1024.
Definition MaxSize : Z := 1024 * 1024 * 16.

(** The last branch of the loop of [Process::handleOutput]: [r > 0] bytes
    were read into [buf] and are added to [buffer]. *)
Definition handleOutput_append (buffer : String) (index : Z) (buf : list byte)
  : String * Z * list Effect :=
  let r := size buf in
  let sz := size buffer in
  let '(buffer, index, sz, log) :=
    if sz + r >? MaxSize then
      if sz + r - index >? MaxSize then
        ([], 0, 0,
         [LogError "Process::handleOutput, buffer too big, dropping data"])
      else
        let sz := size buffer - index in
        (left (mid buffer index) sz, 0, sz, [])
    else (buffer, index, sz, []) in
  (left buffer sz ++ buf, index, log).

(** The loop of [Process::handleOutput], on what the reads on [fd] return.
    The result carries [total] and the reads that are left for later. *)
Fixpoint handleOutput_loop (reads : list (list byte)) (fd : Z)
    (buffer : String) (index : Z) (total : Z)
  : String * Z * Z * list Effect * list (list byte) :=
  match reads with
  | [] => (buffer, index, total, [], [])
  | buf :: rest =>
      if size buf =? 0
      then (buffer, index, total, [UnregisterSocket fd], rest)
      else
        let '(buffer, index, log) := handleOutput_append buffer index buf in
        let '(buffer, index, total, effects, reads') :=
          handleOutput_loop rest fd buffer index (total + size buf) in
        (buffer, index, total, log ++ effects, reads')
  end.

(** [Process::handleOutput] *)
Definition handleOutput (reads : list (list byte)) (fd : Z)
    (buffer : String) (index : Z) (signal : Signal)
  : String * Z * list Effect * list (list byte) :=
  let '(buffer, index, total, effects, reads') :=
    handleOutput_loop reads fd buffer index 0 in
  (buffer, index,
   effects ++ (if total =? 0 then [] else [Emit signal]), reads').

(** What a [write] of [want] bytes returns when the pipe has [room]. *)
Definition write_result (room want : Z) : Z :=
  if room <=? 0 then -1 else Z.min want room.

(** [::write(fd, data, want)] on the kernel. *)
Definition sys_write (k : Kernel) (fd : Z) (want : Z) : Z * Kernel :=
  match k_writes k fd with
  | [] => (-1, k)
  | room :: rest => (write_result room want, set_writes k fd rest)
  end.

(** The loop of [Process::handleInput], on the room that the successive
    writes on [fd] find.  The result is the queue and index that are left,
    what was done, and the entries that were not used. *)
Fixpoint handleInput_loop (writes : list Z) (fd : Z)
    (queue : list String) (index : Z)
  : list String * Z * list Effect * list Z :=
  match queue with
  | [] => ([], index, [], writes)
  | front :: rest =>
      let '(want, data) :=
        if negb (index =? 0)
        then (size front - index, mid front index)
        else (size front, front) in
      match writes with
      | [] =>
          (queue, index,
           [SysWrite fd data (-1); RegisterSocket fd SocketWrite], [])
      | room :: writes' =>
          let w := write_result room want in
          if w =? -1
          then (queue, index,
                [SysWrite fd data w; RegisterSocket fd SocketWrite], writes')
          else
            let '(queue', index') :=
              if w =? want then (rest, 0) else (queue, index + w) in
            let '(queue'', index'', effects, writes'') :=
              handleInput_loop writes' fd queue' index' in
            (queue'', index'', SysWrite fd data w :: effects, writes'')
      end
  end.

(** [Process::handleInput] *)
Definition handleInput (k : Kernel) (fd : Z) (p : Process)
  : Process * list Effect * Kernel :=
  let '(queue, index, effects, writes) :=
    handleInput_loop (k_writes k fd) fd (mStdInBuffer p) (mStdInIndex p) in
  (set_stdin_queue queue index p, UnregisterSocket fd :: effects,
   set_writes k fd writes).

(** [Process::write] *)
Definition write (k : Kernel) (data : String) (p : Process)
  : Process * list Effect * Kernel :=
  if negb (size data =? 0) && negb (snd (mStdIn p) =? -1)
  then handleInput k (snd (mStdIn p))
         (set_stdin_queue (mStdInBuffer p ++ [data]) (mStdInIndex p) p)
  else (p, [], k).

(** [handleOutput] on the standard output, and on the standard error, of
    the process, as the callers in [Process.cpp] use it. *)
Definition handleStdOut (k : Kernel) (p : Process)
  : Process * list Effect * Kernel :=
  let fd := fst (mStdOut p) in
  let '(buffer, index, effects, reads) :=
    handleOutput (k_reads k fd) fd (mStdOutBuffer p) (mStdOutIndex p)
      ReadyReadStdOut in
  (set_stdout buffer index p, effects, set_reads k fd reads).

Definition handleStdErr (k : Kernel) (p : Process)
  : Process * list Effect * Kernel :=
  let fd := fst (mStdErr p) in
  let '(buffer, index, effects, reads) :=
    handleOutput (k_reads k fd) fd (mStdErrBuffer p) (mStdErrIndex p)
      ReadyReadStdErr in
  (set_stderr buffer index p, effects, set_reads k fd reads).

(** [EventLoop::SocketError] *)
Definition SocketError : Z := 8.

(** [Process::processCallback] *)
Definition processCallback (k : Kernel) (fd mode : Z) (p : Process)
  : Process * list Effect * Kernel :=
  if mode =? SocketError then (p, [], k)
  else if fd =? snd (mStdIn p) then handleInput k fd p
  else if fd =? fst (mStdOut p) then handleStdOut k p
  else if fd =? fst (mStdErr p) then handleStdErr k p
  else (p, [], k).

(** [Process::finish].  The first block runs with [mMutex] held; the signal
    is emitted after the block is left. *)
Definition finish (k : Kernel) (returnCode : Z) (p : Process)
  : Process * list Effect * Kernel :=
  let p := set_mPid (-1) p in
  let p := set_mReturn returnCode p in
  let p := set_stdin_queue [] (mStdInIndex p) p in
  let '(p, e_in) := closeStdIn p in
  let '(p, e_body, k) :=
    match mMode p with
    | Async =>
        let '(p, e1, k) := handleStdOut k p in
        let '(p, e2, k) := handleStdErr k p in
        let '(p, e3) := closeStdOut p in
        let '(p, e4) := closeStdErr p in
        (p, e1 ++ e2 ++ e3 ++ e4, k)
    | Sync =>
        let fd := snd (mSync p) in
        let '(w, k) := sys_write k fd 1 in
        (set_mSync (fst (mSync p), -1) p,
         [SysWrite fd ["q"%byte] w; SysClose fd], k)
    end in
  (p,
   [Lock] ++ e_in ++ e_body ++ [Unlock]
   ++ match mMode p with Async => [Emit FinishedSignal] | Sync => [] end,
   k).

(** [Process::stop] *)
Definition stop (p : Process) : list Effect :=
  if mPid p =? -1 then [] else [SysKill (mPid p) SIGTERM].

(** The part of the file system and of the environment that
    [Process::findCommand] looks at: [getenv("PATH")],
    [Path::resolved(command, Path::RealPath, dir, &ok)] (of [Path.cpp], which
    is not among the sources) as the pair of [ok] and the path returned, and
    whether [access(path, R_OK | X_OK)] returns 0. *)
Record Env : Type := mkEnv {
  env_PATH : option String;
  resolved : String -> String -> bool * String;
  access_rx : String -> bool
}.

(** Modelled from the spec: [String::split] ([String.h] is not among the
    sources), for the colon-delimited [PATH]: the pieces between the
    separators, empty pieces kept. *)
Fixpoint split (sep : byte) (s : String) : list String :=
  match s with
  | [] => [[]]
  | ch :: rest =>
      if Byte.eqb ch sep then [] :: split sep rest
      else match split sep rest with
           | [] => [[ch]]
           | piece :: pieces => (ch :: piece) :: pieces
           end
  end.

(** The [for] loop of [Process::findCommand]; the empty path is [Path()]. *)
Fixpoint findCommand_probe (env : Env) (command : String)
    (paths : list String) : String :=
  match paths with
  | [] => []
  | it :: rest =>
      let '(ok, ret) := resolved env command it in
      if ok && access_rx env ret then ret
      else findCommand_probe env command rest
  end.

(** [Process::findCommand] *)
Definition findCommand (env : Env) (command : String) : String :=
  match command with
  | [] => command
  | ch :: _ =>
      if Byte.eqb ch "/"%byte then command
      else match env_PATH env with
           | None => []
           | Some path => findCommand_probe env command (split ":"%byte path)
           end
  end.

(** ** The supervisor thread and its registry *)

Definition ProcPtr : Type := nat.

(** [std::map<pid_t, Process*>]: the entries in the order of the keys. *)
Definition Registry : Type := list (Z * ProcPtr).

Fixpoint registry_insert (pid : Z) (process : ProcPtr) (reg : Registry)
  : Registry :=
  match reg with
  | [] => [(pid, process)]
  | (pid', process') :: rest =>
      if pid <? pid' then (pid, process) :: reg
      else if pid =? pid' then (pid, process) :: rest
      else (pid', process') :: registry_insert pid process rest
  end.

Definition registry_erase (pid : Z) (reg : Registry) : Registry :=
  filter (fun entry => negb (fst entry =? pid)) reg.

(** [ProcessThread::addPid] *)
Definition addPid (pid : Z) (process : ProcPtr) (reg : Registry) : Registry :=
  registry_insert pid process reg.

(** The children of this program as the kernel has them: running, or
    terminated and waiting to be collected, with the status word that
    [waitpid] hands over. *)
Inductive Child : Type :=
| Running
| Terminated (status : Z).

Definition Children : Type := Z -> option Child.

(** [waitpid(pid, &ret, WNOHANG)]: the value returned, what is stored in
    [ret], and the children that are left. *)
Definition waitpid (children : Children) (pid : Z) : Z * Z * Children :=
  match children pid with
  | None => (-1, 0, children)
  | Some Running => (0, 0, children)
  | Some (Terminated status) => (pid, status, upd children pid None)
  end.

(** [WIFEXITED] and [WEXITSTATUS] as the C library defines them. *)
Definition WIFEXITED (status : Z) : bool := Z.land status 127 =? 0.
Definition WEXITSTATUS (status : Z) : Z := Z.shiftr (Z.land status 65280) 8.

(** What the supervisor thread does, in order; [LockRegistry] and
    [UnlockRegistry] are on [sProcessMutex]. *)
Inductive Action : Type :=
| LockRegistry
| UnlockRegistry
| Waitpid (pid : Z) (p : Z)
| Erase (pid : Z)
| Finish (process : ProcPtr) (ret : Z).

(** The [while (proc != end)] loop of [ProcessThread::run], over the entries
    from [proc] on. *)
Fixpoint walk (entries : Registry) (reg : Registry) (children : Children)
  : Registry * Children * list Action :=
  match entries with
  | [] => (reg, children, [])
  | (pid, process) :: rest =>
      let '(p, ret, children) := waitpid children pid in
      if (p =? 0) || (p =? -1) then
        let '(reg, children, actions) := walk rest reg children in
        (reg, children, Waitpid pid p :: actions)
      else
        let ret := if WIFEXITED ret then WEXITSTATUS ret else -1 in
        let reg := registry_erase pid reg in
        let '(reg, children, actions) := walk rest reg children in
        (reg, children,
         [Waitpid pid p; Erase pid; UnlockRegistry; Finish process ret;
          LockRegistry] ++ actions)
  end.

Inductive ThreadState : Type :=
| WaitingForByte
| ThreadExited.

(** [ProcessThread::run], on the bytes that its reads of the signal pipe
    return one after the other.  When they are used up the thread sits in
    [read]. *)
Fixpoint run (pipe : list byte) (reg : Registry) (children : Children)
  : Registry * Children * list Action * ThreadState :=
  match pipe with
  | [] => (reg, children, [], WaitingForByte)
  | ch :: rest =>
      if Byte.eqb ch "s"%byte then (reg, children, [], ThreadExited)
      else
        let '(reg, children, actions) := walk reg reg children in
        let '(reg, children, actions', state) := run rest reg children in
        (reg, children,
         [LockRegistry] ++ actions ++ [UnlockRegistry] ++ actions', state)
  end.

Inductive ThreadSignal : Type := SigChild | SigStop.

(** [ProcessThread::wakeup]: the byte written to the signal pipe. *)
Definition wakeup (sig : ThreadSignal) : byte :=
  match sig with
  | SigStop => "s"%byte
  | SigChild => "c"%byte
  end.

(** [ProcessThread::processSignalHandler] *)
Definition processSignalHandler : byte := wakeup SigChild.

(** The descriptors that the [pipe] calls of [Process::startInternal] hand
    out, each as the pair of the read end and the write end. *)
Record Pipes : Type := mkPipes {
  pipe_in : Z * Z;
  pipe_out : Z * Z;
  pipe_err : Z * Z;
  pipe_sync : Z * Z
}.

(** How [Process::startInternal] ends in the process image that called it:
    it returns a state, or it is the child of the fork and goes on to
    [execv] or [_exit], or it has reached the [select] loop of the
    synchronous mode, where it stays until the supervisor thread has called
    [finish] or the time is up. *)
Inductive Started : Type :=
| Returned (state : ExecState)
| InChild
| InSelectLoop.

(** [Process::startInternal], through the fork and what the parent does
    right after it.  [fork] is the value that [::fork()] returns, [loop]
    tells whether the thread has an event loop, [noCloseStdIn] is the flag of
    that name in [execFlags]. *)
Definition startInternal (env : Env) (fds : Pipes) (fork : Z)
    (loop noCloseStdIn : bool) (self : ProcPtr) (command : String)
    (p : Process) (reg : Registry)
  : Process * Registry * list Effect * Started :=
  let p := set_mErrorString EmptyString p in
  let cmd := findCommand env command in
  if size cmd =? 0
  then (set_mErrorString "Command not found" p, reg, [], Returned Error)
  else
    let p := set_mStdIn (pipe_in fds) p in
    let p := set_mStdOut (pipe_out fds) p in
    let p := set_mStdErr (pipe_err fds) p in
    let p := match mMode p with
             | Sync => set_mSync (pipe_sync fds) p
             | Async => p
             end in
    let p := set_mPid fork p in
    if mPid p =? -1 then
      (set_mErrorString "Fork failed" p, reg,
       [SysClose (snd (mStdIn p)); SysClose (fst (mStdIn p));
        SysClose (snd (mStdOut p)); SysClose (fst (mStdOut p));
        SysClose (snd (mStdErr p)); SysClose (fst (mStdErr p))],
       Returned Error)
    else if mPid p =? 0 then (p, reg, [], InChild)
    else
      let reg := addPid (mPid p) self reg in
      let closes :=
        [SysClose (fst (mStdIn p)); SysClose (snd (mStdOut p));
         SysClose (snd (mStdErr p))] in
      match mMode p with
      | Async =>
          (p, reg,
           closes ++
           (if loop
            then [RegisterSocket (fst (mStdOut p)) SocketRead;
                  RegisterSocket (fst (mStdErr p)) SocketRead]
            else []),
           Returned Done)
      | Sync =>
          let '(p, e) := if noCloseStdIn then (p, []) else closeStdIn p in
          (p, reg, closes ++ e, InSelectLoop)
      end.

(** [Process::start] and [Process::exec] *)
Definition start (env : Env) (fds : Pipes) (fork : Z) (loop : bool)
    (self : ProcPtr) (command : String) (p : Process) (reg : Registry)
  : Process * Registry * list Effect * Started :=
  startInternal env fds fork loop false self command (set_mMode Async p) reg.

Definition exec (env : Env) (fds : Pipes) (fork : Z) (noCloseStdIn : bool)
    (self : ProcPtr) (command : String) (p : Process) (reg : Registry)
  : Process * Registry * list Effect * Started :=
  startInternal env fds fork true noCloseStdIn self command
    (set_mMode Sync p) reg.

(** ** The program as a whole: processes, registry, children *)

Record System : Type := mkSystem {
  sProcesses : Registry;
  children : Children;
  heap : ProcPtr -> Process;
  kernel : Kernel
}.

Definition heap_set (h : ProcPtr -> Process) (q : ProcPtr) (p : Process)
  : ProcPtr -> Process :=
  fun q' => if Nat.eqb q' q then p else h q'.

(** What can happen to the program, one step at a time: a member function
    of the process [self] is called, a child terminates, or the supervisor
    thread reads a byte that is not ['s'] from the signal pipe. *)
Inductive Op : Type :=
| OpStart (self : ProcPtr) (env : Env) (fds : Pipes) (fork : Z)
    (command : String)
| OpExec (self : ProcPtr) (env : Env) (fds : Pipes) (fork : Z)
    (noCloseStdIn : bool) (command : String)
| OpChildTerminates (pid : Z) (status : Z)
| OpSupervisor
| OpWrite (self : ProcPtr) (data : String)
| OpReadAllStdOut (self : ProcPtr)
| OpReadAllStdErr (self : ProcPtr)
| OpCallback (self : ProcPtr) (fd mode : Z)
| OpStop (self : ProcPtr).

(** The calls of [finish] that a pass of the supervisor thread makes, done
    to the processes in the order of the pass. *)
Fixpoint finish_calls (actions : list Action) (h : ProcPtr -> Process)
    (k : Kernel) : (ProcPtr -> Process) * Kernel :=
  match actions with
  | [] => (h, k)
  | Finish process ret :: rest =>
      let '(p, _, k) := finish k ret (h process) in
      finish_calls rest (heap_set h process p) k
  | _ :: rest => finish_calls rest h k
  end.

(** [startInternal] gets as far as the fork when the command is found; a
    fork that succeeds gives the kernel one more running child. *)
Definition forked (env : Env) (command : String) (fork : Z) (c : Children)
  : Children :=
  if negb (size (findCommand env command) =? 0) && (0 <? fork)
  then upd c fork (Some Running) else c.

Definition step (s : System) (op : Op) : System :=
  match op with
  | OpStart self env fds fork command =>
      let '(p, reg, _, _) :=
        start env fds fork true self command (heap s self) (sProcesses s) in
      mkSystem reg (forked env command fork (children s))
        (heap_set (heap s) self p)
        (kernel s)
  | OpExec self env fds fork noCloseStdIn command =>
      let '(p, reg, _, _) :=
        exec env fds fork noCloseStdIn self command (heap s self)
          (sProcesses s) in
      mkSystem reg (forked env command fork (children s))
        (heap_set (heap s) self p)
        (kernel s)
  | OpChildTerminates pid status =>
      match children s pid with
      | Some Running =>
          mkSystem (sProcesses s) (upd (children s) pid (Some (Terminated status)))
            (heap s) (kernel s)
      | _ => s
      end
  | OpSupervisor =>
      let '(reg, c, actions) :=
        walk (sProcesses s) (sProcesses s) (children s) in
      let '(h, k) := finish_calls actions (heap s) (kernel s) in
      mkSystem reg c h k
  | OpWrite self data =>
      let '(p, _, k) := write (kernel s) data (heap s self) in
      mkSystem (sProcesses s) (children s) (heap_set (heap s) self p) k
  | OpReadAllStdOut self =>
      mkSystem (sProcesses s) (children s)
        (heap_set (heap s) self (snd (readAllStdOut (heap s self)))) (kernel s)
  | OpReadAllStdErr self =>
      mkSystem (sProcesses s) (children s)
        (heap_set (heap s) self (snd (readAllStdErr (heap s self)))) (kernel s)
  | OpCallback self fd mode =>
      let '(p, _, k) := processCallback (kernel s) fd mode (heap s self) in
      mkSystem (sProcesses s) (children s) (heap_set (heap s) self p) k
  | OpStop self => s
  end.

Definition steps (s : System) (ops : list Op) : System :=
  fold_left step ops s.

(** The program when it starts: every process object is as its constructor
    leaves it, the registry is empty and there are no children. *)
Definition System_new (k : Kernel) : System :=
  mkSystem [] (fun _ => None) (fun _ => Process_new) k.

End Process.

(** * The specification *)

(** ** The framer of the specification *)

Module Framer.
Import Connection.

Section Spec.

Variable FinishId : byte.
Variable registered : byte -> bool.

(** The two states of the framer: no frame is in progress, or the header
    of a frame of [n] bytes has been read. *)
Inductive FramerState : Type :=
| AwaitingHeader
| AwaitingBody (n : Z).

(** What a payload delivers: its first byte is the message id, the rest is
    the body; the [Finish] id gives [Finished], any other id for which there
    is a message gives [NewMessage]; a payload that is no message is
    discarded. *)
Definition deliver (payload : list byte) : list Signal :=
  match payload with
  | [] => []
  | id :: body =>
      if registered id
      then if Byte.eqb id FinishId
           then [Finished]
           else [NewMessage (mkMessage id body)]
      else []
  end.

(** The transitions, on the state and the bytes queued: with at least 4
    bytes queued the header is consumed and its little-endian value is the
    length awaited; with at least [n] bytes queued exactly [n] are consumed
    and delivered. *)
Inductive frame_step :
  FramerState * list byte -> list Signal -> FramerState * list byte -> Prop :=
| step_header : forall header rest,
    size header = 4 ->
    frame_step (AwaitingHeader, header ++ rest) []
               (AwaitingBody (le_decode header), rest)
| step_body : forall n payload rest,
    size payload = n ->
    frame_step (AwaitingBody n, payload ++ rest) (deliver payload)
               (AwaitingHeader, rest).

Inductive frame_steps :
  FramerState * list byte -> list Signal -> FramerState * list byte -> Prop :=
| steps_refl : forall st, frame_steps st [] st
| steps_cons : forall st1 st2 st3 sigs sigs',
    frame_step st1 sigs st2 ->
    frame_steps st2 sigs' st3 ->
    frame_steps st1 (sigs ++ sigs') st3.

Definition frame_stuck (st : FramerState * list byte) : Prop :=
  forall sigs st', ~ frame_step st sigs st'.

(** The state of the framer that a connection is in: [mPendingRead] is 0
    when no frame is in progress and the length awaited otherwise. *)
Definition state_of (c : Connection) : FramerState :=
  if mPendingRead c =? 0 then AwaitingHeader
  else AwaitingBody (to_uint32 (mPendingRead c)).

(** Every frame that the bytes queued complete is shorter than [limit]:
    wherever the framer has read a header of [n] and the [n] bytes of the
    payload are queued, [n] is below [limit]. *)
Definition frames_below (limit : Z) (st : FramerState * list byte) : Prop :=
  forall sigs n rest,
    frame_steps st sigs (AwaitingBody n, rest) ->
    n <= size rest ->
    n < limit.

End Spec.

(** The claim of the specification as it stands, of every stream of bytes:
    on whatever bytes are queued, [onDataAvailable] returns and what it did
    is a run of the framer on those bytes, up to where the framer can take
    no step. *)
Definition decodes_every_stream : Prop :=
  forall (FinishId : byte) (registered : byte -> bool) (c : Connection),
    int32_range (mPendingRead c) ->
    exists c' sigs,
      onDataAvailable FinishId registered c = Ok (c', map Emit sigs)
      /\ frame_steps FinishId registered
           (state_of c, queued c) sigs (state_of c', queued c')
      /\ frame_stuck FinishId registered (state_of c', queued c')
      /\ mPendingWrite c' = mPendingWrite c.

End Framer.

(** ** Sends and acknowledgements *)

Module Backpressure.
Import Connection.

(** What happens to a connection on its sending side: [sendData] is
    called, the socket reports bytes written, or the transport changes
    (it connects, disconnects or fails). *)
Inductive Event : Type :=
| Send (id : byte) (message : String)
| Written (bytes : Z)
| Transport (connected failed : bool).

Definition set_transport (connected failed : bool) (c : Connection)
  : Connection :=
  mkConnection
    (mkSocketClient connected (sc_buffer (mSocketClient c))
       (sc_sent (mSocketClient c)) failed)
    (mBuffers c) (mPendingRead c) (mPendingWrite c).

(** One event.  [None] is the failed assertion of [onDataWritten], after
    which nothing more happens. *)
Definition step (c : Connection) (e : Event)
  : option (Connection * list Effect) :=
  match e with
  | Send id message =>
      let '(_, c', effects) := sendData id message c in Some (c', effects)
  | Written bytes => onDataWritten bytes c
  | Transport connected failed => Some (set_transport connected failed c, [])
  end.

(** One line of the history of a run: the connection before the event, the
    event, the connection after it and what the connection did. *)
Record Line : Type := mkLine {
  l_before : Connection;
  l_event : Event;
  l_after : Connection;
  l_effects : list Effect
}.

Fixpoint history (c : Connection) (events : list Event)
  : option (list Line) :=
  match events with
  | [] => Some []
  | e :: rest =>
      match step c e with
      | Some (c', effects) =>
          match history c' rest with
          | Some lines => Some (mkLine c e c' effects :: lines)
          | None => None
          end
      | None => None
      end
  end.

Fixpoint run (c : Connection) (events : list Event) : option Connection :=
  match events with
  | [] => Some c
  | e :: rest =>
      match step c e with
      | Some (c', _) => run c' rest
      | None => None
      end
  end.

(** A send is accepted when [sendData] returns [true]. *)
Definition accepted (c : Connection) (e : Event) : bool :=
  match e with
  | Send id message => fst (fst (sendData id message c))
  | _ => false
  end.

(** The bytes queued by the sends that were accepted: for each of them the
    4 bytes of the header, the id and the message. *)
Fixpoint queued_bytes (c : Connection) (events : list Event) : Z :=
  match events with
  | [] => 0
  | e :: rest =>
      match e with
      | Send _ message => if accepted c e then 4 + (1 + size message) else 0
      | _ => 0
      end
      + match step c e with
        | Some (c', _) => queued_bytes c' rest
        | None => 0
        end
  end.

(** The bytes acknowledged. *)
Fixpoint acknowledged_bytes (events : list Event) : Z :=
  match events with
  | [] => 0
  | Written bytes :: rest => bytes + acknowledged_bytes rest
  | _ :: rest => acknowledged_bytes rest
  end.

Definition is_written (e : Event) : bool :=
  match e with
  | Written _ => true
  | _ => false
  end.

(** What the specification asks of every line: an acknowledgement lowers
    [pendingWrite] by the bytes acknowledged (in the arithmetic of [int]),
    and [SendFinished] is emitted exactly by an acknowledgement that leaves
    [pendingWrite] at 0. *)
Definition line_ok (line : Line) : Prop :=
  (forall bytes,
      l_event line = Written bytes ->
      pendingWrite (l_after line)
      = to_int32 (pendingWrite (l_before line) - bytes))
  /\ (In (Emit SendFinished) (l_effects line)
      <-> is_written (l_event line) = true
          /\ pendingWrite (l_after line) = 0).

(** No write to the socket fails: every send that is made while the socket
    is connected is accepted. *)
Fixpoint writes_succeed (c : Connection) (events : list Event) : bool :=
  match events with
  | [] => true
  | e :: rest =>
      match e with
      | Send _ _ => negb (isConnected (mSocketClient c)) || accepted c e
      | _ => true
      end
      && match step c e with
         | Some (c', _) => writes_succeed c' rest
         | None => true
         end
  end.

(** The socket acknowledges no more bytes than [pendingWrite] says are
    pending, which is what [onDataWritten] asserts. *)
Fixpoint acknowledged_in_bounds (c : Connection) (events : list Event)
  : bool :=
  match events with
  | [] => true
  | e :: rest =>
      match e with
      | Written bytes => bytes <=? pendingWrite c
      | _ => true
      end
      && match step c e with
         | Some (c', _) => acknowledged_in_bounds c' rest
         | None => true
         end
  end.

(** The claim of the specification as it stands, of every run of a
    connection from its construction: [pendingWrite] is the bytes queued by
    the accepted sends minus the bytes acknowledged, and every line of the
    history is as the specification asks. *)
Definition counts_accepted_sends : Prop :=
  forall (client : SocketClient) (events : list Event)
         (c' : Connection) (lines : list Line),
    run (Connection_new client) events = Some c' ->
    history (Connection_new client) events = Some lines ->
    pendingWrite c'
    = queued_bytes (Connection_new client) events - acknowledged_bytes events
    /\ Forall line_ok lines.

End Backpressure.

(** ** The supervisor, the buffers and the command of the specification *)

Module Supervisor.
Import Process.

(** The registry of a [std::map]: the keys ascend, and they are pids that
    [fork] gave to the parent, so they are positive. *)
Fixpoint registry_ok (reg : Registry) : Prop :=
  match reg with
  | [] => True
  | (pid, _) :: rest =>
      0 < pid /\ (forall e, In e rest -> pid < fst e) /\ registry_ok rest
  end.

(** A child that has terminated and waits to be collected. *)
Definition reapable (c : Children) (pid : Z) : bool :=
  match c pid with
  | Some (Terminated _) => true
  | _ => false
  end.

(** The code reported for a status word. *)
Definition exit_code (status : Z) : Z :=
  if WIFEXITED status then WEXITSTATUS status else -1.

(** What the supervisor does for one entry of the registry. *)
Definition entry_actions (c : Children) (entry : Z * ProcPtr) : list Action :=
  match c (fst entry) with
  | None => [Waitpid (fst entry) (-1)]
  | Some Running => [Waitpid (fst entry) 0]
  | Some (Terminated status) =>
      [Waitpid (fst entry) (fst entry); Erase (fst entry); UnlockRegistry;
       Finish (snd entry) (exit_code status); LockRegistry]
  end.

(** Whether the pass over [entries] collects the child [pid]. *)
Definition collected (c : Children) (entries : Registry) (pid : Z) : bool :=
  existsb (fun entry => fst entry =? pid) entries && reapable c pid.

(** A process is live when the registry has an entry for it: it has been
    spawned and its child has not been collected. *)
Definition live (s : System) (q : ProcPtr) : bool :=
  existsb (fun entry => Nat.eqb (snd entry) q) (sProcesses s).

Definition pid_tracks_lifecycle (s : System) : Prop :=
  forall q, mPid (heap s q) = -1 <-> live s q = false.

(** What [fork] can return to the parent: -1, or the pid of a new child,
    which is positive and is not the pid of a child that the kernel still
    has. *)
Definition fork_ok (s : System) (fork : Z) : Prop :=
  fork = -1 \/ (0 < fork /\ children s fork = None).

Definition op_possible (s : System) (op : Op) : Prop :=
  match op with
  | OpStart _ _ _ fork _ => fork_ok s fork
  | OpExec _ _ _ fork _ _ => fork_ok s fork
  | _ => True
  end.

(** A process is spawned only while it has no pid. *)
Definition op_idle (s : System) (op : Op) : Prop :=
  match op with
  | OpStart self _ _ _ _ => mPid (heap s self) = -1
  | OpExec self _ _ _ _ _ => mPid (heap s self) = -1
  | _ => True
  end.

(** A step clears the pid of [q]. *)
Definition clears_pid (s : System) (op : Op) (q : ProcPtr) : Prop :=
  mPid (heap s q) <> -1 /\ mPid (heap (step s op) q) = -1.

Fixpoint possible (s : System) (ops : list Op) : Prop :=
  match ops with
  | [] => True
  | op :: rest => op_possible s op /\ possible (step s op) rest
  end.

Fixpoint spawned_when_idle (s : System) (ops : list Op) : Prop :=
  match ops with
  | [] => True
  | op :: rest => op_idle s op /\ spawned_when_idle (step s op) rest
  end.

(** The registry and the pids agree: the keys ascend, every entry belongs to
    the process whose pid is its key and to a child that the kernel has, and
    every process with a pid has the entry of that pid. *)
Definition registry_inv (s : System) : Prop :=
  registry_ok (sProcesses s)
  /\ (forall pid q,
         In (pid, q) (sProcesses s) ->
         mPid (heap s q) = pid /\ children s pid <> None)
  /\ (forall q,
         mPid (heap s q) <> -1 -> In (mPid (heap s q), q) (sProcesses s)).

(** An action that is a call of [finish] on the process [q]. *)
Definition finishes (q : ProcPtr) (a : Action) : bool :=
  match a with
  | Finish process _ => Nat.eqb process q
  | _ => false
  end.

(** The pid tracks the lifecycle whatever is done to the processes. *)
Definition pid_always_tracks_lifecycle : Prop :=
  forall (k : Kernel) (ops : list Op),
    possible (System_new k) ops ->
    pid_tracks_lifecycle (steps (System_new k) ops).

End Supervisor.

Module Stdio.
Import Process.

(** The part of a buffer that has not been read. *)
Definition unread (buffer : String) (index : Z) : String := mid buffer index.

(** The bytes that a run of reads hands over: those before the first end
    of file. *)
Fixpoint taken (reads : list (list byte)) : list byte :=
  match reads with
  | [] => []
  | buf :: rest => if size buf =? 0 then [] else buf ++ taken rest
  end.

Definition is_log (e : Effect) : bool :=
  match e with
  | LogError _ => true
  | _ => false
  end.

(** Whether data were dropped, which the log line tells. *)
Definition dropped (effects : list Effect) : bool := existsb is_log effects.

(** The queue of the standard input is in order when it holds no empty
    string and the index is inside the string in front, or 0 when there is
    none. *)
Definition queue_ok (queue : list String) (index : Z) : Prop :=
  Forall (fun buffer => 0 < size buffer) queue
  /\ match queue with
     | [] => index = 0
     | front :: _ => 0 <= index < size front
     end.

(** The bytes that the writes on [fd] got rid of, in order. *)
Fixpoint written (fd : Z) (effects : list Effect) : list byte :=
  match effects with
  | [] => []
  | SysWrite fd' data w :: rest =>
      if fd' =? fd then left data w ++ written fd rest else written fd rest
  | _ :: rest => written fd rest
  end.

Definition is_sys_write (e : Effect) : bool :=
  match e with
  | SysWrite _ _ _ => true
  | _ => false
  end.

(** A write on [fd] that returned -1. *)
Definition is_refused_write (fd : Z) (e : Effect) : bool :=
  match e with
  | SysWrite fd' _ w => (fd' =? fd) && (w =? -1)
  | _ => false
  end.

(** Whether [fd] is registered with the event loop for writing after
    [effects], given whether it was before. *)
Fixpoint write_interest (fd : Z) (effects : list Effect) (before : bool)
  : bool :=
  match effects with
  | [] => before
  | RegisterSocket fd' mode :: rest =>
      write_interest fd rest
        (if (fd' =? fd) && (mode =? SocketWrite) then true else before)
  | UnregisterSocket fd' :: rest =>
      write_interest fd rest (if fd' =? fd then false else before)
  | _ :: rest => write_interest fd rest before
  end.

Definition is_empty {A : Type} (l : list A) : bool :=
  match l with
  | [] => true
  | _ :: _ => false
  end.

(** What a drain of the queue of the standard input leaves: buffers were
    popped from the front, the bytes written and the bytes still queued are
    the bytes that were queued, the queue is in order, and [fd] is registered
    for writing exactly when a write returned -1, which is exactly when bytes
    are still queued. *)
Definition drains (fd : Z) (queue : list String) (index : Z)
    (p' : Process) (effects : list Effect) : Prop :=
  (exists n, mStdInBuffer p' = skipn n queue)
  /\ written fd effects
     ++ unread (concat (mStdInBuffer p')) (mStdInIndex p')
     = unread (concat queue) index
  /\ queue_ok (mStdInBuffer p') (mStdInIndex p')
  /\ (forall before,
        write_interest fd effects before
        = negb (is_empty (mStdInBuffer p')))
  /\ existsb (is_refused_write fd) effects
     = negb (is_empty (mStdInBuffer p')).

(** The standard input is registered for writing whenever a write returns
    less than it was asked to write (a part, or -1). *)
Definition registers_on_every_short_write : Prop :=
  forall (k : Kernel) (fd : Z) (p : Process) (data : list byte) (w : Z),
    queue_ok (mStdInBuffer p) (mStdInIndex p) ->
    In (SysWrite fd data w) (snd (fst (handleInput k fd p))) ->
    w < size data ->
    write_interest fd (snd (fst (handleInput k fd p))) false = true.

(** Effects of the calls that [finish] makes with the mutex held: none of
    them touches the mutex or emits [finished]. *)
Definition quiet (e : Effect) : Prop :=
  e <> Lock /\ e <> Unlock /\ e <> Emit FinishedSignal.

(** What closing the descriptor [fd] is, for the specification: the
    descriptor is taken from the event loop and [close] is called on it;
    there is nothing to do for -1, which stands for a descriptor that is
    closed. *)
Definition closing (fd : Z) : list Effect :=
  if fd =? -1 then [] else [UnregisterSocket fd; SysClose fd].

(** The buffer, with its read index, is within its bounds, the reads are
    of at most [BufSize] bytes each, and the bytes that they give up to the
    end of file fit the buffer next to those that are not read yet. *)
Definition room_for (buffer : String) (index : Z) (reads : list (list byte))
  : Prop :=
  size buffer <= MaxSize
  /\ 0 <= index <= size buffer
  /\ Forall (fun buf => size buf <= BufSize) reads
  /\ size (unread buffer index) + size (taken reads) <= MaxSize.

(** The command that a spawn runs according to the specification: a command
    that begins with ['/'] as it is, any other as the first entry of [PATH]
    whose resolved real path can be read and executed gives it; [None] when
    no entry qualifies. *)
Definition qualifies (env : Env) (command : String) (dir : String) : bool :=
  fst (resolved env command dir) && access_rx env (snd (resolved env command dir)).

Definition path_entries (env : Env) : list String :=
  match env_PATH env with
  | None => []
  | Some path => split ":"%byte path
  end.

Definition begins_with_slash (command : String) : bool :=
  match command with
  | ch :: _ => Byte.eqb ch "/"%byte
  | [] => false
  end.

Definition spec_command (env : Env) (command : String) : option String :=
  if begins_with_slash command then Some command
  else match find (qualifies env command) (path_entries env) with
       | Some dir => Some (snd (resolved env command dir))
       | None => None
       end.

Definition command_or_none (cmd : option String) : String :=
  match cmd with
  | Some path => path
  | None => []
  end.

(** Every command is resolved as [spec_command] says. *)
Definition resolves_as_specified : Prop :=
  forall (env : Env) (command : String),
    access_rx env [] = false ->
    findCommand env command = command_or_none (spec_command env command).

End Stdio.

(** ** Sample inputs *)

Module Samples.
Import Process.

(** A frame of 6 bytes: the id 7 and the body [HELLO]. *)
Definition hello : list byte :=
  ["006"; x00; x00; x00; "007"; "H"; "E"; "L"; "L"; "O"]%byte.

Definition hello_client : Connection.SocketClient :=
  Connection.mkSocketClient true hello [] false.

Definition abcd : String := ["a"; "b"; "c"; "d"]%byte.

(** A frame of [2^31] bytes: the header [00 00 00 80] and a payload of as
    many zero bytes, all of it received by the socket. *)
Definition long_payload : list byte := repeat x00 (Z.to_nat (2 ^ 31)).

Definition long_frame_client : Connection.SocketClient :=
  Connection.mkSocketClient true ([x00; x00; x00; x80] ++ long_payload) []
    false.

(** [2^32] zero bytes, that is, empty frames, received by the socket. *)
Definition full_queue : list byte := repeat x00 (Z.to_nat (2 ^ 32)).

Definition full_queue_client : Connection.SocketClient :=
  Connection.mkSocketClient true full_queue [] false.

(** A pipe that takes two bytes at each of the next two writes. *)
Definition two_rooms : Kernel :=
  mkKernel (fun _ => []) (fun _ => [2; 2]).

(** A process whose standard input is open on the descriptor 5. *)
Definition writer : Process :=
  set_stdin_queue [abcd] 0 (set_mStdIn (4, 5) Process_new).

(** A [PATH] of [/bin], in which every path resolves and every path that is
    not empty can be read and executed. *)
Definition bin_env : Env :=
  mkEnv (Some (list_byte_of_string "/bin"))
    (fun command dir => (true, dir ++ ["/"%byte] ++ command))
    (fun path => negb (Stdio.is_empty path)).

Definition no_pipes : Pipes := mkPipes (3, 4) (5, 6) (7, 8) (9, 10).

Definition idle_kernel : Kernel := mkKernel (fun _ => []) (fun _ => []).

Definition bin_true : String := list_byte_of_string "/bin/true".

Definition ls : String := ["l"; "s"]%byte.

(** A process is started, and started again while its child runs; the
    second fork fails. *)
Definition start_twice : list Op :=
  [OpStart 0%nat bin_env no_pipes 5 bin_true;
   OpStart 0%nat bin_env no_pipes (-1) bin_true].

(** A process is started, its child exits with the code 3 and the
    supervisor collects it. *)
Definition start_and_reap : list Op :=
  [OpStart 0%nat bin_env no_pipes 5 bin_true;
   OpChildTerminates 5 768;
   OpSupervisor].

(** A registry of two children, of which the first has exited with the
    code 3 and the second runs. *)
Definition two_entries : Registry := [(5, 0%nat); (6, 1%nat)].

Definition one_terminated : Children :=
  fun pid => if pid =? 5 then Some (Terminated 768)
             else if pid =? 6 then Some Running else None.

End Samples.

(** * The rest of the code *)

(** ** The receiving and the sending side of a connection together *)

Module Wire.
Import Connection.

(** Modelled from the spec: the transport hands the bytes over in the order
    in which they were sent; the socket client adds what arrives to its
    buffer and then signals [readyRead], which the constructors of
    [Connection] connect to [onDataAvailable]. *)
Definition arrive (bytes : list byte) (c : Connection) : Connection :=
  mkConnection
    (mkSocketClient (sc_connected (mSocketClient c))
       (sc_buffer (mSocketClient c) ++ bytes)
       (sc_sent (mSocketClient c)) (sc_failed (mSocketClient c)))
    (mBuffers c) (mPendingRead c) (mPendingWrite c).

Section Receiving.

Variable FinishId : byte.
Variable registered : byte -> bool.

(** [Connection::checkData], which the constructor posts to the event
    loop. *)
Definition checkData (c : Connection) : outcome (Connection * list Effect) :=
  if negb (size (sc_buffer (mSocketClient c)) =? 0)
  then onDataAvailable FinishId registered c
  else Ok (c, []).

(** The bytes arrive in pieces, and [onDataAvailable] runs after each
    piece. *)
Fixpoint receive (chunks : list (list byte)) (c : Connection)
  : outcome (Connection * list Effect) :=
  match chunks with
  | [] => Ok (c, [])
  | chunk :: rest =>
      match onDataAvailable FinishId registered (arrive chunk c) with
      | Ok (c', effects) =>
          match receive rest c' with
          | Ok (c'', effects') => Ok (c'', effects ++ effects')
          | Undefined => Undefined
          | OutOfFuel => OutOfFuel
          end
      | Undefined => Undefined
      | OutOfFuel => OutOfFuel
      end
  end.

(** What the receiver is to signal for a message that was sent. *)
Definition signal_of (m : byte * String) : Signal :=
  if Byte.eqb (fst m) FinishId then Finished
  else NewMessage (mkMessage (fst m) (snd m)).

End Receiving.

(** [sendData] for one message after the other. *)
Definition send_all (msgs : list (byte * String)) (c : Connection)
  : Connection :=
  fold_left (fun c m => snd (fst (sendData (fst m) (snd m) c))) msgs c.

(** The frame of a message on the wire: the header, the id, the body. *)
Definition frame (m : byte * String) : list byte :=
  le32_encode (1 + size (snd m)) ++ fst m :: snd m.

End Wire.

(** ** The log stream *)

Module Log.

(** [isspace] in the C locale. *)
Definition isspace (ch : byte) : bool :=
  ((9 <=? byte_val ch) && (byte_val ch <=? 13)) || (byte_val ch =? 32).

(** [Log::Data], without [level] and [flags], which only its destructor
    reads.  [out] is the string that is written to: [*outPtr] when there is
    one, the member [out] otherwise. *)
Record Data : Type := mkData {
  out : String;
  spacing : bool;
  disableSpacingOverride : Z
}.

(** A [Log] shares its [mData], which can be null. *)
Definition Log : Type := option Data.

(** [Log::write(data, len)], on the [len] bytes at [data]. *)
Definition write (data : String) (l : Log) : Log :=
  match l with
  | None => l
  | Some d =>
      if size data =? 0 then l
      else
        let str := out d in
        let outLength := size str in
        if negb (disableSpacingOverride d =? 0) then
          Some (mkData (str ++ data) (spacing d)
                  (disableSpacingOverride d - 1))
        else if spacing d && negb (outLength =? 0)
                && negb (isspace (last str x00))
                && negb (isspace (hd x00 data)) then
          Some (mkData (str ++ [" "%byte] ++ data) (spacing d)
                  (disableSpacingOverride d))
        else
          Some (mkData (str ++ data) (spacing d) (disableSpacingOverride d))
  end.

(** [Log::disableNextSpacing] *)
Definition disableNextSpacing (l : Log) : Log :=
  match l with
  | None => l
  | Some d =>
      Some (mkData (out d) (spacing d) (disableSpacingOverride d + 1))
  end.

(** [Log::setSpacing]: the value returned and the stream. *)
Definition setSpacing (on : bool) (l : Log) : bool * Log :=
  match l with
  | None => (false, l)
  | Some d => (spacing d, Some (mkData (out d) on (disableSpacingOverride d)))
  end.

Definition comma : String := [","; " "]%byte.
Definition colon : String := [":"; " "]%byte.
Definition opened : String := [">"; "("]%byte.
Definition closed : String := [")"]%byte.

Section Sequences.

(** The elements, [stream << *it] for an element, and [typeName<T>()]. *)
Variable T : Type.
Variable print : T -> Log -> Log.
Variable typeName : String.

(** The [for] loop of [operator<<(Log, const List<T> &)]; the one of
    [operator<<(Log, const Set<T> &)] is the same. *)
Fixpoint print_items (items : list T) (first old : bool) (stream : Log)
  : bool * Log :=
  match items with
  | [] => (old, stream)
  | it :: rest =>
      let stream :=
        if first then disableNextSpacing stream else write comma stream in
      let stream := snd (setSpacing old stream) in
      let stream := print it stream in
      let '(old, stream) := setSpacing false stream in
      print_items rest false old stream
  end.

(** [operator<<(Log, const List<T> &)] with [name] for ["List<"], and
    [operator<<(Log, const Set<T> &)] with ["Set<"]. *)
Definition print_sequence (name : String) (items : list T) (stream : Log)
  : Log :=
  let stream := write name stream in
  let '(old, stream) := setSpacing false stream in
  let stream := write opened (write typeName stream) in
  let '(old, stream) := print_items items true old stream in
  let stream := write closed stream in
  snd (setSpacing old stream).

End Sequences.

Definition print_List (T : Type) (print : T -> Log -> Log)
    (typeName : String) : list T -> Log -> Log :=
  print_sequence T print typeName (list_byte_of_string "List<").

Definition print_Set (T : Type) (print : T -> Log -> Log)
    (typeName : String) : list T -> Log -> Log :=
  print_sequence T print typeName (list_byte_of_string "Set<").

Section Maps.

Variables Key Value : Type.
Variable printKey : Key -> Log -> Log.
Variable printValue : Value -> Log -> Log.
Variables typeNameKey typeNameValue : String.

(** The [for] loop of [operator<<(Log, const Map<Key, Value> &)]; the one
    for [Hash<Key, Value>] is the same. *)
Fixpoint print_entries (entries : list (Key * Value)) (first old : bool)
    (stream : Log) : bool * Log :=
  match entries with
  | [] => (old, stream)
  | (key, value) :: rest =>
      let stream :=
        if first then disableNextSpacing stream else write comma stream in
      let stream := snd (setSpacing old stream) in
      let stream := printKey key stream in
      let '(old, stream) := setSpacing false stream in
      let stream := write colon stream in
      let stream := snd (setSpacing old stream) in
      let stream := printValue value stream in
      let '(old, stream) := setSpacing false stream in
      print_entries rest false old stream
  end.

(** [operator<<(Log, const Map<Key, Value> &)] with [name] for ["Map<"],
    and the one for [Hash<Key, Value>] with ["Hash<"]. *)
Definition print_mapping (name : String) (entries : list (Key * Value))
    (stream : Log) : Log :=
  let stream := write name stream in
  let '(old, stream) := setSpacing false stream in
  let stream :=
    write opened
      (write typeNameValue (write comma (write typeNameKey stream))) in
  let '(old, stream) := print_entries entries true old stream in
  let stream := write closed stream in
  snd (setSpacing old stream).

End Maps.

(** [stream << a << b << ...] for byte strings: [operator<<(Log, const
    String &)] writes the bytes of the string. *)
Definition write_all (pieces : list String) (l : Log) : Log :=
  fold_left (fun l piece => write piece l) pieces l.

(** The count of [disableSpacingOverride] after [data] was written with
    the count at [k]. *)
Definition spent (k : Z) (data : String) : Z :=
  if (size data =? 0) || (k =? 0) then k else k - 1.

(** The pieces with [sep] between them. *)
Definition join (sep : String) (pieces : list String) : String :=
  match pieces with
  | [] => []
  | piece :: rest => piece ++ concat (map (fun s => sep ++ s) rest)
  end.

(** A word: it is not empty and neither begins nor ends with a space. *)
Definition word (s : String) : Prop :=
  s <> [] /\ isspace (hd x00 s) = false /\ isspace (last s x00) = false.

(** What was written so far. *)
Definition text (l : Log) : String :=
  match l with
  | None => []
  | Some d => out d
  end.

End Log.

(** ** The life of a process object *)

Module Lifecycle.
Import Process.

(** [Process::~Process].  The assertion that [mPid] is -1 is made with
    [mMutex] held. *)
Definition Process_destructor (k : Kernel) (p : Process)
  : Process * list Effect * Kernel :=
  let '(p, e_in, k) :=
    if negb (fst (mStdIn p) =? -1)
    then handleInput k (snd (mStdIn p)) p
    else (p, [], k) in
  let '(p, e1) := closeStdIn p in
  let '(p, e2) := closeStdOut p in
  let '(p, e3) := closeStdErr p in
  (p,
   [Lock; Unlock] ++ e_in ++ e1 ++ e2 ++ e3
   ++ (if negb (fst (mSync p) =? -1) then [SysClose (fst (mSync p))] else [])
   ++ (if negb (snd (mSync p) =? -1) then [SysClose (snd (mSync p))] else []),
   k).

(** What the owner of a process object and the event loop do to it between
    its start and its end. *)
Inductive Call : Type :=
| CallWrite (data : String)
| CallCallback (fd mode : Z)
| CallReadAllStdOut
| CallReadAllStdErr
| CallCloseStdIn
| CallCloseStdOut
| CallCloseStdErr
| CallStop.

Definition call (k : Kernel) (c : Call) (p : Process)
  : Process * list Effect * Kernel :=
  match c with
  | CallWrite data => write k data p
  | CallCallback fd mode => processCallback k fd mode p
  | CallReadAllStdOut => (snd (readAllStdOut p), [], k)
  | CallReadAllStdErr => (snd (readAllStdErr p), [], k)
  | CallCloseStdIn => let '(p, e) := closeStdIn p in (p, e, k)
  | CallCloseStdOut => let '(p, e) := closeStdOut p in (p, e, k)
  | CallCloseStdErr => let '(p, e) := closeStdErr p in (p, e, k)
  | CallStop => (p, stop p, k)
  end.

Fixpoint calls (k : Kernel) (cs : list Call) (p : Process)
  : Process * list Effect * Kernel :=
  match cs with
  | [] => (p, [], k)
  | c :: rest =>
      let '(p, e, k) := call k c p in
      let '(p, e', k) := calls k rest p in
      (p, e ++ e', k)
  end.

(** A call that leaves the standard input open, and the bytes that a call
    hands to [write]. *)
Definition keeps_stdin (c : Call) : bool :=
  match c with
  | CallCloseStdIn => false
  | _ => true
  end.

Definition data_of (c : Call) : String :=
  match c with
  | CallWrite data => data
  | _ => []
  end.

(** The descriptors closed, in order. *)
Fixpoint closes (effects : list Effect) : list Z :=
  match effects with
  | [] => []
  | SysClose fd :: rest => fd :: closes rest
  | _ :: rest => closes rest
  end.

(** The signals emitted, in order. *)
Fixpoint emitted (effects : list Effect) : list Signal :=
  match effects with
  | [] => []
  | Emit s :: rest => s :: emitted rest
  | _ :: rest => emitted rest
  end.

(** How often [finished] is emitted. *)
Definition is_finished (s : Signal) : bool :=
  match s with
  | FinishedSignal => true
  | _ => false
  end.

Definition times_finished (effects : list Effect) : nat :=
  length (filter is_finished (emitted effects)).

(** The descriptors unregistered from the event loop, in order. *)
Fixpoint unregistered (effects : list Effect) : list Z :=
  match effects with
  | [] => []
  | UnregisterSocket fd :: rest => fd :: unregistered rest
  | _ :: rest => unregistered rest
  end.

(** The ends of its pipes that the object holds open. *)
Definition open_ends (p : Process) : list Z :=
  (if snd (mStdIn p) =? -1 then [] else [snd (mStdIn p)])
  ++ (if fst (mStdOut p) =? -1 then [] else [fst (mStdOut p)])
  ++ (if fst (mStdErr p) =? -1 then [] else [fst (mStdErr p)]).

(** The six ends of the pipes of the standard streams of the child. *)
Definition pipe_ends (p : Process) : list Z :=
  [fst (mStdIn p); snd (mStdIn p); fst (mStdOut p); snd (mStdOut p);
   fst (mStdErr p); snd (mStdErr p)].

(** The six ends of the pipes that [startInternal] makes for the standard
    streams. *)
Definition ends_of (fds : Pipes) : list Z :=
  [fst (pipe_in fds); snd (pipe_in fds); fst (pipe_out fds);
   snd (pipe_out fds); fst (pipe_err fds); snd (pipe_err fds)].

(** How often a descriptor is among those closed. *)
Definition times_closed (fd : Z) (effects : list Effect) : nat :=
  count_occ Z.eq_dec (closes effects) fd.

(** The reads that are left once the end of file was read. *)
Fixpoint after_eof (reads : list (list byte)) : list (list byte) :=
  match reads with
  | [] => []
  | buf :: rest => if size buf =? 0 then rest else after_eof rest
  end.

(** Whether one of the reads is the end of file. *)
Definition reaches_eof (reads : list (list byte)) : bool :=
  existsb (fun buf => size buf =? 0) reads.

(** ** The child of the fork *)

(** The system calls of the child, in order. *)
Inductive Syscall : Type :=
| Close (fd : Z)
| Dup2 (oldfd newfd : Z)
| Chdir (path : String)
| Execve (path : String) (argv envp : list String)
| Execv (path : String) (argv : list String)
| Exit (status : Z).

Definition STDIN_FILENO : Z := 0.
Definition STDOUT_FILENO : Z := 1.
Definition STDERR_FILENO : Z := 2.

(** The branch [mPid == 0] of [Process::startInternal]: [args] is the
    command followed by the arguments, and [_exit(1)] is reached when the
    [exec] call returns. *)
Definition startInternal_child (p : Process) (mCwd : String) (cmd : String)
    (arguments environ : list String) : list Syscall :=
  [ Close (snd (mStdIn p)); Close (fst (mStdOut p)); Close (fst (mStdErr p));
    Close STDIN_FILENO; Close STDOUT_FILENO; Close STDERR_FILENO;
    Dup2 (fst (mStdIn p)) STDIN_FILENO; Close (fst (mStdIn p));
    Dup2 (snd (mStdOut p)) STDOUT_FILENO; Close (snd (mStdOut p));
    Dup2 (snd (mStdErr p)) STDERR_FILENO; Close (snd (mStdErr p)) ]
  ++ (if negb (size mCwd =? 0) then [Chdir mCwd] else [])
  ++ [ if negb (size environ =? 0)
       then Execve cmd (cmd :: arguments) environ
       else Execv cmd (cmd :: arguments);
       Exit 1 ].

(** The descriptor table of a process image: what each descriptor refers
    to, if it is open. *)
Definition Descriptors : Type := Z -> option nat.

(** [close] and [dup2] on the table: [close] of a descriptor that is not
    open fails and changes nothing, and so does [dup2] from one; [dup2] of a
    descriptor onto itself does nothing. *)
Definition sys_call (t : Descriptors) (c : Syscall) : Descriptors :=
  match c with
  | Close fd => upd t fd None
  | Dup2 oldfd newfd =>
      match t oldfd with
      | None => t
      | Some file => upd t newfd (Some file)
      end
  | _ => t
  end.

Definition sys_calls (t : Descriptors) (cs : list Syscall) : Descriptors :=
  fold_left sys_call cs t.

(** ** The synchronous mode *)

(** One turn of the [for (;;)] loop of [Process::startInternal] as the
    world makes it: whether the supervisor thread calls [finish], and with
    which code, while this thread sits in [select]; what [select] returns and
    the text for [errno]; the descriptors it reports; and the milliseconds
    since the start that [gettime] shows at the end of the turn. *)
Record Turn : Type := mkTurn {
  t_finish : option Z;
  t_select : Z;
  t_strerror : string;
  t_stdout : bool;
  t_stderr : bool;
  t_stdin : bool;
  t_sync : bool;
  t_lasted : Z
}.

(** How the loop ends: it returns a state; or, [timeout] being negative,
    [selecttime] is null where the loop asserts it and hands it to
    [gettime]; or it sits in [select]. *)
Inductive Ended : Type :=
| Returns (state : ExecState)
| NullTime
| InSelect.

(** What a turn of the loop does with the descriptors that [select]
    reports, before it looks at the sync pipe. *)
Definition turn_handlers (t : Turn) (k : Kernel) (p : Process)
  : Process * list Effect * Kernel :=
  let '(p, e1, k) := if t_stdout t then handleStdOut k p else (p, [], k) in
  let '(p, e2, k) := if t_stderr t then handleStdErr k p else (p, [], k) in
  let '(p, e3, k) :=
    if negb (snd (mStdIn p) =? -1) && t_stdin t
    then handleInput k (snd (mStdIn p)) p
    else (p, [], k) in
  (p, e1 ++ e2 ++ e3, k).

(** What it does when the sync pipe is reported: the block with [mMutex]
    held, and [mFinished]. *)
Definition turn_done (k : Kernel) (p : Process)
  : Process * list Effect * Kernel :=
  let '(p, e1, k) := handleStdOut k p in
  let '(p, e2, k) := handleStdErr k p in
  let '(p, e3) := closeStdOut p in
  let '(p, e4) := closeStdErr p in
  (set_mSync (-1, snd (mSync p)) p,
   [Lock] ++ e1 ++ e2 ++ e3 ++ e4 ++ [SysClose (fst (mSync p))]
   ++ [Unlock; Emit FinishedSignal],
   k).

(** The [for (;;)] loop of the synchronous mode. *)
Fixpoint select_loop (turns : list Turn) (timeout : Z) (k : Kernel)
    (p : Process) : Process * list Effect * Kernel * Ended :=
  match turns with
  | [] => (p, [], k, InSelect)
  | t :: rest =>
      let '(p, e0, k) :=
        match t_finish t with
        | Some code => finish k code p
        | None => (p, [], k)
        end in
      if t_select t =? -1 then
        (set_mErrorString
           (String.append "Sync select failed: " (t_strerror t)) p,
         e0, k, Returns Error)
      else
        let '(p, e1, k) := turn_handlers t k p in
        if t_sync t then
          let '(p, e2, k) := turn_done k p in
          (p, e0 ++ e1 ++ e2, k, Returns Done)
        else if negb (timeout =? 0) then
          if timeout <? 0 then (p, e0 ++ e1, k, NullTime)
          else if timeout <=? t_lasted t then
            (p, e0 ++ e1 ++ stop p, k, Returns TimedOut)
          else
            let '(p, e, k, r) := select_loop rest timeout k p in
            (p, e0 ++ e1 ++ e, k, r)
        else
          let '(p, e, k, r) := select_loop rest timeout k p in
          (p, e0 ++ e1 ++ e, k, r)
  end.

(** [select] reports the read end of the sync pipe only when a byte was
    written to it or its write end was closed, which only [finish] does. *)
Fixpoint sync_after_finish (finished : bool) (turns : list Turn) : Prop :=
  match turns with
  | [] => True
  | t :: rest =>
      let finished :=
        match t_finish t with
        | Some _ => true
        | None => finished
        end in
      (t_sync t = true -> finished = true)
      /\ sync_after_finish finished rest
  end.

(** The supervisor thread calls [finish] on a process once. *)
Fixpoint finished_once (finished : bool) (turns : list Turn) : Prop :=
  match turns with
  | [] => True
  | t :: rest =>
      match t_finish t with
      | Some _ => finished = false /\ finished_once true rest
      | None => finished_once finished rest
      end
  end.

End Lifecycle.

(** ** The mutex of the registry *)

Module Locking.
Import Process.

(** Whether [sProcessMutex] is held after the actions, when they keep to
    this: the mutex is locked only when it is free and unlocked only when it
    is held, [waitpid] and the erasing of an entry are done with it held, and
    [finish] is called with it free.  [None] when they do not. *)
Fixpoint held_after (held : bool) (actions : list Action) : option bool :=
  match actions with
  | [] => Some held
  | LockRegistry :: rest => if held then None else held_after true rest
  | UnlockRegistry :: rest => if held then held_after false rest else None
  | Waitpid _ _ :: rest => if held then held_after held rest else None
  | Erase _ :: rest => if held then held_after held rest else None
  | Finish _ _ :: rest => if held then None else held_after held rest
  end.

(** The calls of [finish] among the actions, in order. *)
Fixpoint finish_actions (actions : list Action) : list (ProcPtr * Z) :=
  match actions with
  | [] => []
  | Finish process ret :: rest => (process, ret) :: finish_actions rest
  | _ :: rest => finish_actions rest
  end.

(** The calls of [finish] that are due: one for every entry whose child has
    terminated, with the code of its status. *)
Fixpoint due (reg : Registry) (c : Children) : list (ProcPtr * Z) :=
  match reg with
  | [] => []
  | (pid, process) :: rest =>
      match c pid with
      | Some (Terminated status) =>
          (process, Supervisor.exit_code status) :: due rest c
      | _ => due rest c
      end
  end.

(** The registry has the children that the kernel has. *)
Definition registry_is_children (s : System) : Prop :=
  Supervisor.registry_ok (sProcesses s)
  /\ forall pid,
       children s pid <> None <-> exists q, In (pid, q) (sProcesses s).

End Locking.

(** ** More sample inputs *)

Module MoreSamples.
Import Process Lifecycle.

(** A process object with the three pipes of its child on the descriptors
    3 to 8. *)
Definition piped : Process :=
  set_mStdErr (7, 8) (set_mStdOut (5, 6) (set_mStdIn (3, 4) Process_new)).

(** A descriptor table in which the descriptors 0 to 8 are open, each on a
    file of its own. *)
Definition table : Descriptors :=
  fun fd => if (0 <=? fd) && (fd <=? 8) then Some (Z.to_nat fd) else None.

(** Two turns of the loop of the synchronous mode: in the first the
    standard output can be read; during the second the supervisor thread
    calls [finish] with the code 0, and [select] reports the sync pipe. *)
Definition two_turns : list Turn :=
  [ mkTurn None 1 EmptyString true false false false 5;
    mkTurn (Some 0) 1 EmptyString false false false true 10 ].

(** A kernel in which the reads on the descriptor 5 give [abcd], then
    [ls], and then nothing more for now. *)
Definition talking : Kernel :=
  mkKernel (fun fd => if fd =? 5 then [Samples.abcd; Samples.ls] else [])
    (fun _ => []).

(** A list of three strings. *)
Definition three : list String :=
  [Samples.abcd; Samples.ls; Samples.abcd].

End MoreSamples.

(** * Facts *)

(** ** Lists and integers *)

Module ListFacts.

Lemma size_app {A} (l1 l2 : list A) : size (l1 ++ l2) = size l1 + size l2.
Proof. unfold size. rewrite length_app. lia. Qed.

Lemma size_nonneg {A} (l : list A) : 0 <= size l.
Proof. unfold size. lia. Qed.

Lemma left_app_size {A} (l1 l2 : list A) n :
  n = size l1 -> left (l1 ++ l2) n = l1.
Proof.
  intros ->. unfold left, size. rewrite Nat2Z.id.
  rewrite firstn_app, Nat.sub_diag, firstn_all. simpl. apply app_nil_r.
Qed.

Lemma mid_app_size {A} (l1 l2 : list A) n :
  n = size l1 -> mid (l1 ++ l2) n = l2.
Proof.
  intros ->. unfold mid, size. rewrite Nat2Z.id.
  rewrite skipn_app, Nat.sub_diag, skipn_all. reflexivity.
Qed.

Lemma left_mid {A} (l : list A) n : left l n ++ mid l n = l.
Proof. apply firstn_skipn. Qed.

Lemma left_left {A} (l : list A) n : left (left l n) n = left l n.
Proof. unfold left. rewrite firstn_firstn, Nat.min_id. reflexivity. Qed.

Lemma size_left {A} (l : list A) n :
  0 <= n <= size l -> size (left l n) = n.
Proof.
  unfold size, left. intros H. rewrite length_firstn. lia.
Qed.

Lemma size_mid {A} (l : list A) n :
  0 <= n <= size l -> size (mid l n) = size l - n.
Proof.
  unfold size, mid. intros H. rewrite length_skipn. lia.
Qed.


Lemma left_all {A} (l : list A) n : size l <= n -> left l n = l.
Proof. unfold left, size. intros H. apply firstn_all2. lia. Qed.

Lemma mid_app_l {A} (l1 l2 : list A) n :
  0 <= n <= size l1 -> mid (l1 ++ l2) n = mid l1 n ++ l2.
Proof.
  unfold mid, size. intros H. rewrite skipn_app.
  replace (Z.to_nat n - length l1)%nat with 0%nat by lia. reflexivity.
Qed.

Lemma mid_zero {A} (l : list A) : mid l 0 = l.
Proof. reflexivity. Qed.

Lemma left_mid_step {A} (l : list A) i w :
  0 <= i -> 0 <= w -> left (mid l i) w ++ mid l (i + w) = mid l i.
Proof.
  intros Hi Hw. unfold left, mid.
  rewrite Z2Nat.inj_add by lia. rewrite Nat.add_comm, <- skipn_skipn.
  apply firstn_skipn.
Qed.

Lemma filter_filter {A} (f g : A -> bool) (l : list A) :
  filter f (filter g l) = filter (fun x => g x && f x) l.
Proof.
  induction l as [|x l IH]; simpl; [reflexivity|].
  destruct (g x); simpl; [destruct (f x)|]; rewrite IH; reflexivity.
Qed.

Lemma flat_map_ext_in {A B} (f g : A -> list B) (l : list A) :
  (forall x, In x l -> f x = g x) -> flat_map f l = flat_map g l.
Proof.
  induction l as [|x l IH]; intros H; simpl; [reflexivity|].
  rewrite (H x) by (left; reflexivity). f_equal.
  apply IH. intros y Hy. apply H. right. exact Hy.
Qed.

Lemma byte_val_range (b : byte) : 0 <= byte_val b < 256.
Proof.
  unfold byte_val. pose proof (Byte.to_N_bounded b). lia.
Qed.

Lemma le_decode_range (bs : list byte) :
  0 <= le_decode bs < 256 ^ size bs.
Proof.
  induction bs as [|b bs IH].
  - simpl. unfold size. simpl. lia.
  - cbn [le_decode]. pose proof (byte_val_range b).
    replace (size (b :: bs)) with (Z.succ (size bs)) by (unfold size; simpl; lia).
    rewrite Z.pow_succ_r by apply size_nonneg. lia.
Qed.

Lemma to_int32_range (z : Z) : int32_range (to_int32 z).
Proof.
  unfold int32_range, to_int32.
  pose proof (Z.mod_pos_bound (z + 2 ^ 31) (2 ^ 32)). lia.
Qed.

Lemma to_uint32_to_int32 (z : Z) : to_uint32 (to_int32 z) = to_uint32 z.
Proof.
  unfold to_uint32, to_int32.
  rewrite Zminus_mod_idemp_l. f_equal. lia.
Qed.

Lemma to_uint32_small (z : Z) : 0 <= z < 2 ^ 32 -> to_uint32 z = z.
Proof. intros H. unfold to_uint32. apply Z.mod_small. lia. Qed.

Lemma to_int32_zero (z : Z) : 0 <= z < 2 ^ 32 -> to_int32 z = 0 -> z = 0.
Proof.
  intros H E. pose proof (to_uint32_to_int32 z) as U. rewrite E in U.
  rewrite (to_uint32_small z) in U by lia.
  assert (Z0 : to_uint32 0 = 0) by reflexivity. lia.
Qed.

Lemma to_uint32_int32 (z : Z) :
  int32_range z ->
  to_uint32 z = if z <? 0 then z + 2 ^ 32 else z.
Proof.
  unfold int32_range, to_uint32. intros H.
  destruct (z <? 0) eqn:E.
  - apply Z.ltb_lt in E. symmetry.
    apply (Z.mod_unique z (2 ^ 32) (-1) (z + 2 ^ 32)); lia.
  - apply Z.ltb_ge in E. apply Z.mod_small. lia.
Qed.

Lemma to_uint32_nonzero (z : Z) :
  int32_range z -> z <> 0 -> 0 < to_uint32 z < 2 ^ 32.
Proof.
  intros H Hz. rewrite to_uint32_int32 by assumption.
  unfold int32_range in H. destruct (z <? 0) eqn:E.
  - apply Z.ltb_lt in E. lia.
  - apply Z.ltb_ge in E. lia.
Qed.

Lemma to_uint32_below (z : Z) :
  int32_range z -> to_uint32 z < 2 ^ 31 -> 0 <= z /\ to_uint32 z = z.
Proof.
  intros H. rewrite to_uint32_int32 by assumption.
  unfold int32_range in H. destruct (z <? 0) eqn:E.
  - apply Z.ltb_lt in E. lia.
  - apply Z.ltb_ge in E. lia.
Qed.


Lemma to_int32_small (z : Z) : int32_range z -> to_int32 z = z.
Proof.
  unfold int32_range, to_int32. intros H.
  rewrite Z.mod_small by lia. lia.
Qed.

Lemma to_int32_add_l (a b : Z) : to_int32 (to_int32 a + b) = to_int32 (a + b).
Proof.
  unfold to_int32. f_equal.
  replace ((a + 2 ^ 31) mod 2 ^ 32 - 2 ^ 31 + b + 2 ^ 31)
    with ((a + 2 ^ 31) mod 2 ^ 32 + b) by lia.
  rewrite Zplus_mod_idemp_l. f_equal. lia.
Qed.

End ListFacts.

(** ** The framer *)

Module FramingFacts.
Import Connection Framer ListFacts.

Lemma bufferSize_fold (buffers : list Buffer) (acc : Z) :
  fold_left (fun sz buffer => to_uint32 (sz + size buffer)) buffers
    (to_uint32 acc)
  = to_uint32 (acc + size (concat buffers)).
Proof.
  revert acc. induction buffers as [|b bs IH]; intros acc; simpl.
  - f_equal. unfold size. simpl. lia.
  - replace (to_uint32 (to_uint32 acc + size b)) with (to_uint32 (acc + size b)).
    + rewrite IH. f_equal. rewrite size_app. lia.
    + unfold to_uint32. rewrite Zplus_mod_idemp_l. reflexivity.
Qed.

Lemma bufferSize_concat (buffers : list Buffer) :
  size (concat buffers) < 2 ^ 32 ->
  bufferSize buffers = size (concat buffers).
Proof.
  intros H. unfold bufferSize.
  change 0 with (to_uint32 0) at 1. rewrite bufferSize_fold.
  unfold to_uint32. simpl. apply Z.mod_small.
  pose proof (size_nonneg (concat buffers)). lia.
Qed.

Lemma bufferSize_mod (buffers : list Buffer) :
  bufferSize buffers = to_uint32 (size (concat buffers)).
Proof.
  unfold bufferSize. change 0 with (to_uint32 0) at 1.
  rewrite bufferSize_fold. reflexivity.
Qed.

Lemma bufferRead_loop_spec (buffers : list Buffer) :
  forall out num rem sz,
    0 < rem <= size (concat buffers) ->
    exists buffers',
      bufferRead_loop buffers out num rem sz
      = (buffers', out ++ left (concat buffers) rem, sz)
      /\ concat buffers' = mid (concat buffers) rem.
Proof.
  induction buffers as [|it rest IH]; intros out num rem sz Hrem.
  - unfold size in Hrem. simpl in Hrem. lia.
  - simpl concat in *. rewrite size_app in Hrem.
    pose proof (size_nonneg it) as Hit.
    cbn [bufferRead_loop].
    destruct (Z.min (size it) rem =? size it) eqn:Hcur.
    + apply Z.eqb_eq in Hcur. rewrite Hcur.
      assert (Hle : size it <= rem) by lia.
      assert (Hleft : left it (size it) = it).
      { rewrite <- (app_nil_r it) at 1. apply left_app_size. reflexivity. }
      rewrite Hleft.
      destruct (rem - size it =? 0) eqn:Hz.
      * apply Z.eqb_eq in Hz. assert (rem = size it) by lia. subst rem.
        exists rest. rewrite left_app_size, mid_app_size by reflexivity. auto.
      * apply Z.eqb_neq in Hz.
        destruct (IH (out ++ it) (num + size it) (rem - size it) sz) as [b' [E1 E2]];
          [lia|].
        exists b'. rewrite E1, E2. split.
        -- f_equal. f_equal. rewrite <- app_assoc. f_equal.
           unfold left, size in *. rewrite firstn_app.
           rewrite (firstn_all2 (n:=Z.to_nat rem) it) by lia.
           f_equal. f_equal. lia.
        -- unfold mid, size in *. rewrite skipn_app.
           rewrite (skipn_all2 (n:=Z.to_nat rem) it) by lia.
           simpl. f_equal. lia.
    + apply Z.eqb_neq in Hcur.
      assert (Hlt : rem < size it) by lia.
      replace (Z.min (size it) rem) with rem by lia.
      exists (mid it rem :: rest). split.
      * f_equal. f_equal. f_equal. unfold left, size in *.
        rewrite firstn_app. replace (Z.to_nat rem - length it)%nat with 0%nat by lia.
        simpl. rewrite app_nil_r. reflexivity.
      * simpl. unfold mid, size in *. rewrite skipn_app.
        replace (Z.to_nat rem - length it)%nat with 0%nat by lia. reflexivity.
Qed.

Lemma bufferRead_spec (buffers : list Buffer) (sz : Z) :
  0 <= sz <= size (concat buffers) ->
  sz < 2 ^ 32 ->
  exists buffers',
    bufferRead buffers sz = (buffers', left (concat buffers) sz, to_int32 sz)
    /\ concat buffers' = mid (concat buffers) sz.
Proof.
  intros H Hsz. unfold bufferRead. rewrite to_uint32_small by lia.
  destruct (sz =? 0) eqn:E.
  - apply Z.eqb_eq in E. subst. exists buffers. split; reflexivity.
  - apply Z.eqb_neq in E.
    destruct (bufferRead_loop_spec buffers [] 0 sz sz) as [b' [E1 E2]]; [lia|].
    exists b'. rewrite E1. auto.
Qed.

Section WithMessages.

Variable FinishId : byte.
Variable registered : byte -> bool.

Abbreviation body := (onDataAvailable_body FinishId registered).
Abbreviation steps := (frame_steps FinishId registered).
Abbreviation stuck := (frame_stuck FinishId registered).

Lemma deliver_create (payload : list byte) :
  match Messages_create registered payload with
  | Some message =>
      if Byte.eqb (messageId message) FinishId
      then [Emit Finished]
      else [Emit (NewMessage message)]
  | None => []
  end = map Emit (deliver FinishId registered payload).
Proof.
  destruct payload as [|id rest]; simpl; [reflexivity|].
  destruct (registered id); simpl; [|reflexivity].
  destruct (Byte.eqb id FinishId); reflexivity.
Qed.

Lemma stuck_header (bytes : list byte) :
  size bytes < 4 -> stuck (AwaitingHeader, bytes).
Proof.
  intros H sigs st' Hstep. inversion Hstep; subst.
  rewrite size_app in H. pose proof (size_nonneg rest). lia.
Qed.

Lemma stuck_body (n : Z) (bytes : list byte) :
  size bytes < n -> stuck (AwaitingBody n, bytes).
Proof.
  intros H sigs st' Hstep. inversion Hstep; subst.
  rewrite size_app in H. pose proof (size_nonneg rest). lia.
Qed.

Lemma steps_one st1 sigs st2 :
  frame_step FinishId registered st1 sigs st2 -> steps st1 sigs st2.
Proof.
  intros H. rewrite <- (app_nil_r sigs).
  eapply steps_cons; [exact H | apply steps_refl].
Qed.

Lemma gather_queued (c : Connection) :
  exists sock buffers,
    (if negb (size (sc_buffer (mSocketClient c)) =? 0)
     then let '(b, sock') := takeBuffer (mSocketClient c) in
          (sock', mBuffers c ++ [b])
     else (mSocketClient c, mBuffers c)) = (sock, buffers)
    /\ concat buffers = queued c /\ sc_buffer sock = [].
Proof.
  unfold queued. destruct (size (sc_buffer (mSocketClient c)) =? 0) eqn:E; simpl.
  - apply Z.eqb_eq in E. unfold size in E.
    assert (Hb : sc_buffer (mSocketClient c) = [])
      by (destruct (sc_buffer (mSocketClient c)); [reflexivity|simpl in E; lia]).
    eexists _, _. split; [reflexivity|]. rewrite Hb, app_nil_r. auto.
  - eexists _, _. split; [reflexivity|]. simpl. split; [|reflexivity].
    rewrite concat_app. simpl. rewrite app_nil_r. reflexivity.
Qed.

Lemma queued_mk sock buffers pr pw :
  sc_buffer sock = [] ->
  queued (mkConnection sock buffers pr pw) = concat buffers.
Proof. intros H. unfold queued. simpl. rewrite H. apply app_nil_r. Qed.

Lemma state_of_mk sock buffers pr pw :
  state_of (mkConnection sock buffers pr pw)
  = if pr =? 0 then AwaitingHeader else AwaitingBody (to_uint32 pr).
Proof. reflexivity. Qed.

Lemma frame_spec sock (buffers : list Buffer) (pr pw : Z) :
  sc_buffer sock = [] ->
  int32_range pr ->
  (to_uint32 pr <= size (concat buffers) -> to_uint32 pr < 2 ^ 31) ->
  exists c' sigs continue,
    (if size (concat buffers) <? to_uint32 pr
     then Ok (mkConnection sock buffers pr pw, [], false)
     else
       let '(buffers', buffer, read) := bufferRead buffers (to_uint32 pr) in
       if (if pr >? 1024 then pr else 1024) <? size buffer
       then Undefined
       else
         Ok (mkConnection sock buffers' 0 pw,
             match Messages_create registered (left buffer read) with
             | Some message =>
                 if Byte.eqb (messageId message) FinishId
                 then [Emit Finished]
                 else [Emit (NewMessage message)]
             | None => []
             end, true))
    = Ok (c', map Emit sigs, continue)
    /\ steps (AwaitingBody (to_uint32 pr), concat buffers) sigs
             (state_of c', queued c')
    /\ int32_range (mPendingRead c')
    /\ mPendingWrite c' = pw
    /\ (continue = true ->
        size (queued c') = size (concat buffers) - to_uint32 pr)
    /\ (continue = false -> stuck (state_of c', queued c')).
Proof.
  intros Hs Hrange Hfit.
  pose proof (size_nonneg (concat buffers)) as Hnn.
  assert (Hu : 0 <= to_uint32 pr)
    by (unfold to_uint32; pose proof (Z.mod_pos_bound pr (2 ^ 32)); lia).
  destruct (size (concat buffers) <? to_uint32 pr) eqn:Hlt.
  - apply Z.ltb_lt in Hlt.
    eexists _, [], false. split; [reflexivity|].
    rewrite queued_mk, state_of_mk by assumption.
    assert (Hnz : (pr =? 0) = false).
    { apply Z.eqb_neq. intros ->. change (to_uint32 0) with 0 in Hlt. lia. }
    rewrite Hnz.
    refine (conj _ (conj _ (conj _ (conj _ _))));
      [apply steps_refl | assumption | reflexivity | discriminate | ].
    intros _. apply stuck_body. assumption.
  - apply Z.ltb_ge in Hlt. specialize (Hfit Hlt).
    destruct (to_uint32_below pr Hrange) as [Hpos Hsame]; [lia|].
    destruct (bufferRead_spec buffers (to_uint32 pr)) as (buffers1 & E1 & C1);
      [lia|lia|].
    rewrite E1. cbv beta iota.
    rewrite (to_int32_small (to_uint32 pr)) by (unfold int32_range; lia).
    rewrite (size_left (concat buffers) (to_uint32 pr)) by lia.
    assert (Hcap : ((if pr >? 1024 then pr else 1024) <? to_uint32 pr) = false).
    { apply Z.ltb_ge. rewrite Hsame. rewrite Z.gtb_ltb.
      destruct (1024 <? pr) eqn:G; [lia|]. apply Z.ltb_ge in G. lia. }
    rewrite Hcap.
    eexists _, (deliver FinishId registered (left (concat buffers) (to_uint32 pr))), true.
    split.
    { rewrite <- deliver_create, left_left. reflexivity. }
    rewrite queued_mk, state_of_mk, C1 by assumption. simpl.
    refine (conj _ (conj _ (conj _ (conj _ _)))).
    + apply steps_one.
      rewrite <- (left_mid (concat buffers) (to_uint32 pr)) at 1.
      apply step_body. apply size_left. lia.
    + unfold int32_range. lia.
    + reflexivity.
    + intros _. apply size_mid. lia.
    + discriminate.
Qed.

Lemma steps_app st1 st2 st3 sigs sigs' :
  steps st1 sigs st2 -> steps st2 sigs' st3 -> steps st1 (sigs ++ sigs') st3.
Proof.
  intros H. revert sigs' st3. induction H as [st|s1 s2 s3 a b Hstep Hsteps IH];
    intros sigs' st4 H'.
  - exact H'.
  - rewrite <- app_assoc. eapply steps_cons; [exact Hstep|]. apply IH. exact H'.
Qed.

Lemma steps_shrink st sigs st' :
  steps st sigs st' -> size (snd st') <= size (snd st).
Proof.
  induction 1 as [st|s1 s2 s3 a b Hstep Hsteps IH]; [lia|].
  inversion Hstep; subst; cbn [snd] in *; rewrite size_app;
    match goal with |- _ <= size ?l + _ => pose proof (size_nonneg l) end; lia.
Qed.

(** Fewer than [limit] bytes complete no frame of [limit] bytes or more. *)
Lemma frames_below_few (limit : Z) (st : FramerState) (bytes : list byte) :
  size bytes < limit -> frames_below FinishId registered limit (st, bytes).
Proof.
  intros H sigs n rest Hsteps Hn.
  pose proof (steps_shrink _ _ _ Hsteps) as Hle. cbn [snd] in Hle. lia.
Qed.

Lemma frames_below_steps (limit : Z) st sigs st' :
  steps st sigs st' ->
  frames_below FinishId registered limit st ->
  frames_below FinishId registered limit st'.
Proof.
  intros Hsteps Hfit sigs' n rest Hsteps' Hn.
  exact (Hfit _ n rest (steps_app _ _ _ _ _ Hsteps Hsteps') Hn).
Qed.

Lemma body_spec (c : Connection) :
  int32_range (mPendingRead c) ->
  size (queued c) < 2 ^ 32 ->
  frames_below FinishId registered (2 ^ 31) (state_of c, queued c) ->
  exists c' sigs continue,
    body c = Ok (c', map Emit sigs, continue)
    /\ steps (state_of c, queued c) sigs (state_of c', queued c')
    /\ int32_range (mPendingRead c')
    /\ mPendingWrite c' = mPendingWrite c
    /\ (continue = true -> (length (queued c') < length (queued c))%nat)
    /\ (continue = false -> stuck (state_of c', queued c')).
Proof.
  intros Hrange Hsize Hfit. unfold onDataAvailable_body.
  destruct (gather_queued c) as (sock & buffers & -> & Hq & Hs).
  assert (Hav : bufferSize buffers = size (queued c)).
  { rewrite bufferSize_concat; rewrite Hq; [reflexivity|lia]. }
  rewrite Hav. clear Hav.
  pose proof (size_nonneg (queued c)) as Hnn.
  destruct (size (queued c) =? 0) eqn:Hzero.
  { (* nothing at hand *)
    apply Z.eqb_eq in Hzero.
    eexists _, [], false. split; [reflexivity|].
    rewrite queued_mk, Hq by assumption.
    refine (conj _ (conj _ (conj _ (conj _ _))));
      [apply steps_refl | assumption | reflexivity | discriminate | ].
    intros _. unfold state_of. simpl.
    destruct (mPendingRead c =? 0) eqn:E.
    - apply stuck_header. lia.
    - apply Z.eqb_neq in E. apply stuck_body.
      pose proof (to_uint32_nonzero _ Hrange E). lia. }
  apply Z.eqb_neq in Hzero.
  destruct (mPendingRead c =? 0) eqn:Hpend.
  - (* no frame in progress *)
    apply Z.eqb_eq in Hpend.
    destruct (size (queued c) <? 4) eqn:Hfour.
    { apply Z.ltb_lt in Hfour.
      eexists _, [], false. split; [reflexivity|].
      rewrite queued_mk, Hq by assumption.
      refine (conj _ (conj _ (conj _ (conj _ _))));
        [apply steps_refl | assumption | reflexivity | discriminate | ].
      intros _. unfold state_of. simpl. rewrite Hpend. simpl.
      apply stuck_header. assumption. }
    apply Z.ltb_ge in Hfour.
    destruct (bufferRead_spec buffers 4) as (buffers1 & E1 & C1);
      [rewrite Hq; lia|lia|].
    rewrite E1. change (to_int32 4) with 4.
    cbv beta iota. rewrite Hq in *. rewrite left_left.
    set (header := left (queued c) 4).
    assert (Hh : size header = 4) by (apply size_left; lia).
    pose proof (le_decode_range header) as Hdec. rewrite Hh in Hdec.
    change (256 ^ 4) with (2 ^ 32) in Hdec.
    assert (Hrest : size (concat buffers1) = size (queued c) - 4)
      by (rewrite C1; apply size_mid; lia).
    rewrite (to_uint32_small (size (queued c) - 4)) by lia.
    rewrite <- Hrest.
    assert (Hhead : frame_step FinishId registered
                      (state_of c, queued c) []
                      (AwaitingBody (le_decode header), concat buffers1)).
    { unfold state_of. apply Z.eqb_eq in Hpend. rewrite Hpend.
      rewrite C1. rewrite <- (left_mid (queued c) 4) at 1.
      apply step_header. exact Hh. }
    destruct (frame_spec sock buffers1 (to_int32 (le_decode header))
                (mPendingWrite c) Hs (to_int32_range _))
      as (c' & sigs & continue & E & St & R & W & Dec & Stuck).
    { rewrite to_uint32_to_int32, to_uint32_small by lia.
      apply (Hfit [] _ _ (steps_one _ _ _ Hhead)). }
    exists c', sigs, continue. split; [exact E|].
    refine (conj _ (conj R (conj W (conj _ Stuck)))).
    + change sigs with ([] ++ sigs). eapply steps_cons; [exact Hhead|].
      rewrite to_uint32_to_int32, to_uint32_small in St by lia. exact St.
    + intros Ht. specialize (Dec Ht).
      rewrite to_uint32_to_int32, to_uint32_small in Dec by lia.
      unfold size in *. lia.
  - (* the frame of [mPendingRead c] bytes is awaited *)
    apply Z.eqb_neq in Hpend.
    rewrite <- Hq in *.
    assert (Hstate : state_of c = AwaitingBody (to_uint32 (mPendingRead c))).
    { unfold state_of. apply Z.eqb_neq in Hpend. rewrite Hpend. reflexivity. }
    destruct (frame_spec sock buffers (mPendingRead c) (mPendingWrite c)
                Hs Hrange)
      as (c' & sigs & continue & E & St & R & W & Dec & Stuck).
    { apply (Hfit [] _ _). rewrite Hstate. apply steps_refl. }
    exists c', sigs, continue. split; [exact E|].
    refine (conj _ (conj R (conj W (conj _ Stuck)))).
    + rewrite Hstate. exact St.
    + intros Ht. specialize (Dec Ht).
      pose proof (to_uint32_nonzero _ Hrange Hpend).
      unfold size in *. lia.
Qed.

Lemma loop_spec (fuel : nat) :
  forall c,
    int32_range (mPendingRead c) ->
    size (queued c) < 2 ^ 32 ->
    frames_below FinishId registered (2 ^ 31) (state_of c, queued c) ->
    (length (queued c) < fuel)%nat ->
    exists c' sigs,
      onDataAvailable_loop FinishId registered fuel c = Ok (c', map Emit sigs)
      /\ steps (state_of c, queued c) sigs (state_of c', queued c')
      /\ stuck (state_of c', queued c')
      /\ mPendingWrite c' = mPendingWrite c
      /\ int32_range (mPendingRead c').
Proof.
  induction fuel as [|fuel IH]; intros c Hrange Hsize Hfit Hfuel; [lia|].
  destruct (body_spec c Hrange Hsize Hfit)
    as (c1 & sigs1 & continue & E & St & R & W & Dec & Stuck).
  cbn [onDataAvailable_loop]. rewrite E.
  destruct continue.
  - specialize (Dec eq_refl).
    destruct (IH c1 R) as (c2 & sigs2 & E2 & St2 & Stuck2 & W2 & R2).
    + unfold size in *. lia.
    + exact (frames_below_steps _ _ _ _ St Hfit).
    + lia.
    + rewrite E2. exists c2, (sigs1 ++ sigs2).
      rewrite map_app. split; [reflexivity|].
      split; [eapply steps_app; eassumption|].
      split; [assumption|]. split; [congruence|assumption].
  - exists c1, sigs1. split; [reflexivity|]. split; [exact St|].
    split; [apply Stuck; reflexivity|]. split; [exact W|exact R].
Qed.

Lemma app_same_size {A} (a b r r' : list A) :
  size a = size b -> a ++ r = b ++ r' -> a = b /\ r = r'.
Proof.
  revert b. induction a as [|x a IH]; intros [|y b] Hs E;
    try (unfold size in Hs; simpl in Hs; lia).
  - simpl in E. auto.
  - simpl in E. inversion E; subst.
    destruct (IH b) as [-> ->]; [unfold size in *; simpl in Hs; lia|assumption|].
    auto.
Qed.

(** The framer of the specification is deterministic: the steps from a
    state and the state where they stop are determined by the bytes. *)
Lemma frame_step_deterministic st sigs1 st1 sigs2 st2 :
  frame_step FinishId registered st sigs1 st1 ->
  frame_step FinishId registered st sigs2 st2 ->
  sigs1 = sigs2 /\ st1 = st2.
Proof.
  intros H1 H2. inversion H1; subst; inversion H2; subst;
    match goal with
    | E : ?a ++ ?r = ?b ++ ?r' |- _ =>
        destruct (app_same_size a b r r') as [Ha Hr];
          [congruence | exact E | subst; auto]
    end.
Qed.

End WithMessages.



(** A frame whose length is [2^31] or more and whose bytes are all queued
    is copied past the end of [buf]: [mPendingRead] is negative as an [int],
    so [buffer] stays [buf], of 1024 bytes. *)
Lemma body_overruns (FinishId : byte) (registered : byte -> bool)
    (c : Connection) (header payload : list byte) :
  mPendingRead c = 0 ->
  queued c = header ++ payload ->
  size header = 4 ->
  2 ^ 31 <= le_decode header ->
  le_decode header <= size payload ->
  size (queued c) < 2 ^ 32 ->
  onDataAvailable_body FinishId registered c = Undefined.
Proof.
  intros Hpend Hqueued Hh Hlong Hn Hsize. unfold onDataAvailable_body.
  destruct (gather_queued c) as (sock & buffers & -> & Hq & Hs).
  rewrite bufferSize_concat by (rewrite Hq; exact Hsize).
  rewrite Hq, Hpend. change (0 =? 0) with true. cbv iota.
  pose proof (le_decode_range header) as Hdec. rewrite Hh in Hdec.
  change (256 ^ 4) with (2 ^ 32) in Hdec.
  assert (Hall : size (queued c) = 4 + size payload)
    by (rewrite Hqueued, size_app; lia).
  destruct (size (queued c) =? 0) eqn:Hzero; [apply Z.eqb_eq in Hzero; lia|].
  destruct (size (queued c) <? 4) eqn:Hfour; [apply Z.ltb_lt in Hfour; lia|].
  destruct (bufferRead_spec buffers 4) as (buffers1 & E1 & C1);
    [rewrite Hq; lia | lia | ].
  rewrite E1. change (to_int32 4) with 4. cbv beta iota.
  rewrite Hq, Hqueued in *.
  rewrite left_left, (left_app_size header payload 4) by (symmetry; exact Hh).
  rewrite (mid_app_size header payload 4) in C1 by (symmetry; exact Hh).
  rewrite to_uint32_to_int32, (to_uint32_small (le_decode header)) by lia.
  rewrite (to_uint32_small (size (header ++ payload) - 4)) by lia.
  destruct (size (header ++ payload) - 4 <? le_decode header) eqn:Hlt;
    [apply Z.ltb_lt in Hlt; lia|].
  destruct (bufferRead_spec buffers1 (le_decode header))
    as (buffers2 & E2 & C2); [rewrite C1; lia | lia | ].
  rewrite E2. cbv beta iota.
  rewrite size_left by (rewrite C1; lia).
  assert (Hneg : to_int32 (le_decode header) = le_decode header - 2 ^ 32).
  { unfold to_int32.
    replace (le_decode header + 2 ^ 31)
      with (le_decode header - 2 ^ 31 + 1 * 2 ^ 32) by lia.
    rewrite Z_mod_plus_full, Z.mod_small by lia. lia. }
  rewrite Hneg.
  destruct (le_decode header - 2 ^ 32 >? 1024) eqn:Hcap.
  { rewrite Z.gtb_ltb in Hcap. apply Z.ltb_lt in Hcap. lia. }
  destruct (1024 <? le_decode header) eqn:Hover; [reflexivity|].
  apply Z.ltb_ge in Hover. lia.
Qed.

Lemma loop_undefined (FinishId : byte) (registered : byte -> bool)
    (fuel : nat) (c : Connection) :
  onDataAvailable_body FinishId registered c = Undefined ->
  onDataAvailable_loop FinishId registered (S fuel) c = Undefined.
Proof. intros H. cbn [onDataAvailable_loop]. rewrite H. reflexivity. Qed.

Lemma size_long_payload : size Samples.long_payload = 2 ^ 31.
Proof.
  unfold size, Samples.long_payload. rewrite repeat_length.
  apply Z2Nat.id. lia.
Qed.

Lemma queued_long_frame :
  queued (Connection_new Samples.long_frame_client)
  = [x00; x00; x00; x80] ++ Samples.long_payload.
Proof.
  unfold queued, Connection_new, Samples.long_frame_client.
  cbn [mBuffers mSocketClient sc_buffer concat]. apply app_nil_l.
Qed.

(** The header [00 00 00 80] followed by the [2^31] bytes that it
    announces: [mPendingRead] becomes [-2^31], the test
    [mPendingRead > 1024] fails, and the [2^31] bytes are copied to the 1024
    bytes of [buf]. *)
Example long_frame_overruns :
  onDataAvailable x01 (fun _ => true)
    (Connection_new Samples.long_frame_client)
  = Undefined.
Proof.
  unfold onDataAvailable. apply loop_undefined.
  apply (body_overruns _ _ _ [x00; x00; x00; x80] Samples.long_payload).
  - reflexivity.
  - exact queued_long_frame.
  - reflexivity.
  - vm_compute. discriminate.
  - rewrite size_long_payload. vm_compute. discriminate.
  - rewrite queued_long_frame, size_app, size_long_payload.
    vm_compute. reflexivity.
Qed.


(** With [2^32] bytes queued the [unsigned int] of [bufferSize] is 0:
    [onDataAvailable] returns as if nothing were there, where the framer
    has a header to read. *)
Lemma wrapped_queue (FinishId : byte) (registered : byte -> bool)
    (bytes : list byte) :
  size bytes = 2 ^ 32 ->
  onDataAvailable FinishId registered
    (Connection_new (mkSocketClient true bytes [] false))
  = Ok (mkConnection (mkSocketClient true [] [] false) [bytes] 0 0, [])
  /\ exists sigs st,
       frame_step FinishId registered (AwaitingHeader, bytes) sigs st.
Proof.
  intros Hsize. split.
  - unfold onDataAvailable. cbn [onDataAvailable_loop].
    unfold onDataAvailable_body, Connection_new, takeBuffer.
    cbn [mSocketClient sc_buffer mBuffers mPendingRead mPendingWrite
         sc_connected sc_sent sc_failed app].
    rewrite Hsize. change (2 ^ 32 =? 0) with false. cbn [negb].
    rewrite bufferSize_mod. cbn [concat]. rewrite app_nil_r, Hsize.
    reflexivity.
  - exists [], (AwaitingBody (le_decode (left bytes 4)), mid bytes 4).
    rewrite <- (left_mid bytes 4) at 1.
    apply step_header. apply size_left. rewrite Hsize. lia.
Qed.

Lemma size_full_queue : size Samples.full_queue = 2 ^ 32.
Proof.
  unfold size, Samples.full_queue. rewrite repeat_length.
  apply Z2Nat.id. lia.
Qed.

Example full_queue_is_not_seen :
  onDataAvailable x01 (fun _ => true)
    (Connection_new Samples.full_queue_client)
  = Ok (mkConnection (mkSocketClient true [] [] false)
          [Samples.full_queue] 0 0, [])
  /\ exists sigs st,
       frame_step x01 (fun _ => true)
         (AwaitingHeader, Samples.full_queue) sigs st.
Proof. apply wrapped_queue. exact size_full_queue. Qed.

(** The frame [06 00 00 00 07 H E L L O] is delivered as one message with
    the id 7 and the body [HELLO], and nothing stays queued. *)
Example hello_delivered :
  onDataAvailable x01 (fun _ => true) (Connection_new Samples.hello_client)
  = Ok (mkConnection (mkSocketClient true [] [] false) [] 0 0,
        [Emit (NewMessage (mkMessage "007" ["H"; "E"; "L"; "L"; "O"]%byte))]).
Proof. vm_compute. reflexivity. Qed.

(** The header alone leaves the connection awaiting the 6 bytes. *)
Example header_only :
  onDataAvailable x01 (fun _ => true)
    (Connection_new (mkSocketClient true ["006"; x00; x00; x00]%byte [] false))
  = Ok (mkConnection (mkSocketClient true [] [] false) [] 6 0, []).
Proof. vm_compute. reflexivity. Qed.

End FramingFacts.

(** ** Sends and acknowledgements *)

Module BackpressureFacts.
Import Connection Backpressure ListFacts.

Lemma size_le32_encode (n : Z) : size (le32_encode n) = 4.
Proof. reflexivity. Qed.

Lemma sendData_pending (id : byte) (message : String) (c : Connection) :
  mPendingWrite (snd (fst (sendData id message c)))
  = if isConnected (mSocketClient c)
    then to_int32 (mPendingWrite c + (4 + (1 + size message)))
    else mPendingWrite c.
Proof.
  unfold sendData.
  destruct (isConnected (mSocketClient c)); cbv beta iota delta [negb];
    [|reflexivity].
  assert (Hdata : size ([id] ++ (if size message =? 0 then [] else message))
                  = 1 + size message).
  { destruct (size message =? 0) eqn:E.
    - apply Z.eqb_eq in E. rewrite E. reflexivity.
    - unfold size. cbn [app length]. lia. }
  rewrite size_le32_encode, Hdata.
  destruct (write (mSocketClient c) _) as [[|] sock]; cbv beta iota.
  - destruct (1 + size message =? 0); [reflexivity|].
    destruct (write sock _). reflexivity.
  - reflexivity.
Qed.

Lemma sendData_effects (id : byte) (message : String) (c : Connection) :
  ~ In (Emit SendFinished) (snd (sendData id message c)).
Proof.
  unfold sendData.
  destruct (isConnected (mSocketClient c)); cbv beta iota delta [negb].
  - destruct (write (mSocketClient c) _) as [[|] sock]; cbv beta iota.
    + destruct (size _ =? 0); [|destruct (write sock _)]; intros [].
    + intros [].
  - intros [H|[]]. discriminate.
Qed.

Lemma sendData_refused (id : byte) (message : String) (c : Connection) :
  isConnected (mSocketClient c) = false ->
  fst (fst (sendData id message c)) = false.
Proof. intros H. unfold sendData. rewrite H. reflexivity. Qed.

Lemma step_send (id : byte) (message : String) (c : Connection) :
  step c (Send id message)
  = Some (snd (fst (sendData id message c)), snd (sendData id message c)).
Proof.
  unfold step. destruct (sendData id message c) as [[ok c'] effects].
  reflexivity.
Qed.

Lemma onDataWritten_asserted (bytes : Z) (c : Connection) :
  bytes <= mPendingWrite c ->
  onDataWritten bytes c
  = Some (mkConnection (mSocketClient c) (mBuffers c) (mPendingRead c)
            (to_int32 (mPendingWrite c - bytes)),
          if to_int32 (mPendingWrite c - bytes) =? 0
          then [Emit SendFinished] else []).
Proof.
  intros H. unfold onDataWritten.
  destruct (mPendingWrite c <? bytes) eqn:E; [apply Z.ltb_lt in E; lia|].
  reflexivity.
Qed.

(** With no failed write and no acknowledgement beyond what is pending,
    every event is taken and moves [mPendingWrite] by the bytes that it
    queues or acknowledges. *)
Lemma step_pending (c : Connection) (e : Event) :
  writes_succeed c [e] = true ->
  acknowledged_in_bounds c [e] = true ->
  exists c' effects,
    step c e = Some (c', effects)
    /\ (mPendingWrite c'
        = to_int32 (mPendingWrite c + queued_bytes c [e]
                    - acknowledged_bytes [e])
        \/ (mPendingWrite c' = mPendingWrite c
            /\ queued_bytes c [e] = 0 /\ acknowledged_bytes [e] = 0)).
Proof.
  intros Hw Ha.
  destruct e as [id message|bytes|connected failed].
  - rewrite step_send. eexists _, _. split; [reflexivity|].
    cbn [writes_succeed] in Hw. rewrite step_send in Hw.
    cbn [queued_bytes acknowledged_bytes]. rewrite step_send.
    rewrite sendData_pending.
    destruct (isConnected (mSocketClient c)) eqn:Hc.
    + cbn [negb orb] in Hw. apply andb_prop in Hw. destruct Hw as [Hw _].
      rewrite Hw. left. f_equal. lia.
    + right. unfold accepted. rewrite sendData_refused by exact Hc. auto.
  - cbn [acknowledged_in_bounds] in Ha. apply andb_prop in Ha.
    destruct Ha as [Ha _]. apply Z.leb_le in Ha. unfold pendingWrite in Ha.
    cbn [step]. rewrite (onDataWritten_asserted bytes c Ha).
    eexists _, _. split; [reflexivity|]. left.
    cbn [mPendingWrite queued_bytes acknowledged_bytes step].
    rewrite (onDataWritten_asserted bytes c Ha). f_equal. lia.
  - eexists _, _. split; [reflexivity|]. right.
    cbn [step queued_bytes acknowledged_bytes set_transport mPendingWrite].
    auto.
Qed.

Lemma queued_bytes_cons c e c' effects rest :
  step c e = Some (c', effects) ->
  queued_bytes c (e :: rest) = queued_bytes c [e] + queued_bytes c' rest.
Proof. intros H. cbn [queued_bytes]. rewrite H. lia. Qed.

Lemma acknowledged_bytes_cons e rest :
  acknowledged_bytes (e :: rest)
  = acknowledged_bytes [e] + acknowledged_bytes rest.
Proof. destruct e; cbn [acknowledged_bytes]; lia. Qed.

Lemma writes_succeed_cons c e c' effects rest :
  step c e = Some (c', effects) ->
  writes_succeed c (e :: rest) = true ->
  writes_succeed c [e] = true /\ writes_succeed c' rest = true.
Proof.
  intros H Hw. cbn [writes_succeed] in *. rewrite H in *.
  apply andb_prop in Hw. destruct Hw as [H1 H2]. rewrite H1, H2. auto.
Qed.

Lemma acknowledged_in_bounds_one c e rest :
  acknowledged_in_bounds c (e :: rest) = true ->
  acknowledged_in_bounds c [e] = true.
Proof.
  intros Ha. cbn [acknowledged_in_bounds] in *.
  apply andb_prop in Ha. destruct Ha as [H1 _]. rewrite H1.
  destruct (step c e) as [[? ?]|]; reflexivity.
Qed.

Lemma writes_succeed_one c e rest :
  writes_succeed c (e :: rest) = true ->
  writes_succeed c [e] = true.
Proof.
  intros Ha. cbn [writes_succeed] in *.
  apply andb_prop in Ha. destruct Ha as [H1 _]. rewrite H1.
  destruct (step c e) as [[? ?]|]; reflexivity.
Qed.

Lemma acknowledged_in_bounds_cons c e c' effects rest :
  step c e = Some (c', effects) ->
  acknowledged_in_bounds c (e :: rest) = true ->
  acknowledged_in_bounds c' rest = true.
Proof.
  intros H Ha. cbn [acknowledged_in_bounds] in Ha. rewrite H in Ha.
  apply andb_prop in Ha. tauto.
Qed.

Lemma run_pending (events : list Event) :
  forall c a,
    mPendingWrite c = to_int32 a ->
    writes_succeed c events = true ->
    acknowledged_in_bounds c events = true ->
    exists c',
      run c events = Some c'
      /\ mPendingWrite c'
         = to_int32 (a + queued_bytes c events - acknowledged_bytes events).
Proof.
  induction events as [|e rest IH]; intros c a Hpend Hw Ha.
  - exists c. split; [reflexivity|]. cbn [queued_bytes acknowledged_bytes].
    rewrite Hpend. f_equal. lia.
  - destruct (step_pending c e (writes_succeed_one _ _ _ Hw)
                (acknowledged_in_bounds_one _ _ _ Ha))
      as (c1 & effects & Hstep & Hmove).
    destruct (writes_succeed_cons _ _ _ _ _ Hstep Hw) as [_ Hw1].
    pose proof (acknowledged_in_bounds_cons _ _ _ _ _ Hstep Ha) as Ha1.
    destruct (IH c1 (a + queued_bytes c [e] - acknowledged_bytes [e]))
      as (c' & Hrun & Hc'); [|exact Hw1|exact Ha1|].
    + destruct Hmove as [H|(H & H1 & H2)].
      * rewrite H, Hpend.
        replace (to_int32 a + queued_bytes c [e] - acknowledged_bytes [e])
          with (to_int32 a + (queued_bytes c [e] - acknowledged_bytes [e]))
          by lia.
        rewrite to_int32_add_l. f_equal. lia.
      * rewrite H, H1, H2, Hpend. f_equal. lia.
    + exists c'. cbn [run]. rewrite Hstep. split; [exact Hrun|].
      rewrite Hc', (queued_bytes_cons c e c1 effects rest Hstep),
        (acknowledged_bytes_cons e rest).
      f_equal. lia.
Qed.

Lemma step_line_ok (c : Connection) (e : Event) c' effects :
  step c e = Some (c', effects) -> line_ok (mkLine c e c' effects).
Proof.
  intros E. unfold line_ok, pendingWrite. cbn [l_event l_after l_before l_effects].
  destruct e as [id message|bytes|connected failed].
  - rewrite step_send in E. injection E as <- <-.
    pose proof (sendData_effects id message c) as H.
    split; [discriminate|]. split; [tauto|]. intros [? _]. discriminate.
  - cbn [step] in E. unfold onDataWritten in E.
    destruct (mPendingWrite c <? bytes); [discriminate|].
    injection E as <- <-. cbn [mPendingWrite is_written].
    split; [intros b Hb; injection Hb as <-; reflexivity|].
    destruct (to_int32 (mPendingWrite c - bytes) =? 0) eqn:Z0.
    + apply Z.eqb_eq in Z0. simpl. tauto.
    + apply Z.eqb_neq in Z0. simpl. split; [tauto|]. intros [_ ?]. contradiction.
  - cbn [step] in E. injection E as <- <-. cbn [is_written].
    split; [discriminate|].
    split; [intros []|]. intros [? _]. discriminate.
Qed.

Lemma history_send_finished (events : list Event) :
  forall c lines,
    history c events = Some lines -> Forall line_ok lines.
Proof.
  induction events as [|e rest IH]; intros c lines H; cbn [history] in H.
  - injection H as <-. constructor.
  - destruct (step c e) as [[c' effects]|] eqn:E; [|discriminate].
    destruct (history c' rest) as [lines'|] eqn:Hrest; [|discriminate].
    injection H as <-. constructor.
    + exact (step_line_ok _ _ _ _ E).
    + exact (IH _ _ Hrest).
Qed.

Lemma history_of_run (events : list Event) :
  forall c c',
    run c events = Some c' ->
    exists lines,
      history c events = Some lines
      /\ map l_event lines = events.
Proof.
  induction events as [|e rest IH]; intros c c' H; cbn [run history] in *.
  - exists []. auto.
  - destruct (step c e) as [[c1 effects]|]; [|discriminate].
    destruct (IH _ _ H) as (lines & -> & Hev).
    eexists. split; [reflexivity|]. cbn [map l_event]. rewrite Hev. reflexivity.
Qed.



(** A send on a socket that is connected and whose write fails: [sendData]
    returns [false] and nothing is handed to the socket, and [pendingWrite]
    is 9. *)
Example failed_send_trace :
  let c := Connection_new (mkSocketClient true [] [] true) in
  fst (fst (sendData "007" Samples.abcd c)) = false
  /\ run c [Send "007" Samples.abcd]
     = Some (mkConnection (mkSocketClient false [] [] true) [] 0 9)
  /\ queued_bytes c [Send "007" Samples.abcd] = 0.
Proof. repeat split. Qed.


(** An acknowledgement of more bytes than are pending fails the assertion
    of [onDataWritten]. *)
Example acknowledged_too_much :
  run (Connection_new Samples.hello_client)
    [Send "007" ["H"; "E"; "L"; "L"; "O"]%byte; Written 11]
  = None.
Proof. reflexivity. Qed.

(** The bytes that [sendData] hands to the socket for the id 7 and the
    message [HELLO] are the header [06 00 00 00] and the payload. *)
Example send_hello_bytes :
  sc_sent (mSocketClient
             (snd (fst (sendData "007" ["H"; "E"; "L"; "L"; "O"]%byte
                          (Connection_new
                             (mkSocketClient true [] [] false))))))
  = Samples.hello.
Proof. reflexivity. Qed.

(** A message of 5 bytes is sent, 4 bytes and then 6 are acknowledged:
    [pendingWrite] goes 10, 6, 0 and [SendFinished] comes with the last. *)
Example send_then_acknowledge :
  option_map
    (map (fun line => (pendingWrite (l_after line), l_effects line)))
    (history (Connection_new Samples.hello_client)
       [Send "007" ["H"; "E"; "L"; "L"; "O"]%byte; Written 4; Written 6])
  = Some [(10, []); (6, []); (0, [Emit SendFinished])].
Proof. reflexivity. Qed.

(** C8.  [sendData] on a connection whose socket is not connected returns
    [false], logs the error, and leaves the connection as it was: nothing is
    written to the socket and [pendingWrite] is unchanged. *)
Theorem sendData_not_connected (id : byte) (message : String) (c : Connection) :
  isConnected (mSocketClient c) = false ->
  exists text,
    sendData id message c = (false, c, [LogError text])
    /\ pendingWrite (snd (fst (sendData id message c))) = pendingWrite c
    /\ sc_sent (mSocketClient (snd (fst (sendData id message c))))
       = sc_sent (mSocketClient c).
Proof.
  intros H. unfold sendData. rewrite H. simpl. eexists. repeat split.
Qed.

Lemma sendData_not_connected_witness :
  exists text,
    sendData "007" Samples.abcd
      (Connection_new (mkSocketClient false [] [] false))
    = (false, Connection_new (mkSocketClient false [] [] false),
       [LogError text])
    /\ pendingWrite
         (snd (fst (sendData "007" Samples.abcd
                      (Connection_new (mkSocketClient false [] [] false)))))
       = pendingWrite (Connection_new (mkSocketClient false [] [] false))
    /\ sc_sent
         (mSocketClient
            (snd (fst (sendData "007" Samples.abcd
                         (Connection_new (mkSocketClient false [] [] false))))))
       = sc_sent (mSocketClient
                    (Connection_new (mkSocketClient false [] [] false))).
Proof.
  apply (sendData_not_connected "007" Samples.abcd
           (Connection_new (mkSocketClient false [] [] false))).
  reflexivity.
Defined.

End BackpressureFacts.

(** ** Buffers, standard input and command of a process *)

Module ProcessFacts.
Import Process Stdio ListFacts Samples.

Lemma handleOutput_append_spec (buffer : String) (index : Z) (buf : list byte) :
  size buffer <= MaxSize ->
  0 <= index <= size buffer ->
  size buf <= BufSize ->
  forall buffer' index' log,
    handleOutput_append buffer index buf = (buffer', index', log) ->
    size buffer' <= MaxSize
    /\ 0 <= index' <= size buffer'
    /\ (dropped log = false
        <-> size (unread buffer index) + size buf <= MaxSize)
    /\ (dropped log = false
        -> unread buffer' index' = unread buffer index ++ buf).
Proof.
  intros Hmax Hidx Hbuf buffer' index' log.
  unfold handleOutput_append, unread.
  pose proof (size_nonneg buf) as Hnn.
  assert (Hcap : BufSize <= MaxSize) by (unfold BufSize, MaxSize; lia).
  rewrite (size_mid buffer index) by lia.
  rewrite !Z.gtb_ltb.
  destruct (MaxSize <? size buffer + size buf) eqn:Hover.
  - apply Z.ltb_lt in Hover.
    destruct (MaxSize <? size buffer + size buf - index) eqn:Hstill.
    + apply Z.ltb_lt in Hstill. intros E. inversion E; subst. clear E.
      change (left [] 0) with (@nil byte). simpl app.
      split; [lia|]. split; [lia|]. simpl.
      split; [split; [discriminate|lia]|discriminate].
    + apply Z.ltb_ge in Hstill. intros E. inversion E; subst. clear E.
      rewrite (left_all (mid buffer index)) by (rewrite size_mid; lia).
      rewrite (left_all (mid buffer index)) by (rewrite size_mid; lia).
      rewrite size_app, size_mid by lia.
      split; [lia|]. split; [lia|]. simpl.
      split; [split; [lia|reflexivity]|]. intros _. apply mid_zero.
  - apply Z.ltb_ge in Hover. intros E. inversion E; subst. clear E.
    rewrite left_all by lia. rewrite size_app.
    split; [lia|]. split; [lia|]. simpl.
    split; [split; [lia|reflexivity]|]. intros _. apply mid_app_l. lia.
Qed.

Lemma dropped_app (e1 e2 : list Effect) :
  dropped (e1 ++ e2) = dropped e1 || dropped e2.
Proof. apply existsb_app. Qed.

Lemma handleOutput_loop_spec (reads : list (list byte)) (fd : Z) :
  forall buffer index total,
    size buffer <= MaxSize ->
    0 <= index <= size buffer ->
    Forall (fun buf => size buf <= BufSize) reads ->
    forall buffer' index' total' effects reads',
      handleOutput_loop reads fd buffer index total
      = (buffer', index', total', effects, reads') ->
      size buffer' <= MaxSize
      /\ 0 <= index' <= size buffer'
      /\ (dropped effects = false
          <-> size (unread buffer index) + size (taken reads) <= MaxSize)
      /\ (dropped effects = false
          -> unread buffer' index' = unread buffer index ++ taken reads)
      /\ total' = total + size (taken reads).
Proof.
  induction reads as [|buf rest IH];
    intros buffer index total Hmax Hidx Hreads buffer' index' total' effects reads' E.
  - simpl in E. inversion E; subst. clear E. simpl.
    change (size (@nil byte)) with 0.
    unfold unread. rewrite size_mid by lia. rewrite app_nil_r.
    repeat split; try lia; auto.
  - cbn [handleOutput_loop taken] in *.
    inversion Hreads as [|? ? Hbuf Hrest]; subst.
    destruct (size buf =? 0) eqn:Hz.
    + inversion E; subst. clear E. simpl.
      change (size (@nil byte)) with 0.
      unfold unread. rewrite size_mid by lia. rewrite app_nil_r.
      repeat split; try lia; auto.
    + destruct (handleOutput_append buffer index buf) as [[b1 i1] log] eqn:Ea.
      destruct (handleOutput_append_spec buffer index buf Hmax Hidx Hbuf
                  b1 i1 log Ea) as (M1 & I1 & D1 & U1).
      destruct (handleOutput_loop rest fd b1 i1 (total + size buf))
        as [[[[b2 i2] t2] e2] r2] eqn:El.
      destruct (IH b1 i1 (total + size buf) M1 I1 Hrest b2 i2 t2 e2 r2 El)
        as (M2 & I2 & D2 & U2 & T2).
      inversion E; subst. clear E.
      split; [assumption|]. split; [assumption|].
      rewrite dropped_app, size_app.
      pose proof (size_nonneg (taken rest)) as Hnn.
      pose proof (size_nonneg buf) as Hnb.
      split; [|split].
      * split.
        -- intros H. apply orb_false_iff in H. destruct H as [H1 H2].
           apply D2 in H2. rewrite (U1 H1), size_app in H2. lia.
        -- intros H. apply orb_false_iff.
           assert (H1 : dropped log = false) by (apply D1; lia).
           split; [assumption|]. apply D2. rewrite (U1 H1), size_app. lia.
      * intros H. apply orb_false_iff in H. destruct H as [H1 H2].
        rewrite (U2 H2), (U1 H1), app_assoc. reflexivity.
      * lia.
Qed.

(** C5.  A buffer of the standard output or error that is within 16 MiB
    stays within 16 MiB through every run of reads that [handleOutput] adds
    to it.  Data are dropped, and the line logged, exactly when the bytes not
    yet read together with the bytes that come in are more than 16 MiB, that
    is, when dropping the part before the read index would not be enough;
    when nothing is dropped, the bytes not yet read afterwards are those of
    before followed by the bytes that came in. *)
Theorem handleOutput_buffer_bounded
    (reads : list (list byte)) (fd : Z) (buffer : String) (index : Z)
    (signal : Signal) :
  size buffer <= MaxSize ->
  0 <= index <= size buffer ->
  Forall (fun buf => size buf <= BufSize) reads ->
  let '(buffer', index', effects, _) :=
    handleOutput reads fd buffer index signal in
  MaxSize = 16 * 2 ^ 20
  /\ size buffer' <= MaxSize
  /\ 0 <= index' <= size buffer'
  /\ (dropped effects = false
      <-> size (unread buffer index) + size (taken reads) <= MaxSize)
  /\ (dropped effects = false
      -> unread buffer' index' = unread buffer index ++ taken reads).
Proof.
  intros Hmax Hidx Hreads. unfold handleOutput.
  destruct (handleOutput_loop reads fd buffer index 0)
    as [[[[b i] t] e] r] eqn:E.
  destruct (handleOutput_loop_spec reads fd buffer index 0 Hmax Hidx Hreads
              b i t e r E) as (M & I & D & U & T).
  split; [reflexivity|]. split; [assumption|]. split; [assumption|].
  assert (Hd : dropped (e ++ (if t =? 0 then [] else [Emit signal])) = dropped e).
  { rewrite dropped_app. destruct (t =? 0); simpl; apply orb_false_r. }
  rewrite Hd. split; assumption.
Qed.

Lemma handleOutput_buffer_bounded_witness :
  let '(buffer', index', effects, _) :=
    handleOutput [["d"; "e"]%byte] 3 ["a"; "b"; "c"]%byte 1 ReadyReadStdOut in
  MaxSize = 16 * 2 ^ 20
  /\ size buffer' <= MaxSize
  /\ 0 <= index' <= size buffer'
  /\ (dropped effects = false
      <-> size (unread ["a"; "b"; "c"]%byte 1)
          + size (taken [["d"; "e"]%byte]) <= MaxSize)
  /\ (dropped effects = false
      -> unread buffer' index'
         = unread ["a"; "b"; "c"]%byte 1 ++ taken [["d"; "e"]%byte]).
Proof.
  apply (handleOutput_buffer_bounded [["d"; "e"]%byte] 3
           ["a"; "b"; "c"]%byte 1 ReadyReadStdOut).
  - unfold MaxSize, size. simpl. lia.
  - unfold size. simpl. lia.
  - repeat constructor; unfold BufSize, size; simpl; lia.
Defined.

(** C10.  [readAllStdOut] returns the whole buffer of the standard output,
    leaves it empty and puts the read index at 0, so a second call returns
    the empty string; it does not touch the standard error.  [readAllStdErr]
    does the same for the standard error. *)
Theorem readAll_is_destructive (p : Process) :
  (let '(out1, p1) := readAllStdOut p in
   let '(out2, p2) := readAllStdOut p1 in
   out1 = mStdOutBuffer p
   /\ mStdOutBuffer p1 = [] /\ mStdOutIndex p1 = 0
   /\ out2 = []
   /\ mStdOutBuffer p2 = [] /\ mStdOutIndex p2 = 0
   /\ mStdErrBuffer p1 = mStdErrBuffer p
   /\ mStdErrIndex p1 = mStdErrIndex p)
  /\ (let '(err1, p1) := readAllStdErr p in
      let '(err2, p2) := readAllStdErr p1 in
      err1 = mStdErrBuffer p
      /\ mStdErrBuffer p1 = [] /\ mStdErrIndex p1 = 0
      /\ err2 = []
      /\ mStdErrBuffer p2 = [] /\ mStdErrIndex p2 = 0
      /\ mStdOutBuffer p1 = mStdOutBuffer p
      /\ mStdOutIndex p1 = mStdOutIndex p).
Proof.
  unfold readAllStdOut, readAllStdErr. simpl. repeat split.
Qed.

Lemma closeStdIn_quiet p : Forall quiet (snd (closeStdIn p)).
Proof.
  unfold closeStdIn. destruct (snd (mStdIn p) =? -1); simpl;
    repeat constructor; discriminate.
Qed.

Lemma closeStdOut_quiet p : Forall quiet (snd (closeStdOut p)).
Proof.
  unfold closeStdOut. destruct (fst (mStdOut p) =? -1); simpl;
    repeat constructor; discriminate.
Qed.

Lemma closeStdErr_quiet p : Forall quiet (snd (closeStdErr p)).
Proof.
  unfold closeStdErr. destruct (fst (mStdErr p) =? -1); simpl;
    repeat constructor; discriminate.
Qed.

Lemma handleOutput_append_quiet buffer index buf :
  Forall quiet (snd (handleOutput_append buffer index buf)).
Proof.
  unfold handleOutput_append.
  destruct (size buffer + size buf >? MaxSize);
    [destruct (size buffer + size buf - index >? MaxSize)|]; simpl;
    repeat constructor; discriminate.
Qed.

Lemma handleOutput_loop_quiet reads fd :
  forall buffer index total,
    Forall quiet (snd (fst (handleOutput_loop reads fd buffer index total))).
Proof.
  induction reads as [|buf rest IH]; intros buffer index total; simpl.
  - constructor.
  - destruct (size buf =? 0); simpl.
    + repeat constructor; discriminate.
    + pose proof (handleOutput_append_quiet buffer index buf) as Ha.
      destruct (handleOutput_append buffer index buf) as [[b i] log].
      specialize (IH b i (total + size buf)).
      destruct (handleOutput_loop rest fd b i (total + size buf))
        as [[[[b2 i2] t2] e2] r2].
      simpl in *. apply Forall_app. split; assumption.
Qed.

Lemma handleOutput_quiet reads fd buffer index signal :
  signal <> FinishedSignal ->
  Forall quiet (snd (fst (handleOutput reads fd buffer index signal))).
Proof.
  intros Hs. unfold handleOutput.
  pose proof (handleOutput_loop_quiet reads fd buffer index 0) as H.
  destruct (handleOutput_loop reads fd buffer index 0) as [[[[b i] t] e] r].
  simpl in *. apply Forall_app. split; [assumption|].
  destruct (t =? 0); repeat constructor; congruence.
Qed.

Lemma handleOutput_no_write reads fd buffer index signal :
  filter is_sys_write (snd (fst (handleOutput reads fd buffer index signal))) = [].
Proof.
  unfold handleOutput.
  assert (H : forall reads buffer index total,
             filter is_sys_write
               (snd (fst (handleOutput_loop reads fd buffer index total))) = []).
  { clear. induction reads as [|buf rest IH]; intros buffer index total; simpl.
    - reflexivity.
    - destruct (size buf =? 0); simpl; [reflexivity|].
      assert (Ha : filter is_sys_write
                     (snd (handleOutput_append buffer index buf)) = []).
      { unfold handleOutput_append.
        destruct (size buffer + size buf >? MaxSize);
          [destruct (size buffer + size buf - index >? MaxSize)|];
          reflexivity. }
      destruct (handleOutput_append buffer index buf) as [[b i] log].
      specialize (IH b i (total + size buf)).
      destruct (handleOutput_loop rest fd b i (total + size buf))
        as [[[[b2 i2] t2] e2] r2].
      simpl in *. rewrite filter_app, Ha, IH. reflexivity. }
  specialize (H reads buffer index 0).
  destruct (handleOutput_loop reads fd buffer index 0) as [[[[b i] t] e] r].
  simpl in *. rewrite filter_app, H. destruct (t =? 0); reflexivity.
Qed.

(** The trace of [finish], with what [closeStdIn], [closeStdOut] and
    [closeStdErr] do left as it is. *)
Lemma finish_trace (k : Kernel) (code : Z) (p : Process) :
  let '(p', effects, _) := finish k code p in
  mPid p' = -1 /\ mReturn p' = code /\ mMode p' = mMode p
  /\ mStdInBuffer p' = [] /\ snd (mStdIn p') = -1
  /\ exists held,
       effects
       = [Lock] ++ held ++ [Unlock]
         ++ match mMode p with
            | Async => [Emit FinishedSignal]
            | Sync => []
            end
       /\ Forall quiet held
       /\ match mMode p with
          | Async =>
              fst (mStdOut p') = -1 /\ fst (mStdErr p') = -1
              /\ filter is_sys_write held = []
              /\ exists b1 i1 e1 r1 b2 i2 e2 r2,
                   handleOutput (k_reads k (fst (mStdOut p))) (fst (mStdOut p))
                     (mStdOutBuffer p) (mStdOutIndex p) ReadyReadStdOut
                   = (b1, i1, e1, r1)
                   /\ handleOutput
                        (k_reads (set_reads k (fst (mStdOut p)) r1)
                           (fst (mStdErr p)))
                        (fst (mStdErr p))
                        (mStdErrBuffer p) (mStdErrIndex p) ReadyReadStdErr
                      = (b2, i2, e2, r2)
                   /\ mStdOutBuffer p' = b1 /\ mStdOutIndex p' = i1
                   /\ mStdErrBuffer p' = b2 /\ mStdErrIndex p' = i2
                   /\ held
                      = snd (closeStdIn p) ++ e1 ++ e2
                        ++ snd (closeStdOut p) ++ snd (closeStdErr p)
          | Sync =>
              exists w,
                filter is_sys_write held
                = [SysWrite (snd (mSync p)) ["q"%byte] w]
                /\ snd (mSync p') = -1
                /\ held
                   = snd (closeStdIn p)
                     ++ [SysWrite (snd (mSync p)) ["q"%byte] w;
                         SysClose (snd (mSync p))]
                /\ mStdOutBuffer p' = mStdOutBuffer p
                /\ mStdErrBuffer p' = mStdErrBuffer p
          end.
Proof.
  unfold finish.
  set (p0 := set_stdin_queue [] _ _).
  assert (Hin : exists pin ein,
             closeStdIn p0 = (pin, ein) /\ ein = snd (closeStdIn p)
             /\ mPid pin = -1 /\ mReturn pin = code /\ mMode pin = mMode p
             /\ mStdInBuffer pin = [] /\ snd (mStdIn pin) = -1
             /\ mStdOut pin = mStdOut p /\ mStdErr pin = mStdErr p
             /\ mSync pin = mSync p
             /\ mStdOutBuffer pin = mStdOutBuffer p
             /\ mStdOutIndex pin = mStdOutIndex p
             /\ mStdErrBuffer pin = mStdErrBuffer p
             /\ mStdErrIndex pin = mStdErrIndex p).
  { unfold closeStdIn, p0. simpl.
    destruct (snd (mStdIn p) =? -1) eqn:E; eexists _, _;
      (split; [reflexivity|]); simpl; repeat split; try reflexivity.
    apply Z.eqb_eq in E. exact E. }
  destruct Hin as (pin & ein & Ein & Hein & P1 & P2 & P3 & P4 & P5 & P6 & P7
                   & P8 & P9 & P10 & P11 & P12).
  rewrite Ein. clear Ein. clearbody p0.
  pose proof (closeStdIn_quiet p) as Qin. rewrite <- Hein in Qin.
  rewrite P3.
  destruct (mMode p) eqn:Hmode.
  - (* Sync *)
    destruct (sys_write k (snd (mSync pin)) 1) as [w k1].
    cbn [mMode set_mSync mPid mReturn mStdInBuffer mStdIn mSync mStdOutBuffer
         mStdErrBuffer fst snd].
    rewrite P3.
    do 5 (split; [first [assumption|reflexivity]|]).
    exists (ein ++ [SysWrite (snd (mSync pin)) ["q"%byte] w;
                    SysClose (snd (mSync pin))]).
    split; [rewrite <- !app_assoc; reflexivity|].
    split; [apply Forall_app; split; [assumption|repeat constructor; discriminate]|].
    rewrite P8. exists w. split.
    { rewrite filter_app. simpl.
      assert (F : filter is_sys_write ein = []).
      { subst ein. unfold closeStdIn.
        destruct (snd (mStdIn p) =? -1); reflexivity. }
      rewrite F. reflexivity. }
    split; [reflexivity|]. split; [subst ein; reflexivity|].
    split; assumption.
  - (* Async *)
    unfold handleStdOut, handleStdErr.
    rewrite P6, P9, P10.
    pose proof (handleOutput_quiet (k_reads k (fst (mStdOut p)))
                  (fst (mStdOut p)) (mStdOutBuffer p) (mStdOutIndex p)
                  ReadyReadStdOut ltac:(discriminate)) as Q1.
    pose proof (handleOutput_no_write (k_reads k (fst (mStdOut p)))
                  (fst (mStdOut p)) (mStdOutBuffer p) (mStdOutIndex p)
                  ReadyReadStdOut) as W1.
    destruct (handleOutput (k_reads k (fst (mStdOut p))) (fst (mStdOut p))
                (mStdOutBuffer p) (mStdOutIndex p) ReadyReadStdOut)
      as [[[b1 i1] e1] r1] eqn:E1.
    cbn [mStdErr set_stdout mStdErrBuffer mStdErrIndex fst snd].
    rewrite P7, P11, P12.
    set (k1 := set_reads k (fst (mStdOut p)) r1).
    pose proof (handleOutput_quiet (k_reads k1 (fst (mStdErr p)))
                  (fst (mStdErr p)) (mStdErrBuffer p) (mStdErrIndex p)
                  ReadyReadStdErr ltac:(discriminate)) as Q2.
    pose proof (handleOutput_no_write (k_reads k1 (fst (mStdErr p)))
                  (fst (mStdErr p)) (mStdErrBuffer p) (mStdErrIndex p)
                  ReadyReadStdErr) as W2.
    destruct (handleOutput (k_reads k1 (fst (mStdErr p))) (fst (mStdErr p))
                (mStdErrBuffer p) (mStdErrIndex p) ReadyReadStdErr)
      as [[[b2 i2] e2] r2] eqn:E2.
    simpl in Q1, W1, Q2, W2.
    set (px := set_stderr b2 i2 (set_stdout b1 i1 pin)).
    assert (Hout : exists pout,
               closeStdOut px = (pout, snd (closeStdOut p))
               /\ fst (mStdOut pout) = -1
               /\ mPid pout = -1 /\ mReturn pout = code /\ mMode pout = Async
               /\ mStdInBuffer pout = [] /\ snd (mStdIn pout) = -1
               /\ mStdErr pout = mStdErr p
               /\ mStdOutBuffer pout = b1 /\ mStdOutIndex pout = i1
               /\ mStdErrBuffer pout = b2 /\ mStdErrIndex pout = i2).
    { unfold closeStdOut, px. cbn [mStdOut set_stderr set_stdout].
      rewrite P6. destruct (fst (mStdOut p) =? -1) eqn:E; eexists;
        (split; [reflexivity|]); simpl; repeat split; try assumption;
        try reflexivity.
      apply Z.eqb_eq in E. rewrite P6. exact E. }
    destruct Hout as (pout & Eout & O1 & O2 & O3 & O4 & O5 & O6 & O7 & O8 & O9
                      & O10 & O11).
    rewrite Eout. clear Eout.
    assert (Herr : exists perr,
               closeStdErr pout = (perr, snd (closeStdErr p))
               /\ fst (mStdErr perr) = -1 /\ fst (mStdOut perr) = -1
               /\ mPid perr = -1 /\ mReturn perr = code /\ mMode perr = Async
               /\ mStdInBuffer perr = [] /\ snd (mStdIn perr) = -1
               /\ mStdOutBuffer perr = b1 /\ mStdOutIndex perr = i1
               /\ mStdErrBuffer perr = b2 /\ mStdErrIndex perr = i2).
    { unfold closeStdErr. rewrite O7.
      destruct (fst (mStdErr p) =? -1) eqn:E; eexists;
        (split; [reflexivity|]); simpl; repeat split; try assumption;
        try reflexivity.
      apply Z.eqb_eq in E. rewrite O7. exact E. }
    destruct Herr as (perr & Eerr & R1 & R2 & R3 & R4 & R5 & R6 & R7 & R8 & R9
                      & R10 & R11).
    rewrite Eerr. clear Eerr. cbv beta iota. rewrite R5.
    do 5 (split; [first [assumption|reflexivity]|]).
    exists (ein ++ e1 ++ e2 ++ snd (closeStdOut p) ++ snd (closeStdErr p)).
    split; [rewrite <- !app_assoc; reflexivity|].
    split.
    { repeat (apply Forall_app; split); try assumption.
      - apply closeStdOut_quiet.
      - apply closeStdErr_quiet. }
    split; [assumption|]. split; [assumption|].
    split.
    { rewrite !filter_app, W1, W2.
      subst ein. unfold closeStdIn, closeStdOut, closeStdErr.
      destruct (snd (mStdIn p) =? -1), (fst (mStdOut p) =? -1),
        (fst (mStdErr p) =? -1); reflexivity. }
    exists b1, i1, e1, r1, b2, i2, e2, r2.
    split; [reflexivity|]. split; [exact E2|].
    subst ein. repeat split; assumption || reflexivity.
Qed.

Lemma closeStdIn_closing p : snd (closeStdIn p) = closing (snd (mStdIn p)).
Proof.
  unfold closeStdIn, closing. destruct (snd (mStdIn p) =? -1); reflexivity.
Qed.

Lemma closeStdOut_closing p : snd (closeStdOut p) = closing (fst (mStdOut p)).
Proof.
  unfold closeStdOut, closing. destruct (fst (mStdOut p) =? -1); reflexivity.
Qed.

Lemma closeStdErr_closing p : snd (closeStdErr p) = closing (fst (mStdErr p)).
Proof.
  unfold closeStdErr, closing. destruct (fst (mStdErr p) =? -1); reflexivity.
Qed.

Lemma handleOutput_loop_left (reads : list (list byte)) (fd : Z) :
  forall buffer index total,
    snd (handleOutput_loop reads fd buffer index total)
    = Lifecycle.after_eof reads.
Proof.
  induction reads as [|buf rest IH]; intros buffer index total;
    [reflexivity|].
  cbn [handleOutput_loop Lifecycle.after_eof].
  destruct (size buf =? 0); [reflexivity|].
  destruct (handleOutput_append buffer index buf) as [[b i] log].
  specialize (IH b i (total + size buf)).
  destruct (handleOutput_loop rest fd b i (total + size buf))
    as [[[[b2 i2] t2] e2] r2].
  exact IH.
Qed.

(** [handleOutput] reads up to the end of file, or all there is to read;
    where the buffer has room for them, the bytes read are in the buffer
    after those that were there. *)
Lemma handleOutput_drains (reads : list (list byte)) (fd : Z)
    (buffer : String) (index : Z) (signal : Signal) b i e r :
  handleOutput reads fd buffer index signal = (b, i, e, r) ->
  r = Lifecycle.after_eof reads
  /\ (room_for buffer index reads ->
      unread b i = unread buffer index ++ taken reads).
Proof.
  unfold handleOutput. intros H.
  pose proof (handleOutput_loop_left reads fd buffer index 0) as Hleft.
  destruct (handleOutput_loop reads fd buffer index 0)
    as [[[[b' i'] t'] e'] r'] eqn:E.
  cbn [snd] in Hleft. injection H as <- <- _ <-.
  split; [exact Hleft|].
  intros (Hmax & Hidx & Hreads & Hroom).
  destruct (handleOutput_loop_spec reads fd buffer index 0 Hmax Hidx Hreads
              _ _ _ _ _ E) as (_ & _ & Hdrop & Hunread & _).
  apply Hunread. apply Hdrop. exact Hroom.
Qed.


(** A process in the asynchronous mode with its three descriptors open and
    four bytes to read on its standard output: [finish] reads them, closes
    the three descriptors and emits [finished] once the mutex is
    released. *)
Example finish_async_trace :
  let p :=
    set_mMode Async
      (set_mStdErr (8, -1) (set_mStdOut (6, -1) (set_mStdIn (-1, 5)
         (set_mPid 42 Process_new)))) in
  let k := mkKernel (fun fd => if fd =? 6 then [Samples.abcd] else [])
             (fun _ => []) in
  snd (fst (finish k 3 p))
  = [Lock; UnregisterSocket 5; SysClose 5; Emit ReadyReadStdOut;
     UnregisterSocket 6; SysClose 6; UnregisterSocket 8; SysClose 8;
     Unlock; Emit FinishedSignal]
  /\ mStdOutBuffer (fst (fst (finish k 3 p))) = Samples.abcd.
Proof. split; reflexivity. Qed.

(** The same in the synchronous mode, with the sync pipe on 9 and 10: one
    byte is written to 10, which is then closed, and nothing is emitted. *)
Example finish_sync_trace :
  let p :=
    set_mSync (9, 10) (set_mStdIn (-1, 5) (set_mPid 42 Process_new)) in
  let k := mkKernel (fun _ => []) (fun fd => if fd =? 10 then [1] else []) in
  snd (fst (finish k 3 p))
  = [Lock; UnregisterSocket 5; SysClose 5;
     SysWrite 10 ["q"%byte] 1; SysClose 10; Unlock].
Proof. reflexivity. Qed.


Lemma handleInput_loop_spec (writes : list Z) (fd : Z) :
  forall queue index,
    queue_ok queue index ->
    let '(queue', index', effects, _) :=
      handleInput_loop writes fd queue index in
    (exists n, queue' = skipn n queue)
    /\ written fd effects ++ unread (concat queue') index'
       = unread (concat queue) index
    /\ queue_ok queue' index'
    /\ (forall before,
          write_interest fd effects before
          = if is_empty queue' then before else true)
    /\ existsb (is_refused_write fd) effects = negb (is_empty queue').
Proof.
  induction writes as [|room ws IH]; intros queue index [Hall Hidx].
  - destruct queue as [|front rest]; simpl.
    + subst. repeat split; auto. exists 0%nat. reflexivity.
    + destruct (negb (index =? 0)); simpl; rewrite !Z.eqb_refl; simpl;
        (split; [exists 0%nat; reflexivity|]); repeat split; auto; try lia.
  - destruct queue as [|front rest].
    + simpl. subst. repeat split; auto. exists 0%nat. reflexivity.
    + cbn [handleInput_loop].
      inversion Hall as [|? ? Hfront Hrest]; subst.
      assert (Hwd : (if negb (index =? 0)
                     then (size front - index, mid front index)
                     else (size front, front))
                    = (size front - index, mid front index)).
      { destruct (index =? 0) eqn:E; simpl; [|reflexivity].
        apply Z.eqb_eq in E. subst. f_equal. lia. }
      rewrite Hwd. clear Hwd. cbv beta iota zeta. unfold write_result.
      destruct (room <=? 0) eqn:Hroom.
      * simpl. rewrite !Z.eqb_refl. simpl.
        (split; [exists 0%nat; reflexivity|]); repeat split; auto; try lia.
      * apply Z.leb_gt in Hroom.
        assert (Hw : (Z.min (size front - index) room =? -1) = false)
          by (apply Z.eqb_neq; lia).
        rewrite Hw.
        destruct (Z.min (size front - index) room =? size front - index) eqn:Hfull.
        -- apply Z.eqb_eq in Hfull. rewrite Hfull.
           assert (Hok : queue_ok rest 0).
           { split; [assumption|]. destruct rest as [|f2 r2]; [reflexivity|].
             inversion Hrest; subst. lia. }
           specialize (IH rest 0 Hok).
           destruct (handleInput_loop ws fd rest 0) as [[[q' i'] e'] w'].
           destruct IH as ([n Hn] & Hc & Hq & Hi & Hr).
           split; [exists (S n); exact Hn|].
           split.
           { cbn [written]. rewrite Z.eqb_refl, <- app_assoc, Hc.
             rewrite left_all by (rewrite size_mid; lia).
             unfold unread. simpl concat. rewrite mid_app_l by lia.
             reflexivity. }
           split; [assumption|]. split; [intros before; simpl; apply Hi|].
           cbn [existsb is_refused_write]. rewrite Z.eqb_refl.
           replace (size front - index =? -1) with false
             by (symmetry; apply Z.eqb_neq; lia).
           simpl. exact Hr.
        -- assert (Hfull' := Hfull). apply Z.eqb_neq in Hfull.
           assert (Hok : queue_ok (front :: rest)
                           (index + Z.min (size front - index) room)).
           { split; [assumption|]. lia. }
           specialize (IH (front :: rest) _ Hok).
           destruct (handleInput_loop ws fd (front :: rest) _)
             as [[[q' i'] e'] w'].
           destruct IH as ([n Hn] & Hc & Hq & Hi & Hr).
           split; [exists n; exact Hn|].
           split.
           { cbn [written]. rewrite Z.eqb_refl, <- app_assoc, Hc.
             unfold unread. simpl concat.
             rewrite !mid_app_l by lia. rewrite app_assoc.
             rewrite left_mid_step by lia. reflexivity. }
           split; [assumption|]. split; [intros before; simpl; apply Hi|].
           cbn [existsb is_refused_write]. rewrite Z.eqb_refl, Hw.
           simpl. exact Hr.
Qed.

Lemma handleInput_drains (k : Kernel) (fd : Z) (p : Process) :
  queue_ok (mStdInBuffer p) (mStdInIndex p) ->
  let '(p', effects, _) := handleInput k fd p in
  drains fd (mStdInBuffer p) (mStdInIndex p) p' effects
  /\ mStdIn p' = mStdIn p.
Proof.
  intros Hok. unfold handleInput.
  pose proof (handleInput_loop_spec (k_writes k fd) fd _ _ Hok) as H.
  destruct (handleInput_loop (k_writes k fd) fd (mStdInBuffer p) (mStdInIndex p))
    as [[[q' i'] e'] w'].
  destruct H as (Hn & Hc & Hq & Hi & Hr).
  split; [|reflexivity]. unfold drains. cbn [mStdInBuffer mStdInIndex set_stdin_queue].
  split; [assumption|]. split; [exact Hc|]. split; [assumption|].
  split.
  - intros before. cbn [write_interest]. rewrite Z.eqb_refl, Hi.
    destruct q'; reflexivity.
  - cbn [existsb is_refused_write]. exact Hr.
Qed.

(** C6, as amended.  [write] with bytes that are not empty, on a process
    whose standard input is open, appends the bytes to the queue and drains
    it with writes that do not block; a later notification that the standard
    input can be written drains it again.  A drain pops buffers from the
    front, each when it has been written whole, and moves the index inside
    the buffer in front; the bytes written followed by the bytes still queued
    are the bytes that were queued.  A write that returns a part is followed
    at once by the next write; a write that returns -1 ends the drain and
    registers the standard input for writing.  So after a drain the standard
    input is registered for writing exactly when bytes are still queued, and
    is not registered when the queue is empty. *)
Theorem stdin_write_path (k : Kernel) (data : String) (p : Process) :
  0 < size data ->
  snd (mStdIn p) <> -1 ->
  queue_ok (mStdInBuffer p) (mStdInIndex p) ->
  let fd := snd (mStdIn p) in
  let '(p', effects, _) := write k data p in
  drains fd (mStdInBuffer p ++ [data]) (mStdInIndex p) p' effects
  /\ forall k',
       let '(p'', effects', _) := processCallback k' fd SocketWrite p' in
       drains fd (mStdInBuffer p') (mStdInIndex p') p'' effects'.
Proof.
  intros Hdata Hfd Hok. cbv zeta. unfold write.
  replace (size data =? 0) with false by (symmetry; apply Z.eqb_neq; lia).
  replace (snd (mStdIn p) =? -1) with false by (symmetry; apply Z.eqb_neq; lia).
  cbn [negb andb].
  set (p0 := set_stdin_queue (mStdInBuffer p ++ [data]) (mStdInIndex p) p).
  assert (Hok0 : queue_ok (mStdInBuffer p0) (mStdInIndex p0)).
  { unfold p0. cbn [mStdInBuffer mStdInIndex set_stdin_queue].
    destruct Hok as [Hall Hidx]. split.
    - apply Forall_app. split; [assumption|]. constructor; [lia|constructor].
    - destruct (mStdInBuffer p); simpl; [lia|assumption]. }
  pose proof (handleInput_drains k (snd (mStdIn p)) p0 Hok0) as H.
  destruct (handleInput k (snd (mStdIn p)) p0) as [[p' effects] k1].
  destruct H as [Hd Hin]. split; [exact Hd|].
  intros k'. unfold processCallback.
  change (SocketWrite =? SocketError) with false. cbv iota.
  replace (mStdIn p') with (mStdIn p) by (rewrite Hin; reflexivity).
  rewrite Z.eqb_refl.
  destruct Hd as (_ & _ & Hok' & _).
  pose proof (handleInput_drains k' (snd (mStdIn p)) p' Hok') as H.
  destruct (handleInput k' (snd (mStdIn p)) p') as [[p'' effects'] k2].
  apply H.
Qed.

(** With room for two bytes and then two more, [abcd] goes out in two
    writes, the first of which returns a part; the queue is then empty and
    the standard input is not registered. *)
Example partial_write_trace :
  snd (fst (handleInput two_rooms 5 writer))
  = [UnregisterSocket 5; SysWrite 5 abcd 2; SysWrite 5 ["c"; "d"]%byte 2].
Proof. reflexivity. Qed.

(** A write that returns a part is not always followed by a registration:
    when the next write takes the rest, the queue is empty and the standard
    input is left unregistered. *)
Lemma partial_write_not_registered : ~ registers_on_every_short_write.
Proof.
  intros H.
  specialize (H two_rooms 5 writer abcd 2).
  assert (E : write_interest 5 (snd (fst (handleInput two_rooms 5 writer))) false
              = false) by reflexivity.
  rewrite H in E; [discriminate| | |].
  - split; [repeat constructor|]; simpl; unfold size; simpl; lia.
  - rewrite partial_write_trace. simpl. auto.
  - unfold size. simpl. lia.
Qed.

Lemma stdin_write_path_witness :
  let '(p', effects, _) :=
    write two_rooms abcd (set_mStdIn (4, 5) Process_new) in
  drains 5 ([] ++ [abcd]) 0 p' effects
  /\ forall k',
       let '(p'', effects', _) := processCallback k' 5 SocketWrite p' in
       drains 5 (mStdInBuffer p') (mStdInIndex p') p'' effects'.
Proof.
  apply (stdin_write_path two_rooms abcd (set_mStdIn (4, 5) Process_new)).
  - unfold size. simpl. lia.
  - simpl. lia.
  - split; [constructor|reflexivity].
Defined.

Lemma findCommand_probe_find (env : Env) (command : String)
    (paths : list String) :
  findCommand_probe env command paths
  = match find (qualifies env command) paths with
    | Some dir => snd (resolved env command dir)
    | None => []
    end.
Proof.
  induction paths as [|it rest IH]; simpl; [reflexivity|].
  unfold qualifies at 1.
  destruct (resolved env command it) as [ok ret] eqn:R. simpl.
  destruct (ok && access_rx env ret); [rewrite R; reflexivity|exact IH].
Qed.

Lemma findCommand_spec (env : Env) (command : String) :
  command <> [] ->
  findCommand env command = command_or_none (spec_command env command).
Proof.
  intros Hne. destruct command as [|ch rest]; [contradiction|].
  unfold findCommand, spec_command, begins_with_slash.
  destruct (Byte.eqb ch "/"%byte); [reflexivity|].
  unfold path_entries. destruct (env_PATH env) as [path|]; [|reflexivity].
  rewrite findCommand_probe_find.
  destruct (find _ _); reflexivity.
Qed.

Lemma spec_command_nonempty (env : Env) (command cmd : String) :
  access_rx env [] = false ->
  command <> [] ->
  spec_command env command = Some cmd ->
  cmd <> [].
Proof.
  intros Hacc Hne. unfold spec_command.
  destruct (begins_with_slash command).
  - intros E. inversion E; subst. assumption.
  - destruct (find (qualifies env command) (path_entries env)) as [dir|] eqn:F;
      [|discriminate].
    intros E. inversion E; subst. clear E.
    apply find_some in F. destruct F as [_ Hq]. unfold qualifies in Hq.
    apply andb_true_iff in Hq. destruct Hq as [_ Hq].
    intros Hnil. rewrite Hnil in Hq. congruence.
Qed.

Lemma size_zero {A} (l : list A) : (size l =? 0) = is_empty l.
Proof. destruct l; reflexivity. Qed.

(** C7, as amended.  For a command that is not empty, [findCommand] gives
    the command itself when it begins with ['/'], and otherwise the resolved
    real path of the first entry of the colon-delimited [PATH] that resolves
    and can be read and executed; when there is none (or no [PATH]) the spawn
    returns [Error] with the error string [Command not found], before any
    fork, and when there is one the spawn goes on to the fork.  An empty
    command is not looked up in [PATH]: the spawn fails with
    [Command not found]. *)
Theorem command_resolution (env : Env) (fds : Pipes) (fork : Z)
    (loop noCloseStdIn : bool) (self : ProcPtr) (command : String)
    (p : Process) (reg : Registry) :
  access_rx env [] = false ->
  command <> [] ->
  findCommand env command = command_or_none (spec_command env command)
  /\ (begins_with_slash command = true -> findCommand env command = command)
  /\ (let '(p', reg', effects, result) :=
        startInternal env fds fork loop noCloseStdIn self command p reg in
      match spec_command env command with
      | None =>
          result = Returned Error
          /\ mErrorString p' = "Command not found"%string
          /\ reg' = reg /\ effects = [] /\ mPid p' = mPid p
      | Some cmd =>
          mErrorString p' <> "Command not found"%string /\ mPid p' = fork
      end)
  /\ (let '(p', reg', effects, result) :=
        startInternal env fds fork loop noCloseStdIn self [] p reg in
      result = Returned Error
      /\ mErrorString p' = "Command not found"%string
      /\ reg' = reg /\ effects = [] /\ mPid p' = mPid p).
Proof.
  intros Hacc Hne.
  pose proof (findCommand_spec env command Hne) as Hf.
  split; [exact Hf|]. split.
  { intros Hs. rewrite Hf. unfold spec_command. rewrite Hs. reflexivity. }
  split; [|simpl; repeat split; reflexivity].
  unfold startInternal. rewrite Hf, size_zero.
  destruct (spec_command env command) as [cmd|] eqn:Hs.
  - pose proof (spec_command_nonempty env command cmd Hacc Hne Hs) as Hcmd.
    assert (E : is_empty (command_or_none (Some cmd)) = false)
      by (simpl; destruct cmd; [contradiction|reflexivity]).
    rewrite E.
    set (p1 := set_mPid fork _).
    assert (Hpid : mPid p1 = fork) by reflexivity.
    assert (Herr : mErrorString p1 = EmptyString).
    { unfold p1. cbn [mMode set_mStdErr set_mStdOut set_mStdIn set_mErrorString].
      destruct (mMode p); reflexivity. }
    clearbody p1.
    destruct (mPid p1 =? -1); [simpl; split; [discriminate|assumption]|].
    destruct (mPid p1 =? 0); [rewrite Herr; split; [discriminate|assumption]|].
    destruct (mMode p1).
    + destruct noCloseStdIn.
      * rewrite Herr. split; [discriminate|assumption].
      * unfold closeStdIn. destruct (snd (mStdIn p1) =? -1); simpl;
          rewrite Herr; split; (discriminate || assumption).
    + rewrite Herr. split; [discriminate|assumption].
  - simpl. repeat split; reflexivity.
Qed.

Lemma command_resolution_witness :
  findCommand bin_env ls = command_or_none (spec_command bin_env ls)
  /\ (begins_with_slash ls = true -> findCommand bin_env ls = ls)
  /\ (let '(p', reg', effects, result) :=
        startInternal bin_env no_pipes 5 true false 0%nat ls Process_new [] in
      match spec_command bin_env ls with
      | None =>
          result = Returned Error
          /\ mErrorString p' = "Command not found"%string
          /\ reg' = [] /\ effects = [] /\ mPid p' = mPid Process_new
      | Some cmd =>
          mErrorString p' <> "Command not found"%string /\ mPid p' = 5
      end)
  /\ (let '(p', reg', effects, result) :=
        startInternal bin_env no_pipes 5 true false 0%nat [] Process_new [] in
      result = Returned Error
      /\ mErrorString p' = "Command not found"%string
      /\ reg' = [] /\ effects = [] /\ mPid p' = mPid Process_new).
Proof.
  apply (command_resolution bin_env no_pipes 5 true false 0%nat ls
           Process_new []).
  - reflexivity.
  - discriminate.
Defined.

(** With a [PATH] of [/bin], [ls] resolves to [/bin/ls]. *)
Example ls_resolved :
  findCommand bin_env ls = list_byte_of_string "/bin/ls".
Proof. reflexivity. Qed.

(** The empty command is not looked up: with a [PATH] of [/bin] whose
    entry resolves and can be read and executed, [findCommand] still gives
    the empty path. *)
Lemma empty_command_not_resolved : ~ resolves_as_specified.
Proof.
  intros H. specialize (H bin_env [] eq_refl). vm_compute in H. discriminate.
Qed.

End ProcessFacts.

(** ** The supervisor thread and the pids *)

Module SupervisorFacts.
Import Process Supervisor ListFacts Samples.

Lemma upd_other {A} (f : Z -> A) k v k' : k' <> k -> upd f k v k' = f k'.
Proof.
  intros H. unfold upd. destruct (k' =? k) eqn:E; [|reflexivity].
  apply Z.eqb_eq in E. contradiction.
Qed.

Lemma upd_same {A} (f : Z -> A) k v : upd f k v k = v.
Proof. unfold upd. rewrite Z.eqb_refl. reflexivity. Qed.

Lemma registry_ok_tail pid process rest :
  registry_ok ((pid, process) :: rest) -> registry_ok rest.
Proof. simpl. tauto. Qed.

Lemma registry_ok_head_fresh pid process rest :
  registry_ok ((pid, process) :: rest) ->
  existsb (fun entry => fst entry =? pid) rest = false.
Proof.
  simpl. intros (_ & Hlt & _).
  destruct (existsb _ rest) eqn:E; [|reflexivity].
  apply existsb_exists in E. destruct E as (e & Hin & He).
  apply Z.eqb_eq in He. specialize (Hlt e Hin). lia.
Qed.

Lemma walk_spec (entries : Registry) :
  forall reg c,
    registry_ok entries ->
    let '(reg', c', actions) := walk entries reg c in
    reg' = filter (fun entry => negb (collected c entries (fst entry))) reg
    /\ actions = flat_map (entry_actions c) entries
    /\ forall pid, c' pid = if collected c entries pid then None else c pid.
Proof.
  induction entries as [|[pid process] rest IH]; intros reg c Hok.
  - simpl. split; [|split; [reflexivity|intros; reflexivity]].
    induction reg as [|e reg IHr]; simpl; [reflexivity|]. f_equal. exact IHr.
  - pose proof (registry_ok_head_fresh pid process rest Hok) as Hfresh.
    pose proof (registry_ok_tail pid process rest Hok) as Hrest.
    assert (Hpos : 0 < pid) by (simpl in Hok; tauto).
    cbn [walk]. unfold waitpid.
    assert (Hcoll : forall x,
               collected c ((pid, process) :: rest) x
               = ((pid =? x) && reapable c pid) || collected c rest x).
    { intros x. unfold collected. cbn [existsb fst].
      destruct (pid =? x) eqn:E; simpl; [|reflexivity].
      apply Z.eqb_eq in E. subst x. rewrite Hfresh. simpl.
      rewrite orb_false_r. reflexivity. }
    destruct (c pid) as [[|status]|] eqn:Hc.
    + (* still running *)
      cbn [Z.eqb orb]. specialize (IH reg c Hrest).
      destruct (walk rest reg c) as [[reg' c'] actions].
      destruct IH as (Hr & Ha & Hch).
      assert (Hno : reapable c pid = false) by (unfold reapable; rewrite Hc; reflexivity).
      split; [|split].
      * rewrite Hr. apply filter_ext. intros e. rewrite Hcoll, Hno, andb_false_r.
        reflexivity.
      * cbn [flat_map]. unfold entry_actions at 1. cbn [fst]. rewrite Hc, Ha.
        reflexivity.
      * intros x. rewrite Hch, Hcoll, Hno, andb_false_r. reflexivity.
    + (* terminated *)
      replace ((pid =? 0) || (pid =? -1)) with false
        by (symmetry; apply orb_false_iff; split; apply Z.eqb_neq; lia).
      specialize (IH (registry_erase pid reg) (upd c pid None) Hrest).
      destruct (walk rest (registry_erase pid reg) (upd c pid None))
        as [[reg' c'] actions].
      destruct IH as (Hr & Ha & Hch).
      assert (Hyes : reapable c pid = true) by (unfold reapable; rewrite Hc; reflexivity).
      assert (Hsame : forall x,
                 collected (upd c pid None) rest x = collected c rest x).
      { intros x. unfold collected.
        destruct (existsb (fun entry => fst entry =? x) rest) eqn:E;
          [|reflexivity].
        simpl. unfold reapable. rewrite upd_other; [reflexivity|].
        intros ->. rewrite Hfresh in E. discriminate. }
      split; [|split].
      * rewrite Hr. unfold registry_erase. rewrite filter_filter.
        apply filter_ext. intros e. rewrite Hcoll, Hsame, Hyes, andb_true_r.
        rewrite negb_orb. f_equal. rewrite Z.eqb_sym. reflexivity.
      * cbn [flat_map]. unfold entry_actions at 1. cbn [fst snd]. rewrite Hc.
        unfold exit_code. rewrite Ha. f_equal.
        apply flat_map_ext_in. intros e He. unfold entry_actions.
        rewrite upd_other; [reflexivity|].
        simpl in Hok. destruct Hok as (_ & Hlt & _). specialize (Hlt e He). lia.
      * intros x. rewrite Hch, Hcoll, Hsame, Hyes, andb_true_r.
        destruct (pid =? x) eqn:E; simpl.
        -- apply Z.eqb_eq in E. subst x. rewrite upd_same.
           destruct (collected c rest pid); reflexivity.
        -- apply Z.eqb_neq in E. rewrite upd_other by lia. reflexivity.
    + (* no such child *)
      cbn [Z.eqb orb]. specialize (IH reg c Hrest).
      destruct (walk rest reg c) as [[reg' c'] actions].
      destruct IH as (Hr & Ha & Hch).
      assert (Hno : reapable c pid = false) by (unfold reapable; rewrite Hc; reflexivity).
      split; [|split].
      * rewrite Hr. apply filter_ext. intros e. rewrite Hcoll, Hno, andb_false_r.
        reflexivity.
      * cbn [flat_map]. unfold entry_actions at 1. cbn [fst]. rewrite Hc, Ha.
        reflexivity.
      * intros x. rewrite Hch, Hcoll, Hno, andb_false_r. reflexivity.
Qed.

(** C2.  The byte that the signal handler writes is ['c'] and the byte that
    stops the thread is ['s'].  On ['s'] the supervisor thread exits with
    nothing done.  On ['c'] it locks the registry, walks it in the order of
    the pids calling [waitpid] on each, unlocks the registry at the end and
    reads the next byte.  For each pid whose child has terminated it erases
    the entry, unlocks the registry, calls [finish] on the process with the
    exit status when the child exited and -1 otherwise, and locks the registry
    again; the entries whose child runs, or for which there is no child,
    stay.  The children collected are gone from the kernel; the others are
    as they were. *)
Theorem supervisor_thread_reaps (pipe : list byte) (reg : Registry)
    (c : Children) :
  registry_ok reg ->
  wakeup SigStop = "s"%byte
  /\ processSignalHandler = "c"%byte
  /\ run ("s"%byte :: pipe) reg c = (reg, c, [], ThreadExited)
  /\ (let '(reg1, c1, actions) := walk reg reg c in
      reg1 = filter (fun entry => negb (reapable c (fst entry))) reg
      /\ actions = flat_map (entry_actions c) reg
      /\ (forall pid, c1 pid = if collected c reg pid then None else c pid)
      /\ run ("c"%byte :: pipe) reg c
         = (let '(reg2, c2, actions2, state) := run pipe reg1 c1 in
            (reg2, c2,
             [LockRegistry] ++ actions ++ [UnlockRegistry] ++ actions2,
             state))).
Proof.
  intros Hok. split; [reflexivity|]. split; [reflexivity|].
  split; [reflexivity|].
  pose proof (walk_spec reg reg c Hok) as H.
  cbn [run]. change (Byte.eqb "c" "s") with false. cbv iota.
  destruct (walk reg reg c) as [[reg1 c1] actions].
  destruct H as (Hr & Ha & Hc).
  split; [|split; [exact Ha|split; [exact Hc|reflexivity]]].
  rewrite Hr. apply filter_ext_in. intros e He. unfold collected.
  replace (existsb (fun entry => fst entry =? fst e) reg) with true;
    [reflexivity|].
  symmetry. apply existsb_exists. exists e. split; [exact He|apply Z.eqb_refl].
Qed.

Lemma exit_code_exited (n : Z) : 0 <= n <= 255 -> exit_code (n * 256) = n.
Proof.
  intros H. unfold exit_code, WIFEXITED, WEXITSTATUS.
  change 256 with (2 ^ 8). rewrite <- Z.shiftl_mul_pow2 by lia.
  assert (E1 : Z.land (Z.shiftl n 8) 127 = 0).
  { apply Z.bits_inj'. intros i Hi. rewrite Z.land_spec, Z.bits_0.
    destruct (Z_lt_ge_dec i 8).
    - rewrite Z.shiftl_spec_low by lia. reflexivity.
    - change 127 with (Z.ones 7). rewrite Z.ones_spec_high by lia.
      apply andb_false_r. }
  rewrite E1. cbn [Z.eqb].
  change 65280 with (Z.shiftl (Z.ones 8) 8).
  rewrite <- Z.shiftl_land, Z.shiftr_shiftl_l by lia.
  change (8 - 8) with 0. rewrite Z.shiftl_0_r, Z.land_ones by lia.
  apply Z.mod_small. change (2 ^ 8) with 256. lia.
Qed.

Lemma supervisor_thread_reaps_witness :
  wakeup SigStop = "s"%byte
  /\ processSignalHandler = "c"%byte
  /\ run ("s"%byte :: []) two_entries one_terminated
     = (two_entries, one_terminated, [], ThreadExited)
  /\ (let '(reg1, c1, actions) := walk two_entries two_entries one_terminated in
      reg1 = filter (fun entry => negb (reapable one_terminated (fst entry)))
               two_entries
      /\ actions = flat_map (entry_actions one_terminated) two_entries
      /\ (forall pid,
             c1 pid = if collected one_terminated two_entries pid then None
                      else one_terminated pid)
      /\ run ("c"%byte :: []) two_entries one_terminated
         = (let '(reg2, c2, actions2, state) := run [] reg1 c1 in
            (reg2, c2,
             [LockRegistry] ++ actions ++ [UnlockRegistry] ++ actions2,
             state))).
Proof.
  apply (supervisor_thread_reaps [] two_entries one_terminated).
  simpl. repeat split; try lia.
  intros e [E|[]]. subst e. simpl. lia.
Defined.

(** Of two children, one that has exited with the code 3 and one that runs,
    the first is collected and its process finished with 3; the entry of the
    second stays. *)
Example one_child_collected :
  let '(reg, _, actions, state) :=
    run ("c"%byte :: []) two_entries one_terminated in
  reg = [(6, 1%nat)]
  /\ actions
     = [LockRegistry; Waitpid 5 5; Erase 5; UnlockRegistry; Finish 0%nat 3;
        LockRegistry; Waitpid 6 0; UnlockRegistry]
  /\ state = WaitingForByte.
Proof. repeat split. Qed.

Lemma registry_ok_positive reg pid q :
  registry_ok reg -> In (pid, q) reg -> 0 < pid.
Proof.
  induction reg as [|[pid' q'] rest IH]; simpl; [tauto|].
  intros (Hpos & _ & Hrest) [E|Hin].
  - inversion E; subst. assumption.
  - apply IH; assumption.
Qed.

Lemma registry_ok_unique reg pid q q' :
  registry_ok reg -> In (pid, q) reg -> In (pid, q') reg -> q = q'.
Proof.
  induction reg as [|[pid0 q0] rest IH]; simpl; [tauto|].
  intros (_ & Hlt & Hrest) [E|Hin] [E'|Hin'].
  - congruence.
  - inversion E; subst. specialize (Hlt _ Hin'). simpl in Hlt. lia.
  - inversion E'; subst. specialize (Hlt _ Hin). simpl in Hlt. lia.
  - apply IH; assumption.
Qed.

Lemma registry_ok_filter (f : Z * ProcPtr -> bool) reg :
  registry_ok reg -> registry_ok (filter f reg).
Proof.
  induction reg as [|[pid q] rest IH]; simpl; [tauto|].
  intros (Hpos & Hlt & Hrest). destruct (f (pid, q)); simpl.
  - split; [assumption|]. split; [|apply IH; assumption].
    intros e He. apply filter_In in He. apply Hlt. tauto.
  - apply IH. assumption.
Qed.

Lemma registry_insert_in pid process reg e :
  In e (registry_insert pid process reg) ->
  e = (pid, process) \/ In e reg.
Proof.
  induction reg as [|[pid' q'] rest IH]; simpl.
  - intros [H|[]]; auto.
  - destruct (pid <? pid'); [simpl; intuition auto|].
    destruct (pid =? pid'); simpl; [intuition auto|].
    intros [H|H]; [auto|]. destruct (IH H); auto.
Qed.

Lemma registry_insert_new pid process reg :
  In (pid, process) (registry_insert pid process reg).
Proof.
  induction reg as [|[pid' q'] rest IH]; simpl; [auto|].
  destruct (pid <? pid'); [simpl; auto|].
  destruct (pid =? pid'); simpl; auto.
Qed.

Lemma registry_insert_old pid process reg e :
  In e reg -> fst e <> pid -> In e (registry_insert pid process reg).
Proof.
  induction reg as [|[pid' q'] rest IH]; simpl; [tauto|].
  intros [E|Hin] Hne.
  - subst e. simpl in Hne. destruct (pid <? pid'); [simpl; auto|].
    destruct (pid =? pid') eqn:Q; [apply Z.eqb_eq in Q; lia|simpl; auto].
  - destruct (pid <? pid'); [simpl; auto|].
    destruct (pid =? pid'); simpl; auto.
Qed.

Lemma registry_insert_ok pid process reg :
  0 < pid -> registry_ok reg -> registry_ok (registry_insert pid process reg).
Proof.
  intros Hpos. induction reg as [|[pid' q'] rest IH]; simpl.
  - intros _. split; [assumption|]. split; [intros e []|exact I].
  - intros (Hpos' & Hlt & Hrest).
    destruct (pid <? pid') eqn:L.
    + apply Z.ltb_lt in L. simpl. split; [assumption|].
      split; [|tauto]. intros e [E|He].
      * subst e. simpl. assumption.
      * specialize (Hlt e He). lia.
    + apply Z.ltb_ge in L. destruct (pid =? pid') eqn:Q.
      * apply Z.eqb_eq in Q. subst pid'. simpl. tauto.
      * apply Z.eqb_neq in Q. simpl. split; [assumption|].
        split; [|apply IH; assumption].
        intros e He. apply registry_insert_in in He. destruct He as [E|He].
        -- subst e. simpl. lia.
        -- apply Hlt. assumption.
Qed.

Lemma heap_set_same h q p : heap_set h q p q = p.
Proof. unfold heap_set. rewrite Nat.eqb_refl. reflexivity. Qed.

Lemma heap_set_other h q p q' : q' <> q -> heap_set h q p q' = h q'.
Proof.
  intros H. unfold heap_set. destruct (Nat.eqb q' q) eqn:E; [|reflexivity].
  apply Nat.eqb_eq in E. contradiction.
Qed.

Lemma finish_pid k code p : mPid (fst (fst (finish k code p))) = -1.
Proof.
  unfold finish.
  destruct (closeStdIn _) as [pin ein] eqn:Ein.
  assert (Hpin : mPid pin = -1).
  { unfold closeStdIn in Ein. destruct (snd (mStdIn _) =? -1);
      inversion Ein; reflexivity. }
  destruct (mMode pin).
  - destruct (sys_write k (snd (mSync pin)) 1). simpl. assumption.
  - unfold handleStdOut, handleStdErr.
    destruct (handleOutput _ _ _ _ ReadyReadStdOut) as [[[b1 i1] e1] r1].
    cbn [mStdErr set_stdout mStdErrBuffer mStdErrIndex fst snd].
    destruct (handleOutput _ _ _ _ ReadyReadStdErr) as [[[b2 i2] e2] r2].
    unfold closeStdOut.
    destruct (fst (mStdOut _) =? -1); unfold closeStdErr;
      cbn [mStdErr set_mStdOut set_stderr set_stdout fst snd];
      destruct (fst (mStdErr pin) =? -1); simpl; assumption.
Qed.

Lemma finish_calls_spec (actions : list Action) :
  forall h k q,
    let h' := fst (finish_calls actions h k) in
    (existsb (finishes q) actions = true -> mPid (h' q) = -1)
    /\ (existsb (finishes q) actions = false -> h' q = h q).
Proof.
  induction actions as [|a rest IH]; intros h k q; simpl.
  - split; [discriminate|reflexivity].
  - destruct a as [| |pid p|pid|process ret]; try apply IH.
    pose proof (finish_pid k ret (h process)) as Hfin.
    destruct (finish k ret (h process)) as [[p e] k1]. simpl in Hfin.
    specialize (IH (heap_set h process p) k1 q). simpl in IH.
    destruct IH as [IH1 IH2]. simpl.
    destruct (existsb (finishes q) rest) eqn:E.
    + rewrite orb_true_r. split; [intros _; apply IH1; reflexivity|discriminate].
    + rewrite orb_false_r. split.
      * intros Hq. apply Nat.eqb_eq in Hq. subst process.
        rewrite IH2 by reflexivity. rewrite heap_set_same. assumption.
      * intros Hq. apply Nat.eqb_neq in Hq.
        rewrite IH2 by reflexivity. apply heap_set_other. congruence.
Qed.

Lemma finishes_entries c reg q :
  existsb (finishes q) (flat_map (entry_actions c) reg)
  = existsb (fun entry => Nat.eqb (snd entry) q && reapable c (fst entry)) reg.
Proof.
  induction reg as [|[pid process] rest IH]; simpl; [reflexivity|].
  rewrite existsb_app, IH. f_equal.
  unfold entry_actions, reapable. simpl.
  destruct (c pid) as [[|status]|]; simpl;
    rewrite ?orb_false_r, ?andb_true_r, ?andb_false_r; reflexivity.
Qed.

Lemma startInternal_pid env fds fork loop ncs self command p reg :
  let '(p', reg', _, _) :=
    startInternal env fds fork loop ncs self command p reg in
  if size (findCommand env command) =? 0
  then mPid p' = mPid p /\ reg' = reg
  else mPid p' = fork
       /\ reg' = if (fork =? -1) || (fork =? 0) then reg
                 else addPid fork self reg.
Proof.
  unfold startInternal.
  destruct (size (findCommand env command) =? 0); [split; reflexivity|].
  set (p1 := set_mPid fork _).
  assert (Hpid : mPid p1 = fork) by reflexivity.
  clearbody p1. rewrite Hpid.
  destruct (fork =? -1); [simpl; auto|].
  destruct (fork =? 0); [simpl; auto|].
  destruct (mMode p1).
  - destruct ncs; [simpl; auto|].
    unfold closeStdIn. destruct (snd (mStdIn p1) =? -1); simpl; auto.
  - simpl. auto.
Qed.

Lemma handleInput_pid k fd p : mPid (fst (fst (handleInput k fd p))) = mPid p.
Proof.
  unfold handleInput.
  destruct (handleInput_loop _ _ _ _) as [[[q i] e] w]. reflexivity.
Qed.

Lemma handleStdOut_pid k p : mPid (fst (fst (handleStdOut k p))) = mPid p.
Proof.
  unfold handleStdOut.
  destruct (handleOutput _ _ _ _ _) as [[[b i] e] r]. reflexivity.
Qed.

Lemma handleStdErr_pid k p : mPid (fst (fst (handleStdErr k p))) = mPid p.
Proof.
  unfold handleStdErr.
  destruct (handleOutput _ _ _ _ _) as [[[b i] e] r]. reflexivity.
Qed.

Lemma write_pid k data p : mPid (fst (fst (write k data p))) = mPid p.
Proof.
  unfold write. destruct (_ && _); [|reflexivity].
  rewrite handleInput_pid. reflexivity.
Qed.

Lemma processCallback_pid k fd mode p :
  mPid (fst (fst (processCallback k fd mode p))) = mPid p.
Proof.
  unfold processCallback.
  destruct (mode =? SocketError); [reflexivity|].
  destruct (fd =? snd (mStdIn p)); [apply handleInput_pid|].
  destruct (fd =? fst (mStdOut p)); [apply handleStdOut_pid|].
  destruct (fd =? fst (mStdErr p)); [apply handleStdErr_pid|reflexivity].
Qed.

(** A step that changes one process and nothing of its pid, the registry or
    the children keeps the registry and the pids in agreement. *)
Lemma registry_inv_same_pid s q p k :
  registry_inv s ->
  mPid p = mPid (heap s q) ->
  registry_inv (mkSystem (sProcesses s) (children s) (heap_set (heap s) q p) k).
Proof.
  intros (Hok & H1 & H2) Hp. unfold registry_inv. simpl.
  split; [assumption|]. split.
  - intros pid q' Hin. destruct (H1 pid q' Hin) as [Hq Hc].
    split; [|assumption].
    destruct (Nat.eq_dec q' q) as [->|Hne].
    + rewrite heap_set_same. congruence.
    + rewrite heap_set_other by assumption. assumption.
  - intros q'. destruct (Nat.eq_dec q' q) as [->|Hne].
    + rewrite heap_set_same, Hp. apply H2.
    + rewrite heap_set_other by assumption. apply H2.
Qed.

Lemma registry_inv_spawn s self p reg' env command fork :
  registry_inv s ->
  fork_ok s fork ->
  mPid (heap s self) = -1 ->
  (if size (findCommand env command) =? 0
   then mPid p = mPid (heap s self) /\ reg' = sProcesses s
   else mPid p = fork
        /\ reg' = if (fork =? -1) || (fork =? 0) then sProcesses s
                  else addPid fork self (sProcesses s)) ->
  registry_inv
    (mkSystem reg' (forked env command fork (children s))
       (heap_set (heap s) self p) (kernel s)).
Proof.
  intros Hinv Hfork Hidle Hspawn. unfold forked.
  destruct (size (findCommand env command) =? 0).
  - destruct Hspawn as [Hp ->]. simpl.
    apply (registry_inv_same_pid s self p (kernel s) Hinv Hp).
  - destruct Hspawn as [Hp ->]. cbn [negb andb].
    destruct Hfork as [->|[Hpos Hnone]].
    + simpl. apply (registry_inv_same_pid s self p (kernel s) Hinv).
      congruence.
    + replace ((fork =? -1) || (fork =? 0)) with false
        by (symmetry; apply orb_false_iff; split; apply Z.eqb_neq; lia).
      replace (0 <? fork) with true by (symmetry; apply Z.ltb_lt; assumption).
      destruct Hinv as (Hok & H1 & H2). unfold registry_inv, addPid. simpl.
      assert (Hself : forall pid, ~ In (pid, self) (sProcesses s)).
      { intros pid Hin. destruct (H1 pid self Hin) as [E _].
        pose proof (registry_ok_positive _ _ _ Hok Hin). lia. }
      assert (Hkey : forall pid q, In (pid, q) (sProcesses s) -> pid <> fork).
      { intros pid q Hin ->. destruct (H1 fork q Hin) as [_ E]. contradiction. }
      split; [apply registry_insert_ok; assumption|]. split.
      * intros pid q Hin. apply registry_insert_in in Hin.
        destruct Hin as [E|Hin].
        -- injection E as -> ->. rewrite heap_set_same, upd_same.
           split; [exact Hp|discriminate].
        -- destruct (H1 pid q Hin) as [Hq Hc].
           assert (q <> self) by (intros ->; apply (Hself pid); assumption).
           rewrite heap_set_other by assumption.
           rewrite upd_other by (apply (Hkey pid q Hin)). auto.
      * intros q. destruct (Nat.eq_dec q self) as [->|Hne].
        -- rewrite heap_set_same, Hp. intros _. apply registry_insert_new.
        -- rewrite heap_set_other by assumption. intros Hq.
           apply registry_insert_old; [apply H2; assumption|].
           simpl. apply (Hkey _ q). apply H2. assumption.
Qed.

Lemma registry_inv_supervisor s :
  registry_inv s -> registry_inv (step s OpSupervisor).
Proof.
  intros (Hok & H1 & H2). cbn [step].
  pose proof (walk_spec (sProcesses s) (sProcesses s) (children s) Hok) as Hw.
  destruct (walk (sProcesses s) (sProcesses s) (children s))
    as [[reg' c'] actions].
  destruct Hw as (Hr & Ha & Hc).
  pose proof (finish_calls_spec actions (heap s) (kernel s)) as Hf.
  destruct (finish_calls actions (heap s) (kernel s)) as [h' k'].
  simpl in Hf. unfold registry_inv. simpl.
  assert (Hfin : forall q,
             existsb (finishes q) actions = true
             <-> exists pid, In (pid, q) (sProcesses s)
                             /\ reapable (children s) pid = true).
  { intros q. rewrite Ha, finishes_entries. rewrite existsb_exists. split.
    - intros ([pid q'] & Hin & Hb). simpl in Hb.
      apply andb_true_iff in Hb. destruct Hb as [Hq Hre].
      apply Nat.eqb_eq in Hq. subst q'. exists pid. auto.
    - intros (pid & Hin & Hre). exists (pid, q). split; [assumption|].
      simpl. rewrite Nat.eqb_refl, Hre. reflexivity. }
  assert (Hreg : forall pid q,
             In (pid, q) reg'
             <-> In (pid, q) (sProcesses s)
                 /\ reapable (children s) pid = false).
  { intros pid q. rewrite Hr, filter_In. simpl. unfold collected.
    split; intros [Hin Hb]; (split; [assumption|]).
    - apply negb_true_iff in Hb. apply andb_false_iff in Hb.
      destruct Hb as [Hb|Hb]; [|assumption].
      assert (existsb (fun entry => fst entry =? pid) (sProcesses s) = true).
      { apply existsb_exists. exists (pid, q). split; [assumption|].
        apply Z.eqb_refl. }
      congruence.
    - rewrite Hb, andb_false_r. reflexivity. }
  split; [rewrite Hr; apply registry_ok_filter; assumption|]. split.
  - intros pid q Hin. apply Hreg in Hin. destruct Hin as [Hin Hre].
    destruct (H1 pid q Hin) as [Hq Hch].
    assert (Hnot : existsb (finishes q) actions = false).
    { destruct (existsb (finishes q) actions) eqn:E; [|reflexivity].
      apply Hfin in E. destruct E as (pid0 & Hin0 & Hre0).
      destruct (H1 pid0 q Hin0) as [Hq0 _]. congruence. }
    split.
    + destruct (Hf q) as [_ Hsame]. rewrite Hsame by assumption. assumption.
    + rewrite Hc. unfold collected. rewrite Hre, andb_false_r. assumption.
  - intros q Hq.
    assert (Hnot : existsb (finishes q) actions = false).
    { destruct (existsb (finishes q) actions) eqn:E; [|reflexivity].
      destruct (Hf q) as [Hclear _]. specialize (Hclear E). contradiction. }
    destruct (Hf q) as [_ Hsame]. rewrite Hsame in * by assumption.
    apply Hreg. split; [apply H2; assumption|].
    destruct (reapable (children s) (mPid (heap s q))) eqn:Hre; [|reflexivity].
    assert (E : existsb (finishes q) actions = true).
    { apply Hfin. exists (mPid (heap s q)). split; [apply H2; assumption|assumption]. }
    congruence.
Qed.

Lemma registry_inv_step s op :
  registry_inv s -> op_possible s op -> op_idle s op ->
  registry_inv (step s op).
Proof.
  intros Hinv Hposs Hidle.
  destruct op as [self env fds fork command
                 |self env fds fork ncs command
                 |pid status| |self data|self|self|self fd mode|self].
  - cbn [step]. unfold start.
    pose proof (startInternal_pid env fds fork true false self command
                  (set_mMode Async (heap s self)) (sProcesses s)) as H.
    destruct (startInternal _ _ _ _ _ _ _ _ _) as [[[p reg] e] r].
    apply registry_inv_spawn; assumption.
  - cbn [step]. unfold exec.
    pose proof (startInternal_pid env fds fork true ncs self command
                  (set_mMode Sync (heap s self)) (sProcesses s)) as H.
    destruct (startInternal _ _ _ _ _ _ _ _ _) as [[[p reg] e] r].
    apply registry_inv_spawn; assumption.
  - cbn [step]. destruct (children s pid) as [[|st]|] eqn:E; try assumption.
    destruct Hinv as (Hok & H1 & H2). unfold registry_inv. simpl.
    split; [assumption|]. split; [|assumption].
    intros pid' q Hin. destruct (H1 pid' q Hin) as [Hq Hc].
    split; [assumption|]. unfold upd. destruct (pid' =? pid); [discriminate|assumption].
  - apply registry_inv_supervisor. assumption.
  - cbn [step]. pose proof (write_pid (kernel s) data (heap s self)) as H.
    destruct (write _ _ _) as [[p e] k]. simpl in H.
    apply registry_inv_same_pid; assumption.
  - cbn [step]. apply registry_inv_same_pid; [assumption|reflexivity].
  - cbn [step]. apply registry_inv_same_pid; [assumption|reflexivity].
  - cbn [step].
    pose proof (processCallback_pid (kernel s) fd mode (heap s self)) as H.
    destruct (processCallback _ _ _ _) as [[p e] k]. simpl in H.
    apply registry_inv_same_pid; assumption.
  - assumption.
Qed.

Lemma registry_inv_steps (ops : list Op) :
  forall s,
    registry_inv s -> possible s ops -> spawned_when_idle s ops ->
    registry_inv (steps s ops).
Proof.
  induction ops as [|op rest IH]; intros s Hinv Hposs Hidle; [assumption|].
  simpl in Hposs, Hidle. destruct Hposs as [Hp Hps]. destruct Hidle as [Hi His].
  apply IH; [apply registry_inv_step|..]; assumption.
Qed.

Lemma registry_inv_new k : registry_inv (System_new k).
Proof.
  unfold registry_inv. simpl. split; [exact I|]. split.
  - intros pid q [].
  - intros q H. contradiction H. reflexivity.
Qed.

Lemma registry_inv_tracks s : registry_inv s -> pid_tracks_lifecycle s.
Proof.
  intros (Hok & H1 & H2) q. unfold live. split.
  - intros Hpid. destruct (existsb _ _) eqn:E; [|reflexivity].
    apply existsb_exists in E. destruct E as ([pid q'] & Hin & Hq).
    simpl in Hq. apply Nat.eqb_eq in Hq. subst q'.
    destruct (H1 pid q Hin) as [Hp _].
    pose proof (registry_ok_positive _ _ _ Hok Hin). lia.
  - intros Hlive. destruct (Z.eq_dec (mPid (heap s q)) (-1)) as [E|E];
      [assumption|].
    specialize (H2 q E).
    assert (existsb (fun entry => Nat.eqb (snd entry) q) (sProcesses s) = true).
    { apply existsb_exists. eexists. split; [exact H2|]. simpl.
      apply Nat.eqb_refl. }
    congruence.
Qed.

Lemma only_finish_clears s op q :
  op_idle s op -> clears_pid s op q -> op = OpSupervisor.
Proof.
  intros Hidle [Hbefore Hafter].
  destruct op as [self env fds fork command
                 |self env fds fork ncs command
                 |pid status| |self data|self|self|self fd mode|self];
    try reflexivity; exfalso; cbn [step] in Hafter.
  - unfold start in Hafter.
    destruct (startInternal _ _ _ _ _ _ _ _ _) as [[[p reg] e] r].
    simpl in Hafter, Hidle. destruct (Nat.eq_dec q self) as [->|Hne].
    + contradiction.
    + rewrite heap_set_other in Hafter by assumption. contradiction.
  - unfold exec in Hafter.
    destruct (startInternal _ _ _ _ _ _ _ _ _) as [[[p reg] e] r].
    simpl in Hafter, Hidle. destruct (Nat.eq_dec q self) as [->|Hne].
    + contradiction.
    + rewrite heap_set_other in Hafter by assumption. contradiction.
  - destruct (children s pid) as [[|st]|]; simpl in Hafter; contradiction.
  - pose proof (write_pid (kernel s) data (heap s self)) as H.
    destruct (write _ _ _) as [[p e] k]. simpl in H, Hafter.
    destruct (Nat.eq_dec q self) as [->|Hne].
    + rewrite heap_set_same in Hafter. congruence.
    + rewrite heap_set_other in Hafter by assumption. contradiction.
  - simpl in Hafter. destruct (Nat.eq_dec q self) as [->|Hne].
    + rewrite heap_set_same in Hafter. simpl in Hafter. contradiction.
    + rewrite heap_set_other in Hafter by assumption. contradiction.
  - simpl in Hafter. destruct (Nat.eq_dec q self) as [->|Hne].
    + rewrite heap_set_same in Hafter. simpl in Hafter. contradiction.
    + rewrite heap_set_other in Hafter by assumption. contradiction.
  - pose proof (processCallback_pid (kernel s) fd mode (heap s self)) as H.
    destruct (processCallback _ _ _ _) as [[p e] k]. simpl in H, Hafter.
    destruct (Nat.eq_dec q self) as [->|Hne].
    + rewrite heap_set_same in Hafter. congruence.
    + rewrite heap_set_other in Hafter by assumption. contradiction.
  - contradiction.
Qed.

Lemma start_sets_pid s self env fds fork command :
  findCommand env command <> [] ->
  mPid (heap (step s (OpStart self env fds fork command)) self) = fork.
Proof.
  intros Hcmd. cbn [step]. unfold start.
  pose proof (startInternal_pid env fds fork true false self command
                (set_mMode Async (heap s self)) (sProcesses s)) as H.
  destruct (startInternal _ _ _ _ _ _ _ _ _) as [[[p reg] e] r].
  simpl. rewrite heap_set_same.
  destruct (size (findCommand env command) =? 0) eqn:E.
  - apply Z.eqb_eq in E. destruct (findCommand env command);
      [contradiction|unfold size in E; simpl in E; lia].
  - tauto.
Qed.

(** After the two starts the pid is -1 while the child 5 of the first start
    is still in the registry. *)
Example start_twice_state :
  mPid (heap (steps (System_new idle_kernel) start_twice) 0%nat) = -1
  /\ sProcesses (steps (System_new idle_kernel) start_twice) = [(5, 0%nat)].
Proof. split; reflexivity. Qed.

(** A second start on a process whose child runs, with a fork that fails,
    leaves the pid at -1 while the registry still has the entry of the
    child. *)
Lemma second_start_loses_pid : ~ pid_always_tracks_lifecycle.
Proof.
  intros H. specialize (H idle_kernel start_twice).
  assert (Hp : possible (System_new idle_kernel) start_twice).
  { simpl. split; [right; split; [lia|reflexivity]|].
    split; [left; reflexivity|exact I]. }
  destruct (H Hp 0%nat) as [Hlive _].
  specialize (Hlive eq_refl). discriminate.
Qed.

(** C9, as amended.  The pid is -1 at construction.  As long as a process
    is started or executed only while its pid is -1, after any steps of the
    program the pid of a process is -1 exactly when the registry has no entry
    for it, that is, when it has not been spawned or its child has been
    collected; a process with a pid has the entry of that pid in the registry;
    a start whose command is found leaves the value that [fork] returned as
    the pid; and the only step that takes a pid to -1 is a pass of the
    supervisor thread, which calls [finish]. *)
Theorem pid_tracks_lifecycle_when_spawned_idle (k : Kernel) (ops : list Op) :
  possible (System_new k) ops ->
  spawned_when_idle (System_new k) ops ->
  mPid Process_new = -1
  /\ pid_tracks_lifecycle (steps (System_new k) ops)
  /\ (forall q,
         mPid (heap (steps (System_new k) ops) q) <> -1 ->
         In (mPid (heap (steps (System_new k) ops) q), q)
            (sProcesses (steps (System_new k) ops)))
  /\ (forall self env fds fork command,
         findCommand env command <> [] ->
         mPid (heap (step (steps (System_new k) ops)
                       (OpStart self env fds fork command)) self) = fork)
  /\ (forall op q,
         op_idle (steps (System_new k) ops) op ->
         clears_pid (steps (System_new k) ops) op q ->
         op = OpSupervisor).
Proof.
  intros Hposs Hidle.
  pose proof (registry_inv_steps ops (System_new k) (registry_inv_new k)
                Hposs Hidle) as Hinv.
  split; [reflexivity|].
  split; [apply registry_inv_tracks; assumption|].
  split; [destruct Hinv as (_ & _ & H2); exact H2|].
  split; [intros; apply start_sets_pid; assumption|].
  intros op q. apply only_finish_clears.
Qed.

Lemma pid_tracks_lifecycle_when_spawned_idle_witness :
  mPid Process_new = -1
  /\ pid_tracks_lifecycle (steps (System_new idle_kernel) start_and_reap)
  /\ (forall q,
         mPid (heap (steps (System_new idle_kernel) start_and_reap) q) <> -1 ->
         In (mPid (heap (steps (System_new idle_kernel) start_and_reap) q), q)
            (sProcesses (steps (System_new idle_kernel) start_and_reap)))
  /\ (forall self env fds fork command,
         findCommand env command <> [] ->
         mPid (heap (step (steps (System_new idle_kernel) start_and_reap)
                       (OpStart self env fds fork command)) self) = fork)
  /\ (forall op q,
         op_idle (steps (System_new idle_kernel) start_and_reap) op ->
         clears_pid (steps (System_new idle_kernel) start_and_reap) op q ->
         op = OpSupervisor).
Proof.
  apply (pid_tracks_lifecycle_when_spawned_idle idle_kernel start_and_reap).
  - simpl. split; [right; split; [lia|reflexivity]|]. auto.
  - simpl. split; [reflexivity|]. auto.
Defined.

(** The process is started, its child exits with the code 3 and is
    collected: the pid is -1 again, the return code is 3 and the registry is
    empty. *)
Example start_and_reap_state :
  mPid (heap (steps (System_new idle_kernel) start_and_reap) 0%nat) = -1
  /\ mReturn (heap (steps (System_new idle_kernel) start_and_reap) 0%nat) = 3
  /\ sProcesses (steps (System_new idle_kernel) start_and_reap) = [].
Proof. repeat split. Qed.

End SupervisorFacts.

(** * More facts *)

(** ** Connection: reading the buffers, sending and receiving *)

Module WireFacts.
Import Connection Framer Wire ListFacts FramingFacts.

Lemma bufferRead_loop_short (buffers : list Buffer) :
  forall out num rem sz,
    size (concat buffers) < rem ->
    bufferRead_loop buffers out num rem sz
    = ([], out ++ concat buffers, num + size (concat buffers)).
Proof.
  induction buffers as [|it rest IH]; intros out num rem sz Hrem.
  - cbn [bufferRead_loop concat]. rewrite app_nil_r.
    replace (size (@nil byte)) with 0 by reflexivity.
    rewrite Z.add_0_r. reflexivity.
  - cbn [concat] in *. rewrite size_app in Hrem.
    pose proof (size_nonneg it) as Hit.
    pose proof (size_nonneg (concat rest)) as Hrest.
    cbn [bufferRead_loop].
    rewrite (Z.min_l (size it) rem) by lia.
    rewrite Z.eqb_refl.
    destruct (rem - size it =? 0) eqn:E; [apply Z.eqb_eq in E; lia|].
    rewrite IH by lia.
    rewrite (left_all it (size it)) by lia.
    rewrite size_app, <- app_assoc. f_equal. lia.
Qed.

Lemma bufferRead_any (buffers : list Buffer) (sz : Z) :
  exists buffers',
    bufferRead buffers sz
    = (buffers', left (concat buffers) (to_uint32 sz),
       to_int32 (Z.min (to_uint32 sz) (size (concat buffers))))
    /\ concat buffers' = mid (concat buffers) (to_uint32 sz).
Proof.
  assert (Hu : 0 <= to_uint32 sz < 2 ^ 32)
    by (unfold to_uint32; apply Z.mod_pos_bound; lia).
  destruct (Z_le_gt_dec (to_uint32 sz) (size (concat buffers))) as [Hle|Hgt].
  - destruct (bufferRead_spec buffers (to_uint32 sz)) as (b' & E & Hc);
      [lia|lia|].
    exists b'. rewrite Z.min_l by lia. split; [|exact Hc].
    unfold bufferRead in *. rewrite (to_uint32_small (to_uint32 sz)) in E by lia.
    exact E.
  - exists []. unfold bufferRead.
    destruct (to_uint32 sz =? 0) eqn:E.
    + apply Z.eqb_eq in E. pose proof (size_nonneg (concat buffers)). lia.
    + rewrite bufferRead_loop_short by lia. cbn [app].
      rewrite Z.min_r by lia. rewrite left_all by lia.
      split; [reflexivity|].
      unfold mid. rewrite skipn_all2; [reflexivity|]. unfold size in Hgt. lia.
Qed.

(** X1.  [bufferRead] takes the size asked for as an [unsigned int] and
    returns an [int].  Asked for [sz] bytes it hands out the first
    [sz mod 2^32] bytes of the buffers taken together, in order - all of them
    when fewer are there - and leaves the bytes after them in the list; what
    it returns is the number of bytes handed out, converted to [int]: the
    number itself as long as that is below [2^31]. *)
Theorem bufferRead_takes_prefix (buffers : list Buffer) (sz : Z) :
  let '(buffers', out, read) := bufferRead buffers sz in
  out = left (concat buffers) (to_uint32 sz)
  /\ concat buffers' = mid (concat buffers) (to_uint32 sz)
  /\ read = to_int32 (size out)
  /\ size out = Z.min (to_uint32 sz) (size (concat buffers))
  /\ (size out < 2 ^ 31 -> read = size out).
Proof.
  destruct (bufferRead_any buffers sz) as (b' & E & Hc).
  rewrite E.
  assert (Hu : 0 <= to_uint32 sz < 2 ^ 32)
    by (unfold to_uint32; apply Z.mod_pos_bound; lia).
  pose proof (size_nonneg (concat buffers)) as Hn.
  assert (Hsize : size (left (concat buffers) (to_uint32 sz))
                  = Z.min (to_uint32 sz) (size (concat buffers))).
  { destruct (Z_le_gt_dec (to_uint32 sz) (size (concat buffers))).
    - rewrite size_left by lia. lia.
    - rewrite left_all by lia. lia. }
  rewrite Hsize.
  refine (conj eq_refl (conj Hc (conj eq_refl (conj eq_refl _)))).
  intros Hsmall. apply to_int32_small. unfold int32_range. lia.
Qed.

(** Six bytes are asked of two buffers of four: [abcdab] is handed out,
    [cd] is left and 6 is returned; a size of [2^32 + 6] asks for the
    same. *)
Example bufferRead_six :
  bufferRead [Samples.abcd; Samples.abcd] 6
  = ([["c"; "d"]%byte], ["a"; "b"; "c"; "d"; "a"; "b"]%byte, 6)
  /\ bufferRead [Samples.abcd; Samples.abcd] (2 ^ 32 + 6)
     = bufferRead [Samples.abcd; Samples.abcd] 6.
Proof. split; vm_compute; reflexivity. Qed.

Lemma to_uint32_sub_to_int32 (a m : Z) :
  to_uint32 (a - to_int32 m) = to_uint32 (a - m).
Proof.
  unfold to_uint32, to_int32.
  pose proof (Z.div_mod (m + 2 ^ 31) (2 ^ 32) ltac:(lia)) as D.
  replace (a - ((m + 2 ^ 31) mod 2 ^ 32 - 2 ^ 31))
    with (a - m + ((m + 2 ^ 31) / 2 ^ 32) * 2 ^ 32) by lia.
  apply Z_mod_plus_full.
Qed.

(** X2.  With fewer than [2^32] bytes in the buffers, after [bufferRead]
    has returned [read] the [bufferSize] of the list is the [bufferSize]
    before minus [read], in the arithmetic of [unsigned int]; with fewer than
    [2^31] bytes it is smaller by exactly [read]: the bytes handed out are the
    bytes removed. *)
Theorem bufferSize_after_bufferRead (buffers : list Buffer) (sz : Z) :
  size (concat buffers) < 2 ^ 32 ->
  let '(buffers', _, read) := bufferRead buffers sz in
  bufferSize buffers' = to_uint32 (bufferSize buffers - read)
  /\ (size (concat buffers) < 2 ^ 31 ->
      bufferSize buffers' = bufferSize buffers - read).
Proof.
  intros Hsmall. destruct (bufferRead_any buffers sz) as (b' & E & Hc).
  rewrite E.
  assert (Hu : 0 <= to_uint32 sz < 2 ^ 32)
    by (unfold to_uint32; apply Z.mod_pos_bound; lia).
  pose proof (size_nonneg (concat buffers)) as Hn.
  assert (Hmid : size (mid (concat buffers) (to_uint32 sz))
                 = size (concat buffers)
                   - Z.min (to_uint32 sz) (size (concat buffers))).
  { pose proof (left_mid (concat buffers) (to_uint32 sz)) as Hlm.
    apply (f_equal size) in Hlm. rewrite size_app in Hlm.
    destruct (Z_le_gt_dec (to_uint32 sz) (size (concat buffers))).
    - rewrite size_left in Hlm by lia. lia.
    - rewrite left_all in Hlm by lia. lia. }
  rewrite (bufferSize_concat buffers) by assumption.
  rewrite (bufferSize_concat b') by (rewrite Hc, Hmid; lia).
  rewrite Hc, Hmid. split.
  - rewrite to_uint32_sub_to_int32. symmetry. apply to_uint32_small. lia.
  - intros H31. rewrite to_int32_small by (unfold int32_range; lia).
    reflexivity.
Qed.

Lemma bufferSize_after_bufferRead_witness :
  let '(buffers', _, read) :=
    bufferRead [Samples.abcd; Samples.abcd] 6 in
  bufferSize buffers' = to_uint32 (bufferSize [Samples.abcd; Samples.abcd] - read)
  /\ (size (concat [Samples.abcd; Samples.abcd]) < 2 ^ 31 ->
      bufferSize buffers' = bufferSize [Samples.abcd; Samples.abcd] - read).
Proof.
  apply (bufferSize_after_bufferRead [Samples.abcd; Samples.abcd] 6).
  vm_compute. reflexivity.
Defined.

Lemma sendData_data_size (id : byte) (message : String) :
  [id] ++ (if size message =? 0 then [] else message) = id :: message.
Proof.
  destruct (size message =? 0) eqn:E; [|reflexivity].
  apply Z.eqb_eq in E. destruct message; [reflexivity|].
  unfold size in E. simpl in E. lia.
Qed.

Lemma size_cons {A} (x : A) (l : list A) : size (x :: l) = 1 + size l.
Proof. unfold size. simpl length. lia. Qed.

Lemma sendData_working (id : byte) (message : String) (c : Connection) :
  isConnected (mSocketClient c) = true ->
  sc_failed (mSocketClient c) = false ->
  sendData id message c
  = (true,
     mkConnection
       (mkSocketClient (sc_connected (mSocketClient c))
          (sc_buffer (mSocketClient c))
          (sc_sent (mSocketClient c) ++ frame (id, message)) false)
       (mBuffers c) (mPendingRead c)
       (to_int32 (mPendingWrite c + (4 + (1 + size message)))),
     []).
Proof.
  intros Hc Hf. unfold sendData. rewrite Hc. cbv beta iota delta [negb].
  rewrite sendData_data_size, size_cons.
  unfold Connection.write. rewrite Hf. cbv beta iota delta [negb].
  cbn [sc_failed sc_connected sc_buffer sc_sent].
  pose proof (size_nonneg message) as Hm.
  destruct (1 + size message =? 0) eqn:E; [apply Z.eqb_eq in E; lia|].
  unfold frame. cbn [fst snd]. rewrite <- app_assoc. reflexivity.
Qed.

(** X3.  When the write of the header fails, [sendData] returns [false]
    and hands nothing to the socket, but [pendingWrite] has been raised by
    the size of the frame all the same. *)
Theorem sendData_failed_write_is_counted
    (id : byte) (message : String) (c : Connection) :
  isConnected (mSocketClient c) = true ->
  sc_failed (mSocketClient c) = true ->
  let '(ok, c', effects) := sendData id message c in
  ok = false
  /\ effects = []
  /\ sc_sent (mSocketClient c') = sc_sent (mSocketClient c)
  /\ pendingWrite c' = to_int32 (pendingWrite c + (4 + (1 + size message))).
Proof.
  intros Hc Hf. unfold sendData. rewrite Hc. cbv beta iota delta [negb].
  rewrite sendData_data_size, size_cons.
  unfold Connection.write. rewrite Hf. cbv beta iota delta [negb].
  cbn [mSocketClient sc_sent pendingWrite mPendingWrite].
  auto.
Qed.

Lemma sendData_failed_write_is_counted_witness :
  let c := Connection_new (mkSocketClient true [] [] true) in
  let '(ok, c', effects) := sendData "007" Samples.abcd c in
  ok = false
  /\ effects = []
  /\ sc_sent (mSocketClient c') = sc_sent (mSocketClient c)
  /\ pendingWrite c' = to_int32 (pendingWrite c + (4 + (1 + size Samples.abcd))).
Proof.
  apply (sendData_failed_write_is_counted "007" Samples.abcd
           (Connection_new (mkSocketClient true [] [] true)));
    reflexivity.
Defined.

Lemma byte_val_byte_of_Z (z : Z) : byte_val (byte_of_Z z) = z mod 256.
Proof.
  unfold byte_val, byte_of_Z.
  pose proof (Z.mod_pos_bound z 256 ltac:(lia)) as Hr.
  destruct (Byte.of_N (Z.to_N (z mod 256))) as [b|] eqn:E.
  - apply Byte.to_of_N in E. rewrite E. lia.
  - apply Byte.of_N_None_iff in E. lia.
Qed.

Lemma le_decode_le32_encode (n : Z) :
  0 <= n < 2 ^ 32 -> le_decode (le32_encode n) = n.
Proof.
  intros Hn. unfold le32_encode. cbn [le_decode].
  rewrite !byte_val_byte_of_Z, !Z.shiftr_div_pow2 by lia.
  change (2 ^ 8) with 256. change (2 ^ 16) with (256 * 256).
  change (2 ^ 24) with (256 * (256 * 256)).
  rewrite <- !Z.div_div by lia.
  pose proof (Z.div_mod n 256 ltac:(lia)) as H0.
  pose proof (Z.div_mod (n / 256) 256 ltac:(lia)) as H1.
  pose proof (Z.div_mod (n / 256 / 256) 256 ltac:(lia)) as H2.
  pose proof (Z.div_mod (n / 256 / 256 / 256) 256 ltac:(lia)) as H3.
  assert (H4 : n / 256 / 256 / 256 / 256 = 0).
  { rewrite !Z.div_div by lia. apply Z.div_small. lia. }
  lia.
Qed.

Section Receiving.

Variable FinishId : byte.
Variable registered : byte -> bool.

Abbreviation steps := (frame_steps FinishId registered).
Abbreviation stuck := (frame_stuck FinishId registered).

Lemma loop_run (fuel : nat) :
  forall c,
    int32_range (mPendingRead c) ->
    size (queued c) < 2 ^ 31 ->
    (length (queued c) < fuel)%nat ->
    exists c' sigs,
      onDataAvailable_loop FinishId registered fuel c = Ok (c', map Emit sigs)
      /\ steps (state_of c, queued c) sigs (state_of c', queued c')
      /\ stuck (state_of c', queued c')
      /\ int32_range (mPendingRead c').
Proof.
  intros c Hrange Hsize Hfuel.
  destruct (loop_spec FinishId registered fuel c Hrange)
    as (c' & sigs & E & St & Stuck & _ & R);
    [lia | apply frames_below_few; exact Hsize | exact Hfuel | ].
  exists c', sigs. auto.
Qed.

Lemma onDataAvailable_run (c : Connection) :
  int32_range (mPendingRead c) ->
  size (queued c) < 2 ^ 31 ->
  exists c' sigs,
    onDataAvailable FinishId registered c = Ok (c', map Emit sigs)
    /\ steps (state_of c, queued c) sigs (state_of c', queued c')
    /\ stuck (state_of c', queued c')
    /\ int32_range (mPendingRead c').
Proof.
  intros Hr Hs. unfold onDataAvailable. apply loop_run; [assumption..|lia].
Qed.

Lemma step_feed st sigs st' (more : list byte) :
  frame_step FinishId registered st sigs st' ->
  frame_step FinishId registered
    (fst st, snd st ++ more) sigs (fst st', snd st' ++ more).
Proof.
  intros H. inversion H; subst; cbn [fst snd]; rewrite <- app_assoc.
  - apply step_header. assumption.
  - apply step_body. reflexivity.
Qed.

Lemma steps_feed st sigs st' (more : list byte) :
  steps st sigs st' ->
  steps (fst st, snd st ++ more) sigs (fst st', snd st' ++ more).
Proof.
  induction 1 as [st|s1 s2 s3 a b Hstep Hsteps IH].
  - apply steps_refl.
  - eapply steps_cons; [apply step_feed; exact Hstep | exact IH].
Qed.

Lemma steps_to_stuck_unique st sigs1 st1 :
  steps st sigs1 st1 ->
  stuck st1 ->
  forall sigs2 st2,
    steps st sigs2 st2 -> stuck st2 -> sigs1 = sigs2 /\ st1 = st2.
Proof.
  induction 1 as [st|s1 s2 s3 a b Hstep Hsteps IH]; intros Hstuck sigs2 st2 H2 Hs2.
  - inversion H2 as [|? ? ? ? ? Hstep' ?]; subst; [auto|].
    exfalso. exact (Hstuck _ _ Hstep').
  - inversion H2 as [|? ? ? ? ? Hstep' Hsteps']; subst.
    + exfalso. exact (Hs2 _ _ Hstep).
    + destruct (frame_step_deterministic FinishId registered _ _ _ _ _
                  Hstep Hstep') as [-> ->].
      destruct (IH Hstuck _ _ Hsteps' Hs2) as [-> ->]. auto.
Qed.

Lemma queued_arrive bytes c : queued (arrive bytes c) = queued c ++ bytes.
Proof. unfold queued, arrive. cbn. apply app_assoc. Qed.

Lemma state_of_arrive bytes c : state_of (arrive bytes c) = state_of c.
Proof. reflexivity. Qed.

Lemma to_uint32_injective (a b : Z) :
  int32_range a -> int32_range b -> to_uint32 a = to_uint32 b -> a = b.
Proof.
  unfold int32_range, to_uint32. intros Ha Hb E.
  pose proof (Z.div_mod a (2 ^ 32) ltac:(lia)) as Da.
  pose proof (Z.div_mod b (2 ^ 32) ltac:(lia)) as Db.
  rewrite E in Da.
  assert (a - b = 2 ^ 32 * (a / 2 ^ 32 - b / 2 ^ 32)) by lia.
  assert (- 2 ^ 32 < a - b < 2 ^ 32) by lia.
  assert (a / 2 ^ 32 - b / 2 ^ 32 = 0) by nia.
  lia.
Qed.

Lemma state_of_pending (c1 c2 : Connection) :
  int32_range (mPendingRead c1) -> int32_range (mPendingRead c2) ->
  state_of c1 = state_of c2 -> mPendingRead c1 = mPendingRead c2.
Proof.
  unfold state_of. intros H1 H2.
  destruct (mPendingRead c1 =? 0) eqn:E1; destruct (mPendingRead c2 =? 0) eqn:E2;
    intros E; try discriminate.
  - apply Z.eqb_eq in E1, E2. congruence.
  - inversion E. apply to_uint32_injective; assumption.
Qed.

Lemma receive_run (chunks : list (list byte)) :
  forall c,
    int32_range (mPendingRead c) ->
    size (queued c) + size (concat chunks) < 2 ^ 31 ->
    exists c1 sigs,
      receive FinishId registered chunks c = Ok (c1, map Emit sigs)
      /\ steps (state_of c, queued c ++ concat chunks) sigs
           (state_of c1, queued c1)
      /\ int32_range (mPendingRead c1)
      /\ (chunks <> [] -> stuck (state_of c1, queued c1)).
Proof.
  induction chunks as [|chunk rest IH]; intros c Hr Hs.
  - exists c, []. cbn [receive concat map]. rewrite app_nil_r.
    split; [reflexivity|]. split; [apply steps_refl|].
    split; [assumption|]. intros H. contradiction.
  - cbn [concat] in Hs. rewrite size_app in Hs.
    pose proof (size_nonneg (concat rest)) as Hrest.
    pose proof (size_nonneg chunk) as Hchunk.
    destruct (onDataAvailable_run (arrive chunk c)) as (c' & sigs1 & E1 & St1 & Stuck1 & R1).
    { exact Hr. }
    { rewrite queued_arrive, size_app. lia. }
    rewrite queued_arrive, state_of_arrive in St1.
    pose proof (steps_shrink FinishId registered _ _ _ St1) as Hshrink.
    cbn [snd] in Hshrink.
    rewrite size_app in Hshrink.
    destruct (IH c' R1) as (c1 & sigs2 & E2 & St2 & R2 & Stuck2); [lia|].
    cbn [receive]. rewrite E1, E2.
    exists c1, (sigs1 ++ sigs2). rewrite map_app.
    split; [reflexivity|].
    split.
    + eapply steps_app; [|exact St2].
      pose proof (steps_feed _ _ _ (concat rest) St1) as F.
      cbn [fst snd] in F. cbn [concat]. rewrite app_assoc. rewrite <- app_assoc in F.
      rewrite <- app_assoc. exact F.
    + split; [assumption|]. intros _.
      destruct rest as [|chunk' rest'].
      * cbn [receive] in E2. inversion E2; subst c1. assumption.
      * apply Stuck2. discriminate.
Qed.

End Receiving.

(** X4.  On a connection whose [mPendingRead] is an [int], and as long as
    the bytes queued and the bytes arriving are fewer than [2^31] together,
    it makes no difference in how many pieces (one at least) the bytes
    arrive: [onDataAvailable] after each piece emits, over all, the signals
    that one [onDataAvailable] emits when all the bytes have arrived at once,
    and leaves the same bytes queued and the same length awaited. *)
Theorem receive_in_pieces (FinishId : byte) (registered : byte -> bool)
    (chunks : list (list byte)) (c : Connection) :
  chunks <> [] ->
  int32_range (mPendingRead c) ->
  size (queued c) + size (concat chunks) < 2 ^ 31 ->
  exists c1 c2 effects,
    receive FinishId registered chunks c = Ok (c1, effects)
    /\ onDataAvailable FinishId registered (arrive (concat chunks) c)
       = Ok (c2, effects)
    /\ queued c1 = queued c2
    /\ mPendingRead c1 = mPendingRead c2.
Proof.
  intros Hne Hr Hs.
  destruct (receive_run FinishId registered chunks c Hr Hs)
    as (c1 & sigs1 & E1 & St1 & R1 & Stuck1).
  specialize (Stuck1 Hne).
  destruct (onDataAvailable_run FinishId registered (arrive (concat chunks) c))
    as (c2 & sigs2 & E2 & St2 & Stuck2 & R2).
  { exact Hr. }
  { rewrite queued_arrive, size_app. exact Hs. }
  rewrite queued_arrive, state_of_arrive in St2.
  destruct (steps_to_stuck_unique FinishId registered _ _ _ St1 Stuck1 _ _
              St2 Stuck2) as [Hsigs Hst].
  exists c1, c2, (map Emit sigs1).
  split; [exact E1|]. split; [rewrite Hsigs; exact E2|].
  injection Hst as Hstate Hq. split; [exact Hq|].
  apply state_of_pending; assumption.
Qed.

Lemma receive_in_pieces_witness :
  exists c1 c2 effects,
    receive x01 (fun _ => true)
      [["006"; x00; x00]%byte; [x00; "007"; "H"; "E"]%byte; ["L"; "L"; "O"]%byte]
      (Connection_new (mkSocketClient true [] [] false))
    = Ok (c1, effects)
    /\ onDataAvailable x01 (fun _ => true)
         (arrive
            (concat [["006"; x00; x00]%byte; [x00; "007"; "H"; "E"]%byte;
                     ["L"; "L"; "O"]%byte])
            (Connection_new (mkSocketClient true [] [] false)))
       = Ok (c2, effects)
    /\ queued c1 = queued c2
    /\ mPendingRead c1 = mPendingRead c2.
Proof.
  apply (receive_in_pieces x01 (fun _ => true)
           [["006"; x00; x00]%byte; [x00; "007"; "H"; "E"]%byte;
            ["L"; "L"; "O"]%byte]
           (Connection_new (mkSocketClient true [] [] false))).
  - discriminate.
  - unfold int32_range. simpl. lia.
  - vm_compute. reflexivity.
Defined.

Lemma send_all_sent (msgs : list (byte * String)) :
  forall c,
    isConnected (mSocketClient c) = true ->
    sc_failed (mSocketClient c) = false ->
    sc_sent (mSocketClient (send_all msgs c))
    = sc_sent (mSocketClient c) ++ concat (map frame msgs).
Proof.
  induction msgs as [|[id message] rest IH]; intros c Hc Hf.
  - cbn. rewrite app_nil_r. reflexivity.
  - unfold send_all. cbn [fold_left fst snd].
    rewrite (sendData_working id message c Hc Hf). cbn [fst snd].
    fold (send_all rest). rewrite IH by (first [exact Hc | reflexivity]).
    cbn [mSocketClient sc_sent map concat]. rewrite <- app_assoc. reflexivity.
Qed.

Lemma frames_steps (FinishId : byte) (registered : byte -> bool)
    (msgs : list (byte * String)) :
  Forall (fun m => registered (fst m) = true) msgs ->
  size (concat (map frame msgs)) < 2 ^ 31 ->
  frame_steps FinishId registered
    (AwaitingHeader, concat (map frame msgs))
    (map (signal_of FinishId) msgs) (AwaitingHeader, []).
Proof.
  induction msgs as [|[id message] rest IH]; intros Hreg Hs.
  - apply steps_refl.
  - inversion Hreg as [|? ? Hid Hrest]; subst. cbn [fst] in Hid.
    cbn [map concat] in *. rewrite size_app in Hs.
    pose proof (size_nonneg (concat (map frame rest))) as Hn.
    pose proof (size_nonneg message) as Hm.
    unfold frame in Hs at 1. cbn [fst snd] in Hs.
    rewrite size_app, BackpressureFacts.size_le32_encode, size_cons in Hs.
    change (signal_of FinishId (id, message) :: map (signal_of FinishId) rest)
      with ([] ++ [signal_of FinishId (id, message)]
            ++ map (signal_of FinishId) rest).
    unfold frame at 1. cbn [fst snd]. rewrite <- app_assoc.
    eapply steps_cons.
    { apply step_header. reflexivity. }
    rewrite le_decode_le32_encode by lia.
    eapply steps_cons.
    { replace [signal_of FinishId (id, message)]
        with (deliver FinishId registered (id :: message)).
      - apply step_body. apply size_cons.
      - unfold deliver, signal_of. cbn [fst snd]. rewrite Hid.
        destruct (Byte.eqb id FinishId); reflexivity. }
    apply IH; [assumption|lia].
Qed.

(** X5.  A sender whose socket is connected and does not fail sends a run
    of messages, each with a registered id, whose frames are fewer than
    [2^31] bytes together.  What [sendData] writes for them, received as the
    buffer of the socket at the other end and taken in by a connection that
    is made on that socket, is delivered as those messages in the order in
    which they were sent: [Finished] for the [Finish] id and [NewMessage]
    with the id and the body for any other, and no byte stays queued. *)
Theorem sent_messages_are_delivered
    (FinishId : byte) (registered : byte -> bool)
    (msgs : list (byte * String)) (sender : Connection)
    (client : SocketClient) :
  isConnected (mSocketClient sender) = true ->
  sc_failed (mSocketClient sender) = false ->
  Forall (fun m => registered (fst m) = true) msgs ->
  size (concat (map frame msgs)) < 2 ^ 31 ->
  sc_sent (mSocketClient sender) ++ sc_buffer client
  = sc_sent (mSocketClient (send_all msgs sender)) ->
  exists c',
    checkData FinishId registered (Connection_new client)
    = Ok (c', map Emit (map (signal_of FinishId) msgs))
    /\ queued c' = []
    /\ mPendingRead c' = 0.
Proof.
  intros Hc Hf Hreg Hs Hwire.
  rewrite (send_all_sent msgs sender Hc Hf) in Hwire.
  apply app_inv_head in Hwire.
  pose proof (frames_steps FinishId registered msgs Hreg Hs) as Hsteps.
  unfold checkData. cbn [Connection_new mSocketClient].
  destruct (size (sc_buffer client) =? 0) eqn:E; cbn [negb].
  - apply Z.eqb_eq in E.
    assert (Hnil : sc_buffer client = []).
    { destruct (sc_buffer client); [reflexivity|].
      unfold size in E. simpl in E. lia. }
    rewrite Hnil in Hwire. rewrite <- Hwire in Hsteps.
    exists (mkConnection client [] 0 0).
    assert (Hsig : map (signal_of FinishId) msgs = []).
    { destruct (steps_to_stuck_unique FinishId registered
                  (AwaitingHeader, []) [] (AwaitingHeader, [])) with
        (sigs2 := map (signal_of FinishId) msgs) (st2 := (AwaitingHeader, @nil byte))
        as [H _].
      - apply steps_refl.
      - apply stuck_header. vm_compute. reflexivity.
      - exact Hsteps.
      - apply stuck_header. vm_compute. reflexivity.
      - symmetry. exact H. }
    rewrite Hsig. split; [reflexivity|].
    split; [unfold queued; cbn; exact Hnil|reflexivity].
  - destruct (onDataAvailable_run FinishId registered (mkConnection client [] 0 0))
      as (c' & sigs & E' & St & Stuck & R).
    { unfold int32_range. cbn. lia. }
    { unfold queued. cbn. rewrite Hwire. exact Hs. }
    assert (Hq : queued (mkConnection client [] 0 0) = concat (map frame msgs)).
    { unfold queued. cbn. exact Hwire. }
    rewrite Hq in St.
    change (state_of (mkConnection client [] 0 0)) with AwaitingHeader in St.
    destruct (steps_to_stuck_unique FinishId registered _ _ _ Hsteps
                (stuck_header FinishId registered [] ltac:(vm_compute; reflexivity))
                _ _ St Stuck) as [Hsigs Hst].
    exists c'. rewrite Hsigs. split; [exact E'|].
    injection Hst as Hstate Hqueue.
    split; [symmetry; exact Hqueue|]. symmetry in Hstate.
    unfold state_of in Hstate. destruct (mPendingRead c' =? 0) eqn:P; [|discriminate].
    apply Z.eqb_eq in P. exact P.
Qed.

Lemma sent_messages_are_delivered_witness :
  exists c',
    checkData x01 (fun _ => true)
      (Connection_new (mkSocketClient true Samples.hello [] false))
    = Ok (c', map Emit
                (map (signal_of x01)
                   [("007"%byte, ["H"; "E"; "L"; "L"; "O"]%byte)]))
    /\ queued c' = []
    /\ mPendingRead c' = 0.
Proof.
  apply (sent_messages_are_delivered x01 (fun _ => true)
           [("007"%byte, ["H"; "E"; "L"; "L"; "O"]%byte)]
           (Connection_new (mkSocketClient true [] [] false))
           (mkSocketClient true Samples.hello [] false)).
  - reflexivity.
  - reflexivity.
  - repeat constructor.
  - vm_compute. reflexivity.
  - vm_compute. reflexivity.
Defined.

End WireFacts.

(** ** The log stream *)

Module LogFacts.
Import Log ListFacts.

Lemma size_zero_nil {A} (l : list A) : size l = 0 -> l = [].
Proof. destruct l; [reflexivity|]. unfold size. simpl. lia. Qed.

Lemma write_plain (data o : String) (s : bool) (k : Z) :
  k <> 0 \/ s = false \/ o = [] \/ isspace (last o x00) = true ->
  write data (Some (mkData o s k)) = Some (mkData (o ++ data) s (spent k data)).
Proof.
  intros H. unfold write, spent. cbn [out spacing disableSpacingOverride].
  destruct (size data =? 0) eqn:E.
  - apply Z.eqb_eq, size_zero_nil in E. subst. rewrite app_nil_r. reflexivity.
  - cbn [orb]. destruct (k =? 0) eqn:K; cbn [negb]; [|reflexivity].
    apply Z.eqb_eq in K. destruct H as [H|[H|[H|H]]]; [contradiction|..].
    + rewrite H. reflexivity.
    + rewrite H. cbn [negb andb]. rewrite andb_false_r. reflexivity.
    + rewrite H. cbn [negb]. rewrite andb_false_r. reflexivity.
Qed.

Lemma spent_zero (data : String) : spent 0 data = 0.
Proof. unfold spent. rewrite orb_true_r. reflexivity. Qed.

Lemma write_spaced (data o : String) :
  o <> [] -> isspace (last o x00) = false ->
  data <> [] -> isspace (hd x00 data) = false ->
  write data (Some (mkData o true 0))
  = Some (mkData (o ++ [" "%byte] ++ data) true 0).
Proof.
  intros Ho Hl Hd Hh. unfold write. cbn [out spacing disableSpacingOverride].
  destruct (size data =? 0) eqn:E.
  { apply Z.eqb_eq, size_zero_nil in E. contradiction. }
  destruct (size o =? 0) eqn:O.
  { apply Z.eqb_eq, size_zero_nil in O. contradiction. }
  rewrite Hl, Hh. reflexivity.
Qed.

Lemma last_app_r {A} (l1 l2 : list A) (d : A) :
  l2 <> [] -> last (l1 ++ l2) d = last l2 d.
Proof.
  intros H. induction l1 as [|x l1 IH]; [reflexivity|].
  cbn [app]. destruct (l1 ++ l2) eqn:E.
  - apply app_eq_nil in E. destruct E. contradiction.
  - rewrite <- IH. reflexivity.
Qed.

Lemma write_all_off (pieces : list String) :
  forall o k,
    exists k',
      write_all pieces (Some (mkData o false k))
      = Some (mkData (o ++ concat pieces) false k').
Proof.
  induction pieces as [|piece rest IH]; intros o k.
  - exists k. cbn. rewrite app_nil_r. reflexivity.
  - unfold write_all. cbn [fold_left].
    rewrite write_plain by auto.
    destruct (IH (o ++ piece) (spent k piece)) as [k' E].
    exists k'. unfold write_all in E. rewrite E.
    cbn [concat]. rewrite app_assoc. reflexivity.
Qed.

(** X6.  With the spacing off, what is written to a log stream is put one
    piece after the other with nothing between them, and the spacing stays
    off: the text is the text before followed by the pieces. *)
Theorem write_all_without_spacing (pieces : list String) (d : Data) :
  spacing d = false ->
  text (write_all pieces (Some d)) = out d ++ concat pieces
  /\ fst (setSpacing true (write_all pieces (Some d))) = false.
Proof.
  intros Hs. destruct d as [o s k]. cbn [spacing out] in *. subst s.
  destruct (write_all_off pieces o k) as [k' E]. rewrite E.
  split; reflexivity.
Qed.

Lemma write_all_without_spacing_witness :
  text (write_all [Samples.abcd; Samples.ls] (Some (mkData Samples.ls false 0)))
  = out (mkData Samples.ls false 0) ++ concat [Samples.abcd; Samples.ls]
  /\ fst (setSpacing true
            (write_all [Samples.abcd; Samples.ls]
               (Some (mkData Samples.ls false 0)))) = false.
Proof.
  apply (write_all_without_spacing [Samples.abcd; Samples.ls]
           (mkData Samples.ls false 0)).
  reflexivity.
Defined.

Lemma write_all_words (words : list String) :
  forall o,
    o <> [] -> isspace (last o x00) = false ->
    Forall word words ->
    write_all words (Some (mkData o true 0))
    = Some (mkData (o ++ concat (map (fun s => [" "%byte] ++ s) words)) true 0).
Proof.
  induction words as [|w rest IH]; intros o Ho Hl Hw.
  - cbn. rewrite app_nil_r. reflexivity.
  - inversion Hw as [|? ? (Hne & Hhd & Hlast) Hrest]; subst.
    unfold write_all. cbn [fold_left].
    rewrite write_spaced by assumption.
    fold (write_all rest). rewrite IH.
    + cbn [map concat]. rewrite <- !app_assoc. reflexivity.
    + intros E. apply app_eq_nil in E. destruct E. contradiction.
    + rewrite app_assoc, last_app_r by assumption. assumption.
    + assumption.
Qed.

(** X7.  With the spacing on, as the constructors leave it, words written
    to an empty log stream come out with one space between each two of
    them, and with none before the first and none after the last. *)
Theorem words_are_separated_by_one_space (words : list String) :
  Forall word words ->
  write_all words (Some (mkData [] true 0))
  = Some (mkData (join [" "%byte] words) true 0).
Proof.
  intros Hw. destruct words as [|w rest]; [reflexivity|].
  inversion Hw as [|? ? (Hne & Hhd & Hlast) Hrest]; subst.
  unfold write_all. cbn [fold_left].
  rewrite write_plain by auto.
  fold (write_all rest). unfold spent. rewrite orb_true_r. cbn [app].
  rewrite write_all_words by assumption. reflexivity.
Qed.

Lemma words_are_separated_by_one_space_witness :
  write_all [Samples.abcd; Samples.ls] (Some (mkData [] true 0))
  = Some (mkData (join [" "%byte] [Samples.abcd; Samples.ls]) true 0).
Proof.
  apply (words_are_separated_by_one_space [Samples.abcd; Samples.ls]).
  repeat constructor; discriminate.
Defined.

Section Printing.

Variable T : Type.
Variable show : T -> String.
Variable typeName : String.

Lemma spent_comma k : 0 <= k <= 1 -> spent k comma = 0.
Proof.
  intros H. unfold spent. change (size comma =? 0) with false. cbn [orb].
  destruct (k =? 0) eqn:E; [apply Z.eqb_eq in E; assumption|].
  apply Z.eqb_neq in E. lia.
Qed.

Lemma last_comma (o : String) : isspace (last (o ++ comma) x00) = true.
Proof. rewrite last_app_r by discriminate. reflexivity. Qed.

Lemma print_items_rest (items : list T) :
  forall old o k,
    0 <= k <= 1 ->
    print_items T (fun x => write (show x)) items false old
      (Some (mkData o false k))
    = (old,
       Some (mkData (o ++ concat (map (fun x => comma ++ show x) items)) false
               (match items with [] => k | _ :: _ => 0 end))).
Proof.
  induction items as [|it rest IH]; intros old o k Hk.
  - cbn. rewrite app_nil_r. reflexivity.
  - cbn [print_items].
    rewrite write_plain by auto. rewrite spent_comma by assumption.
    cbn [setSpacing snd spacing out disableSpacingOverride].
    rewrite write_plain by (right; right; right; apply last_comma).
    cbn [setSpacing spacing out disableSpacingOverride].
    rewrite IH by (unfold spent; rewrite orb_true_r; lia).
    unfold spent. rewrite orb_true_r.
    cbn [map concat]. rewrite <- !app_assoc.
    destruct rest; reflexivity.
Qed.

Lemma print_items_first (items : list T) (old : bool) (o : String) :
  exists k,
    0 <= k <= 1
    /\ print_items T (fun x => write (show x)) items true old
         (Some (mkData o false 0))
       = (old, Some (mkData (o ++ join comma (map show items)) false k)).
Proof.
  destruct items as [|it rest].
  - exists 0. split; [lia|]. cbn. rewrite app_nil_r. reflexivity.
  - cbn [print_items disableNextSpacing setSpacing snd spacing out
           disableSpacingOverride].
    rewrite write_plain by (left; lia).
    cbn [setSpacing spacing out disableSpacingOverride].
    assert (Hk : 0 <= spent (0 + 1) (show it) <= 1).
    { unfold spent. destruct (size (show it) =? 0); cbn; lia. }
    rewrite print_items_rest by assumption.
    exists (match rest with [] => spent (0 + 1) (show it) | _ :: _ => 0 end).
    split; [destruct rest; [assumption|lia]|].
    cbn [map join]. rewrite map_map, <- app_assoc. reflexivity.
Qed.

(** X8.  A list (and a set) is printed as its name, the name of the type
    of the elements, and between [(] and [)] the elements with [", "]
    between them -- no other spaces, whatever the spacing of the stream --
    and the stream has the spacing that it had before. *)
Theorem print_sequence_shape (name : String) (items : list T) (d : Data) :
  disableSpacingOverride d = 0 ->
  print_sequence T (fun x => write (show x)) typeName name items (Some d)
  = Some (mkData
            (text (write name (Some d)) ++ typeName ++ opened
             ++ join comma (map show items) ++ closed)
            (spacing d) 0).
Proof.
  intros Hk. unfold print_sequence.
  assert (Hname : exists o, write name (Some d) = Some (mkData o (spacing d) 0)).
  { unfold write. rewrite Hk. cbn [Z.eqb negb].
    destruct (size name =? 0); [destruct d; cbn in *; subst; eauto|].
    destruct (_ && _); eauto. }
  destruct Hname as [o Hname]. rewrite Hname.
  cbn [setSpacing spacing out disableSpacingOverride text].
  rewrite !write_plain by auto.
  rewrite !spent_zero.
  destruct (print_items_first items (spacing d) ((o ++ typeName) ++ opened))
    as (k & Hk01 & E).
  rewrite E. rewrite write_plain by auto.
  cbn [setSpacing snd spacing out disableSpacingOverride].
  f_equal. f_equal.
  - rewrite <- !app_assoc. reflexivity.
  - unfold spent. change (size closed =? 0) with false. cbn [orb].
    destruct (k =? 0) eqn:K; [apply Z.eqb_eq in K; assumption|].
    apply Z.eqb_neq in K. lia.
Qed.

End Printing.

Lemma print_sequence_shape_witness :
  print_sequence String (fun x => write x) Samples.ls
    (list_byte_of_string "List<") MoreSamples.three
    (Some (mkData Samples.abcd true 0))
  = Some (mkData
            (text (write (list_byte_of_string "List<")
                     (Some (mkData Samples.abcd true 0)))
             ++ Samples.ls ++ opened
             ++ join comma (map (fun x => x) MoreSamples.three) ++ closed)
            (spacing (mkData Samples.abcd true 0)) 0).
Proof.
  apply (print_sequence_shape String (fun x => x) Samples.ls
           (list_byte_of_string "List<") MoreSamples.three
           (mkData Samples.abcd true 0)).
  reflexivity.
Defined.

(** The list [abcd, ls, abcd] of elements of a type named [ls], written
    after [abcd] with the spacing on. *)
Example print_List_three :
  text (print_List String write Samples.ls MoreSamples.three
          (Some (mkData Samples.abcd true 0)))
  = list_byte_of_string "abcd List<ls>(abcd, ls, abcd)".
Proof. reflexivity. Qed.

Section PrintingMaps.

Variables Key Value : Type.
Variable showKey : Key -> String.
Variable showValue : Value -> String.
Variables typeNameKey typeNameValue : String.

Abbreviation entry_text :=
  (fun e : Key * Value => showKey (fst e) ++ colon ++ showValue (snd e)).

Lemma spent_colon k : 0 <= k <= 1 -> spent k colon = 0.
Proof.
  intros H. unfold spent. change (size colon =? 0) with false. cbn [orb].
  destruct (k =? 0) eqn:E; [apply Z.eqb_eq in E; assumption|].
  apply Z.eqb_neq in E. lia.
Qed.

Lemma last_colon (o : String) : isspace (last (o ++ colon) x00) = true.
Proof. rewrite last_app_r by discriminate. reflexivity. Qed.

Lemma print_entries_rest (entries : list (Key * Value)) :
  forall old o k,
    0 <= k <= 1 ->
    print_entries Key Value (fun x => write (showKey x))
      (fun x => write (showValue x)) entries false old
      (Some (mkData o false k))
    = (old,
       Some (mkData
               (o ++ concat (map (fun e => comma ++ entry_text e) entries))
               false
               (match entries with [] => k | _ :: _ => 0 end))).
Proof.
  induction entries as [|[key value] rest IH]; intros old o k Hk.
  - cbn. rewrite app_nil_r. reflexivity.
  - cbn [print_entries].
    rewrite write_plain by auto. rewrite spent_comma by assumption.
    cbn [setSpacing snd spacing out disableSpacingOverride].
    rewrite write_plain by (right; right; right; apply last_comma).
    cbn [setSpacing snd spacing out disableSpacingOverride].
    rewrite write_plain by auto.
    cbn [setSpacing snd spacing out disableSpacingOverride].
    rewrite write_plain by (right; right; right; apply last_colon).
    cbn [setSpacing snd spacing out disableSpacingOverride].
    rewrite !spent_zero. rewrite IH by lia.
    cbn [map concat fst snd]. rewrite <- !app_assoc.
    destruct rest; reflexivity.
Qed.

Lemma print_entries_first (entries : list (Key * Value)) (old : bool)
    (o : String) :
  print_entries Key Value (fun x => write (showKey x))
    (fun x => write (showValue x)) entries true old
    (Some (mkData o false 0))
  = (old, Some (mkData (o ++ join comma (map entry_text entries)) false 0)).
Proof.
  destruct entries as [|[key value] rest].
  - cbn. rewrite app_nil_r. reflexivity.
  - cbn [print_entries disableNextSpacing setSpacing snd spacing out
           disableSpacingOverride].
    rewrite write_plain by (left; lia).
    cbn [setSpacing snd spacing out disableSpacingOverride].
    assert (Hk : 0 <= spent (0 + 1) (showKey key) <= 1).
    { unfold spent. destruct (size (showKey key) =? 0); cbn; lia. }
    rewrite write_plain by auto. rewrite spent_colon by assumption.
    cbn [setSpacing snd spacing out disableSpacingOverride].
    rewrite write_plain by (right; right; right; apply last_colon).
    cbn [setSpacing snd spacing out disableSpacingOverride].
    rewrite spent_zero. rewrite print_entries_rest by lia.
    cbn [map join fst snd]. rewrite map_map, <- !app_assoc.
    destruct rest; reflexivity.
Qed.

(** X9.  A map (and a hash) is printed as its name, the names of the two
    types with [", "] between them, and between [(] and [)] the entries,
    each as the key, [": "] and the value, with [", "] between the entries;
    the stream has the spacing that it had before. *)
Theorem print_mapping_shape (name : String) (entries : list (Key * Value))
    (d : Data) :
  disableSpacingOverride d = 0 ->
  print_mapping Key Value (fun x => write (showKey x))
    (fun x => write (showValue x)) typeNameKey typeNameValue name entries
    (Some d)
  = Some (mkData
            (text (write name (Some d)) ++ typeNameKey ++ comma
             ++ typeNameValue ++ opened
             ++ join comma (map entry_text entries) ++ closed)
            (spacing d) 0).
Proof.
  intros Hk. unfold print_mapping.
  assert (Hname : exists o, write name (Some d) = Some (mkData o (spacing d) 0)).
  { unfold write. rewrite Hk. cbn [Z.eqb negb].
    destruct (size name =? 0); [destruct d; cbn in *; subst; eauto|].
    destruct (_ && _); eauto. }
  destruct Hname as [o Hname]. rewrite Hname.
  cbn [setSpacing spacing out disableSpacingOverride text].
  rewrite !write_plain by auto. rewrite !spent_zero.
  rewrite print_entries_first. rewrite write_plain by auto.
  cbn [setSpacing snd spacing out disableSpacingOverride].
  rewrite spent_zero, <- !app_assoc. reflexivity.
Qed.

End PrintingMaps.

Lemma print_mapping_shape_witness :
  print_mapping String String (fun x => write x) (fun x => write x)
    Samples.ls Samples.ls (list_byte_of_string "Map<")
    [(Samples.abcd, Samples.ls); (Samples.ls, Samples.abcd)]
    (Some (mkData [] true 0))
  = Some (mkData
            (text (write (list_byte_of_string "Map<")
                     (Some (mkData [] true 0)))
             ++ Samples.ls ++ comma ++ Samples.ls ++ opened
             ++ join comma
                  (map (fun e : String * String => fst e ++ colon ++ snd e)
                     [(Samples.abcd, Samples.ls); (Samples.ls, Samples.abcd)])
             ++ closed)
            (spacing (mkData [] true 0)) 0).
Proof.
  apply (print_mapping_shape String String (fun x => x) (fun x => x)
           Samples.ls Samples.ls (list_byte_of_string "Map<")
           [(Samples.abcd, Samples.ls); (Samples.ls, Samples.abcd)]
           (mkData [] true 0)).
  reflexivity.
Defined.

End LogFacts.

(** ** The life of a process object *)

Module LifecycleFacts.
Import Process Stdio Lifecycle MoreSamples ListFacts.

Lemma closes_app (e1 e2 : list Effect) :
  closes (e1 ++ e2) = closes e1 ++ closes e2.
Proof.
  induction e1 as [|e rest IH]; [reflexivity|].
  destruct e; cbn [app closes]; rewrite IH; reflexivity.
Qed.

Lemma emitted_app (e1 e2 : list Effect) :
  emitted (e1 ++ e2) = emitted e1 ++ emitted e2.
Proof.
  induction e1 as [|e rest IH]; [reflexivity|].
  destruct e; cbn [app emitted]; rewrite IH; reflexivity.
Qed.

Lemma unregistered_app (e1 e2 : list Effect) :
  unregistered (e1 ++ e2) = unregistered e1 ++ unregistered e2.
Proof.
  induction e1 as [|e rest IH]; [reflexivity|].
  destruct e; cbn [app unregistered]; rewrite IH; reflexivity.
Qed.

Lemma handleOutput_append_log buffer index buf :
  let log := snd (handleOutput_append buffer index buf) in
  closes log = [] /\ emitted log = [] /\ unregistered log = [].
Proof.
  unfold handleOutput_append.
  destruct (size buffer + size buf >? MaxSize);
    [destruct (size buffer + size buf - index >? MaxSize)|];
    cbn; auto.
Qed.

Lemma handleOutput_loop_trace (reads : list (list byte)) (fd : Z) :
  forall buffer index total,
    let '(_, _, total', effects, reads') :=
      handleOutput_loop reads fd buffer index total in
    total' = total + size (taken reads)
    /\ closes effects = []
    /\ emitted effects = []
    /\ unregistered effects = (if reaches_eof reads then [fd] else [])
    /\ reads' = after_eof reads.
Proof.
  induction reads as [|buf rest IH]; intros buffer index total.
  - cbn. repeat split; lia.
  - cbn [handleOutput_loop taken reaches_eof existsb after_eof].
    destruct (size buf =? 0) eqn:E.
    + cbn. repeat split; lia.
    + pose proof (handleOutput_append_log buffer index buf) as Hlog.
      destruct (handleOutput_append buffer index buf) as [[b i] log].
      cbn [snd] in Hlog. destruct Hlog as (L1 & L2 & L3).
      specialize (IH b i (total + size buf)).
      destruct (handleOutput_loop rest fd b i (total + size buf))
        as [[[[b2 i2] t2] e2] r2].
      destruct IH as (I1 & I2 & I3 & I4 & I5).
      rewrite closes_app, emitted_app, unregistered_app, L1, L2, L3, I2, I3, I4.
      cbn [orb app]. rewrite size_app. repeat split; auto; lia.
Qed.


Lemma handleOutput_trace reads fd buffer index signal :
  closes (snd (fst (handleOutput reads fd buffer index signal))) = [].
Proof.
  unfold handleOutput.
  pose proof (handleOutput_loop_trace reads fd buffer index 0) as H.
  destruct (handleOutput_loop reads fd buffer index 0) as [[[[b i] t] e] r].
  destruct H as (H1 & H2 & H3 & H4 & H5). cbn [fst snd].
  rewrite closes_app, H2. destruct (t =? 0); reflexivity.
Qed.

Lemma handleStdOut_shape k p :
  exists b i e k',
    handleStdOut k p = (set_stdout b i p, e, k') /\ closes e = [].
Proof.
  unfold handleStdOut.
  pose proof (handleOutput_trace (k_reads k (fst (mStdOut p))) (fst (mStdOut p))
                (mStdOutBuffer p) (mStdOutIndex p) ReadyReadStdOut) as H.
  destruct (handleOutput _ _ _ _ _) as [[[b i] e] r]. cbn [fst snd] in H.
  eauto 8.
Qed.

Lemma handleStdErr_shape k p :
  exists b i e k',
    handleStdErr k p = (set_stderr b i p, e, k') /\ closes e = [].
Proof.
  unfold handleStdErr.
  pose proof (handleOutput_trace (k_reads k (fst (mStdErr p))) (fst (mStdErr p))
                (mStdErrBuffer p) (mStdErrIndex p) ReadyReadStdErr) as H.
  destruct (handleOutput _ _ _ _ _) as [[[b i] e] r]. cbn [fst snd] in H.
  eauto 8.
Qed.

Lemma handleInput_loop_closes (writes : list Z) (fd : Z) :
  forall queue index,
    closes (snd (fst (handleInput_loop writes fd queue index))) = [].
Proof.
  induction writes as [|room writes' IH]; intros queue index.
  - destruct queue as [|front rest]; [reflexivity|]. cbn [handleInput_loop].
    destruct (negb (index =? 0)); reflexivity.
  - revert index. induction queue as [|front rest IHq]; intros index;
      [reflexivity|].
    cbn [handleInput_loop].
    destruct (negb (index =? 0)).
    + destruct (write_result room (size front - index) =? -1); [reflexivity|].
      destruct (write_result room (size front - index) =? size front - index).
      * specialize (IH rest 0).
        destruct (handleInput_loop writes' fd rest 0) as [[[q i] e] w].
        exact IH.
      * specialize (IH (front :: rest)
                      (index + write_result room (size front - index))).
        destruct (handleInput_loop writes' fd (front :: rest) _)
          as [[[q i] e] w].
        exact IH.
    + destruct (write_result room (size front) =? -1); [reflexivity|].
      destruct (write_result room (size front) =? size front).
      * specialize (IH rest 0).
        destruct (handleInput_loop writes' fd rest 0) as [[[q i] e] w].
        exact IH.
      * specialize (IH (front :: rest) (index + write_result room (size front))).
        destruct (handleInput_loop writes' fd (front :: rest) _)
          as [[[q i] e] w].
        exact IH.
Qed.

Lemma handleInput_shape k fd p :
  exists q i e k',
    handleInput k fd p = (set_stdin_queue q i p, e, k') /\ closes e = [].
Proof.
  unfold handleInput.
  pose proof (handleInput_loop_closes (k_writes k fd) fd (mStdInBuffer p)
                (mStdInIndex p)) as H.
  destruct (handleInput_loop _ _ _ _) as [[[q i] e] w]. cbn [fst snd] in H.
  eauto 8.
Qed.

Ltac shape_of_handlers :=
  repeat match goal with
  | |- context [handleStdOut ?k ?p] =>
      let b := fresh "b" in let i := fresh "i" in let e := fresh "e" in
      let k' := fresh "k" in let E := fresh "E" in let C := fresh "C" in
      destruct (handleStdOut_shape k p) as (b & i & e & k' & E & C);
      rewrite E; clear E
  | |- context [handleStdErr ?k ?p] =>
      let b := fresh "b" in let i := fresh "i" in let e := fresh "e" in
      let k' := fresh "k" in let E := fresh "E" in let C := fresh "C" in
      destruct (handleStdErr_shape k p) as (b & i & e & k' & E & C);
      rewrite E; clear E
  | |- context [handleInput ?k ?fd ?p] =>
      let q := fresh "q" in let i := fresh "i" in let e := fresh "e" in
      let k' := fresh "k" in let E := fresh "E" in let C := fresh "C" in
      destruct (handleInput_shape k fd p) as (q & i & e & k' & E & C);
      rewrite E; clear E
  end.

Ltac fields :=
  cbn [mPid mReturn mStdIn mStdOut mStdErr mSync mStdInBuffer mStdInIndex
       mStdOutBuffer mStdOutIndex mStdErrBuffer mStdErrIndex mMode
       mErrorString set_mPid set_mReturn set_mStdIn set_mStdOut set_mStdErr
       set_mSync set_stdin_queue set_stdout set_stderr set_mMode
       set_mErrorString fst snd].

Lemma pair_eta (x : Z * Z) a b : fst x = a -> snd x = b -> x = (a, b).
Proof. destruct x; cbn; congruence. Qed.

Lemma finish_async (k : Kernel) (code : Z) (p : Process) :
  mMode p = Async ->
  let '(p', effects, _) := finish k code p in
  mPid p' = -1
  /\ mReturn p' = code
  /\ mStdIn p' = (fst (mStdIn p), -1)
  /\ mStdOut p' = (-1, snd (mStdOut p))
  /\ mStdErr p' = (-1, snd (mStdErr p))
  /\ mSync p' = mSync p
  /\ mStdInBuffer p' = []
  /\ mMode p' = Async
  /\ closes effects = open_ends p.
Proof.
  intros Hm. unfold finish, closeStdIn, closeStdOut, closeStdErr, open_ends.
  fields.
  destruct (snd (mStdIn p) =? -1) eqn:I; fields; rewrite Hm;
    shape_of_handlers; fields;
    destruct (fst (mStdOut p) =? -1) eqn:O; fields;
    destruct (fst (mStdErr p) =? -1) eqn:R; fields;
    rewrite ?Hm;
    repeat rewrite ?closes_app, ?C, ?C0;
    cbn [closes app];
    apply Z.eqb_eq in I || apply Z.eqb_neq in I;
    apply Z.eqb_eq in O || apply Z.eqb_neq in O;
    apply Z.eqb_eq in R || apply Z.eqb_neq in R;
    repeat split; try reflexivity;
    try (apply pair_eta; solve [reflexivity | assumption]).
Qed.

Lemma finish_sync (k : Kernel) (code : Z) (p : Process) :
  mMode p = Sync ->
  let '(p', effects, _) := finish k code p in
  mPid p' = -1
  /\ mReturn p' = code
  /\ mStdIn p' = (fst (mStdIn p), -1)
  /\ mStdOut p' = mStdOut p
  /\ mStdErr p' = mStdErr p
  /\ mSync p' = (fst (mSync p), -1)
  /\ mStdInBuffer p' = []
  /\ mMode p' = Sync
  /\ closes effects
     = (if snd (mStdIn p) =? -1 then [] else [snd (mStdIn p)])
       ++ [snd (mSync p)]
  /\ emitted effects = [].
Proof.
  intros Hm. unfold finish, closeStdIn.
  fields.
  destruct (snd (mStdIn p) =? -1) eqn:I; fields; rewrite Hm;
    destruct (sys_write k (snd (mSync p)) 1) as [w k1]; fields; rewrite ?Hm;
    cbn [closes emitted app];
    apply Z.eqb_eq in I || apply Z.eqb_neq in I;
    repeat split; try reflexivity;
    try (apply pair_eta; solve [reflexivity | assumption]).
Qed.

Lemma start_spawns env fds fork loop self command p reg :
  size (findCommand env command) <> 0 -> fork <> -1 -> fork <> 0 ->
  exists p1 e1,
    start env fds fork loop self command p reg
    = (p1, addPid fork self reg, e1, Returned Done)
    /\ mPid p1 = fork
    /\ mStdIn p1 = pipe_in fds /\ mStdOut p1 = pipe_out fds
    /\ mStdErr p1 = pipe_err fds /\ mSync p1 = mSync p /\ mMode p1 = Async
    /\ mStdInBuffer p1 = mStdInBuffer p
    /\ closes e1 = [fst (pipe_in fds); snd (pipe_out fds); snd (pipe_err fds)].
Proof.
  intros Hc H1 H0. unfold start, startInternal. fields.
  apply Z.eqb_neq in Hc, H1, H0. rewrite Hc, H1, H0.
  eexists _, _. split; [reflexivity|]. fields.
  rewrite closes_app. destruct loop; repeat split; reflexivity.
Qed.

Lemma count_swap (a : list Z) (x : Z) (b : list Z) (fd : Z) :
  count_occ Z.eq_dec (x :: a ++ b) fd = count_occ Z.eq_dec (a ++ x :: b) fd.
Proof.
  rewrite !count_occ_app. cbn [count_occ].
  rewrite count_occ_app. destruct (Z.eq_dec x fd); lia.
Qed.

Ltac count_ends :=
  intros;
  repeat match goal with
         | |- context [if ?b then [] else _] => destruct b
         end;
  cbn [app closes]; rewrite ?count_occ_app; cbn [count_occ];
  repeat match goal with
         | |- context [Z.eq_dec ?a ?b] => destruct (Z.eq_dec a b)
         end;
  try lia.

(** What a call keeps and what it closes. *)
Lemma call_keeps (k : Kernel) (c : Call) (p : Process) :
  let '(p', e, _) := call k c p in
  (forall fd,
      count_occ Z.eq_dec (closes e ++ open_ends p') fd
      = count_occ Z.eq_dec (open_ends p) fd)
  /\ mSync p' = mSync p /\ mMode p' = mMode p /\ mPid p' = mPid p.
Proof.
  destruct c as [data|fd mode| | | | | |]; cbn [call].
  - unfold write.
    destruct (negb (size data =? 0) && negb (snd (mStdIn p) =? -1));
      [|cbn; auto].
    shape_of_handlers. rewrite C. unfold open_ends. fields. auto.
  - unfold processCallback.
    destruct (mode =? SocketError); [cbn; auto|].
    destruct (fd =? snd (mStdIn p));
      [shape_of_handlers; rewrite C; unfold open_ends; fields; auto|].
    destruct (fd =? fst (mStdOut p));
      [shape_of_handlers; rewrite C; unfold open_ends; fields; auto|].
    destruct (fd =? fst (mStdErr p));
      [shape_of_handlers; rewrite C; unfold open_ends; fields; auto|].
    cbn; auto.
  - unfold readAllStdOut, open_ends. fields. cbn [closes app]. auto.
  - unfold readAllStdErr, open_ends. fields. cbn [closes app]. auto.
  - unfold closeStdIn.
    destruct (snd (mStdIn p) =? -1) eqn:I; [cbn; auto|].
    unfold open_ends. fields. rewrite I, Z.eqb_refl.
    split; [count_ends|auto].
  - unfold closeStdOut.
    destruct (fst (mStdOut p) =? -1) eqn:I; [cbn; auto|].
    unfold open_ends. fields. rewrite I, Z.eqb_refl.
    split; [count_ends|auto].
  - unfold closeStdErr.
    destruct (fst (mStdErr p) =? -1) eqn:I; [cbn; auto|].
    unfold open_ends. fields. rewrite I, Z.eqb_refl.
    split; [count_ends|auto].
  - unfold stop. destruct (mPid p =? -1); cbn; auto.
Qed.

Lemma calls_keep (cs : list Call) :
  forall k p,
    let '(p', e, _) := calls k cs p in
    (forall fd,
        count_occ Z.eq_dec (closes e ++ open_ends p') fd
        = count_occ Z.eq_dec (open_ends p) fd)
    /\ mSync p' = mSync p /\ mMode p' = mMode p /\ mPid p' = mPid p.
Proof.
  induction cs as [|c rest IH]; intros k p.
  - cbn. auto.
  - cbn [calls]. pose proof (call_keeps k c p) as H.
    destruct (call k c p) as [[p1 e1] k1]. destruct H as (H1 & H2 & H3 & H4).
    specialize (IH k1 p1). destruct (calls k1 rest p1) as [[p2 e2] k2].
    destruct IH as (I1 & I2 & I3 & I4).
    split; [|repeat split; congruence].
    intros fd. rewrite closes_app, <- app_assoc, count_occ_app, I1,
      <- count_occ_app. apply H1.
Qed.

Lemma destructor_closes (k : Kernel) (p : Process) :
  let '(p', e, _) := Process_destructor k p in
  closes e
  = open_ends p
    ++ (if negb (fst (mSync p) =? -1) then [fst (mSync p)] else [])
    ++ (if negb (snd (mSync p) =? -1) then [snd (mSync p)] else [])
  /\ open_ends p' = [].
Proof.
  unfold Process_destructor.
  assert (H : forall p0 e0 (k0 : Kernel),
             mStdIn p0 = mStdIn p -> mStdOut p0 = mStdOut p ->
             mStdErr p0 = mStdErr p -> mSync p0 = mSync p ->
             closes e0 = [] ->
             let '(p', e, _) :=
               let '(p1, e1) := closeStdIn p0 in
               let '(p2, e2) := closeStdOut p1 in
               let '(p3, e3) := closeStdErr p2 in
               (p3,
                [Lock; Unlock] ++ e0 ++ e1 ++ e2 ++ e3
                ++ (if negb (fst (mSync p3) =? -1)
                    then [SysClose (fst (mSync p3))] else [])
                ++ (if negb (snd (mSync p3) =? -1)
                    then [SysClose (snd (mSync p3))] else []), k0) in
             closes e
             = open_ends p
               ++ (if negb (fst (mSync p) =? -1) then [fst (mSync p)] else [])
               ++ (if negb (snd (mSync p) =? -1) then [snd (mSync p)] else [])
             /\ open_ends p' = []).
  { intros p0 e0 k0 Hi Ho He Hs Hc.
    unfold closeStdIn, closeStdOut, closeStdErr, open_ends.
    rewrite Hi.
    destruct (snd (mStdIn p) =? -1) eqn:I; fields; rewrite Ho;
      destruct (fst (mStdOut p) =? -1) eqn:O; fields; rewrite He;
      destruct (fst (mStdErr p) =? -1) eqn:R; fields; rewrite ?Hs, ?Hi, ?Ho, ?He;
      rewrite ?I, ?O, ?R, ?Z.eqb_refl;
      cbn [closes app]; rewrite !closes_app, Hc;
      destruct (fst (mSync p) =? -1); destruct (snd (mSync p) =? -1);
      cbn [closes app negb]; auto. }
  destruct (negb (fst (mStdIn p) =? -1)).
  - shape_of_handlers. apply H; auto.
  - apply H; auto.
Qed.

(** X11.  Once [finish] has run on a process of the asynchronous mode the
    object does nothing more to the world: [stop] sends no signal, [write]
    is ignored, a callback of the event loop for any descriptor does
    nothing, the three [close] calls find nothing to close, and a second
    [finish] closes no descriptor. *)
Theorem finished_process_is_inert (k : Kernel) (code : Z) (p : Process) :
  mMode p = Async ->
  let p' := fst (fst (finish k code p)) in
  stop p' = []
  /\ (forall k' data, write k' data p' = (p', [], k'))
  /\ (forall k' fd mode,
         fd <> -1 -> processCallback k' fd mode p' = (p', [], k'))
  /\ closeStdIn p' = (p', [])
  /\ closeStdOut p' = (p', [])
  /\ closeStdErr p' = (p', [])
  /\ closes (snd (fst (finish k code p'))) = [].
Proof.
  intros Hm. pose proof (finish_async k code p Hm) as H.
  destruct (finish k code p) as [[p' e] k1]. cbn [fst].
  destruct H as (Hpid & Hret & Hin & Hout & Herr & Hsync & Hq & Hmode & Hc).
  split; [unfold stop; rewrite Hpid; reflexivity|].
  split.
  { intros k' data. unfold write. rewrite Hin. cbn [snd].
    rewrite andb_false_r. reflexivity. }
  split.
  { intros k' fd mode Hfd. unfold processCallback.
    rewrite Hin, Hout, Herr. cbn [fst snd].
    apply Z.eqb_neq in Hfd. rewrite Hfd.
    destruct (mode =? SocketError); reflexivity. }
  split; [unfold closeStdIn; rewrite Hin; reflexivity|].
  split; [unfold closeStdOut; rewrite Hout; reflexivity|].
  split; [unfold closeStdErr; rewrite Herr; reflexivity|].
  pose proof (finish_async k code p' Hmode) as H'.
  destruct (finish k code p') as [[p'' e'] k2]. cbn [fst snd].
  destruct H' as (_ & _ & _ & _ & _ & _ & _ & _ & Hc').
  rewrite Hc'. unfold open_ends. rewrite Hin, Hout, Herr. reflexivity.
Qed.

Lemma finished_process_is_inert_witness :
  let p' :=
    fst (fst (finish Samples.idle_kernel 3
                (set_mMode Async Samples.writer))) in
  stop p' = []
  /\ (forall k' data, write k' data p' = (p', [], k'))
  /\ (forall k' fd mode,
         fd <> -1 -> processCallback k' fd mode p' = (p', [], k'))
  /\ closeStdIn p' = (p', [])
  /\ closeStdOut p' = (p', [])
  /\ closeStdErr p' = (p', [])
  /\ closes (snd (fst (finish Samples.idle_kernel 3 p'))) = [].
Proof.
  apply (finished_process_is_inert Samples.idle_kernel 3
           (set_mMode Async Samples.writer)).
  reflexivity.
Defined.

(** X12.  Over the life of a process of the asynchronous mode -- [start]
    with a fork that gives a child, any calls of the owner and of the event
    loop, [finish], the destructor -- every one of the six ends of the three
    pipes is closed exactly as often as it is among the six, that is once,
    and the destructor leaves no end open.  The child's ends go at the
    start; each of the parent's ends goes when the owner closes it or,
    failing that, in [finish]. *)
Theorem async_life_closes_each_end_once
    (env : Env) (fds : Pipes) (fork : Z) (loop : bool) (self : ProcPtr)
    (command : String) (p : Process) (reg : Registry) (k : Kernel)
    (cs : list Call) (code : Z) :
  size (findCommand env command) <> 0 ->
  fork <> -1 -> fork <> 0 ->
  snd (pipe_in fds) <> -1 ->
  fst (pipe_out fds) <> -1 ->
  fst (pipe_err fds) <> -1 ->
  mSync p = (-1, -1) ->
  let '(p1, _, e1, _) := start env fds fork loop self command p reg in
  let '(p2, e2, k2) := calls k cs p1 in
  let '(p3, e3, k3) := finish k2 code p2 in
  let '(p4, e4, _) := Process_destructor k3 p3 in
  (forall fd,
      times_closed fd (e1 ++ e2 ++ e3 ++ e4)
      = count_occ Z.eq_dec (ends_of fds) fd)
  /\ open_ends p4 = [].
Proof.
  intros Hc Hf1 Hf0 Hin Hout Herr Hsync.
  destruct (start_spawns env fds fork loop self command p reg Hc Hf1 Hf0)
    as (p1 & e1 & E & _ & Si & So & Se & Ss & Sm & _ & Sc).
  rewrite E.
  pose proof (calls_keep cs k p1) as H2.
  destruct (calls k cs p1) as [[p2 e2] k2].
  destruct H2 as (C2 & S2 & M2 & _).
  pose proof (finish_async k2 code p2 ltac:(congruence)) as H3.
  destruct (finish k2 code p2) as [[p3 e3] k3].
  destruct H3 as (_ & _ & Fi & Fo & Fe & Fs & _ & _ & C3).
  pose proof (destructor_closes k3 p3) as H4.
  destruct (Process_destructor k3 p3) as [[p4 e4] k4].
  destruct H4 as (C4 & O4).
  split; [|exact O4].
  intros fd. unfold times_closed.
  rewrite !closes_app, Sc, C3, C4.
  assert (Ho3 : open_ends p3 = []).
  { unfold open_ends. rewrite Fi, Fo, Fe. reflexivity. }
  rewrite Ho3, Fs, S2, Ss, Hsync. cbn [fst snd].
  change (-1 =? -1) with true. cbn [negb].
  specialize (C2 fd). rewrite count_occ_app in C2.
  unfold open_ends at 2 in C2. rewrite Si, So, Se in C2.
  apply Z.eqb_neq in Hin, Hout, Herr. rewrite Hin, Hout, Herr in C2.
  unfold ends_of. rewrite !count_occ_app. cbn [app count_occ] in *.
  destruct (Z.eq_dec (fst (pipe_in fds)) fd);
    destruct (Z.eq_dec (snd (pipe_in fds)) fd);
    destruct (Z.eq_dec (fst (pipe_out fds)) fd);
    destruct (Z.eq_dec (snd (pipe_out fds)) fd);
    destruct (Z.eq_dec (fst (pipe_err fds)) fd);
    destruct (Z.eq_dec (snd (pipe_err fds)) fd); lia.
Qed.

Lemma async_life_closes_each_end_once_witness :
  let '(p1, _, e1, _) :=
    start Samples.bin_env Samples.no_pipes 5 true 0%nat Samples.bin_true
      Process_new [] in
  let '(p2, e2, k2) :=
    calls Samples.idle_kernel [CallWrite Samples.abcd; CallCloseStdIn] p1 in
  let '(p3, e3, k3) := finish k2 0 p2 in
  let '(p4, e4, _) := Process_destructor k3 p3 in
  (forall fd,
      times_closed fd (e1 ++ e2 ++ e3 ++ e4)
      = count_occ Z.eq_dec (ends_of Samples.no_pipes) fd)
  /\ open_ends p4 = [].
Proof.
  apply (async_life_closes_each_end_once Samples.bin_env Samples.no_pipes 5
           true 0%nat Samples.bin_true Process_new [] Samples.idle_kernel
           [CallWrite Samples.abcd; CallCloseStdIn] 0).
  - vm_compute. discriminate.
  - lia.
  - lia.
  - simpl. lia.
  - simpl. lia.
  - simpl. lia.
  - reflexivity.
Defined.

(** X13.  When the fork fails, [start] returns [Error] with the text
    [Fork failed], leaves the registry as it was and the pid at -1 and closes
    all six ends of the pipes; but the object still records the parent's
    three ends as open, so that its destructor closes these three
    descriptors a second time. *)
Theorem failed_fork_leaves_the_ends_recorded
    (env : Env) (fds : Pipes) (loop : bool) (self : ProcPtr)
    (command : String) (p : Process) (reg : Registry) (k : Kernel) :
  size (findCommand env command) <> 0 ->
  snd (pipe_in fds) <> -1 ->
  fst (pipe_out fds) <> -1 ->
  fst (pipe_err fds) <> -1 ->
  mSync p = (-1, -1) ->
  let '(p1, reg1, e1, r) := start env fds (-1) loop self command p reg in
  r = Returned Error
  /\ reg1 = reg
  /\ mPid p1 = -1
  /\ mErrorString p1 = "Fork failed"%string
  /\ closes e1
     = [snd (pipe_in fds); fst (pipe_in fds); snd (pipe_out fds);
        fst (pipe_out fds); snd (pipe_err fds); fst (pipe_err fds)]
  /\ open_ends p1
     = [snd (pipe_in fds); fst (pipe_out fds); fst (pipe_err fds)]
  /\ closes (snd (fst (Process_destructor k p1)))
     = [snd (pipe_in fds); fst (pipe_out fds); fst (pipe_err fds)].
Proof.
  intros Hc Hin Hout Herr Hsync. unfold start, startInternal. fields.
  apply Z.eqb_neq in Hc. rewrite Hc. change (-1 =? -1) with true.
  cbv beta iota.
  assert (Hopen :
            open_ends
              (set_mErrorString "Fork failed"
                 (set_mPid (-1)
                    (set_mStdErr (pipe_err fds)
                       (set_mStdOut (pipe_out fds)
                          (set_mStdIn (pipe_in fds)
                             (set_mErrorString ""
                                (set_mMode Async p)))))))
            = [snd (pipe_in fds); fst (pipe_out fds); fst (pipe_err fds)]).
  { unfold open_ends. fields.
    apply Z.eqb_neq in Hin, Hout, Herr. rewrite Hin, Hout, Herr. reflexivity. }
  split; [reflexivity|]. split; [reflexivity|]. split; [reflexivity|].
  split; [reflexivity|]. split; [reflexivity|]. split; [exact Hopen|].
  match goal with
  | |- closes (snd (fst (Process_destructor k ?q))) = _ =>
      pose proof (destructor_closes k q) as H;
        destruct (Process_destructor k q) as [[p4 e4] k4]
  end.
  destruct H as [H _]. cbn [fst snd]. rewrite H, Hopen. fields.
  rewrite Hsync. cbn [fst snd]. change (-1 =? -1) with true. reflexivity.
Qed.

Lemma failed_fork_leaves_the_ends_recorded_witness :
  let '(p1, reg1, e1, r) :=
    start Samples.bin_env Samples.no_pipes (-1) true 0%nat Samples.bin_true
      Process_new [] in
  r = Returned Error
  /\ reg1 = []
  /\ mPid p1 = -1
  /\ mErrorString p1 = "Fork failed"%string
  /\ closes e1
     = [snd (pipe_in Samples.no_pipes); fst (pipe_in Samples.no_pipes);
        snd (pipe_out Samples.no_pipes); fst (pipe_out Samples.no_pipes);
        snd (pipe_err Samples.no_pipes); fst (pipe_err Samples.no_pipes)]
  /\ open_ends p1
     = [snd (pipe_in Samples.no_pipes); fst (pipe_out Samples.no_pipes);
        fst (pipe_err Samples.no_pipes)]
  /\ closes (snd (fst (Process_destructor Samples.idle_kernel p1)))
     = [snd (pipe_in Samples.no_pipes); fst (pipe_out Samples.no_pipes);
        fst (pipe_err Samples.no_pipes)].
Proof.
  apply (failed_fork_leaves_the_ends_recorded Samples.bin_env Samples.no_pipes
           true 0%nat Samples.bin_true Process_new [] Samples.idle_kernel).
  - vm_compute. discriminate.
  - simpl. lia.
  - simpl. lia.
  - simpl. lia.
  - reflexivity.
Defined.

Lemma handleInput_loop_all (queue : list String) (fd : Z) :
  forall writes index,
    queue_ok queue index ->
    (length queue <= length writes)%nat ->
    Forall (fun room => size (concat queue) <= room) writes ->
    exists effects,
      handleInput_loop writes fd queue index
      = ([], 0, effects, skipn (length queue) writes)
      /\ length (filter is_sys_write effects) = length queue
      /\ Forall (fun e => is_sys_write e = true) effects.
Proof.
  induction queue as [|front rest IH]; intros writes index Hok Hlen Hroom.
  - destruct Hok as [_ Hi]. subst index. exists [].
    split; [destruct writes; reflexivity|]. split; [reflexivity|constructor].
  - destruct writes as [|room writes']; [cbn in Hlen; lia|].
    destruct Hok as [Hpos Hi]. inversion Hpos as [|? ? Hfront Hrest]; subst.
    inversion Hroom as [|? ? Hr Hrooms]; subst.
    cbn [concat] in Hr. rewrite size_app in Hr.
    pose proof (size_nonneg (concat rest)) as Hn.
    assert (Hok' : queue_ok rest 0).
    { split; [assumption|]. destruct rest as [|b r]; [reflexivity|].
      inversion Hrest; subst. lia. }
    destruct (IH writes' 0 Hok') as (effects & E & Hcount & Hall).
    { cbn in Hlen. lia. }
    { eapply Forall_impl; [|exact Hrooms]. cbn [concat]. intros a Ha.
      rewrite size_app in Ha. lia. }
    cbn [handleInput_loop].
    assert (Hw : forall want, 0 < want <= size front ->
                   write_result room want = want).
    { intros want Hwant. unfold write_result.
      destruct (room <=? 0) eqn:R; [apply Z.leb_le in R; lia|].
      apply Z.min_l. lia. }
    destruct (negb (index =? 0)).
    + rewrite Hw by lia.
      destruct (size front - index =? -1) eqn:M; [apply Z.eqb_eq in M; lia|].
      rewrite Z.eqb_refl, E.
      eexists. split; [reflexivity|]. cbn [filter is_sys_write length skipn].
      split; [lia|]. constructor; [reflexivity|assumption].
    + rewrite Hw by lia.
      destruct (size front =? -1) eqn:M; [apply Z.eqb_eq in M; lia|].
      rewrite Z.eqb_refl, E.
      eexists. split; [reflexivity|]. cbn [filter is_sys_write length skipn].
      split; [lia|]. constructor; [reflexivity|assumption].
Qed.

(** X14.  The queue of the standard input is in order (it holds no empty
    string, and the index is inside the string in front, or 0 when the queue
    is empty), there are at least as many writes to come as strings queued,
    and every one of them finds room for all that is queued.  Then one call
    of [handleInput] empties the queue with one write for each string: the
    bytes written are the bytes that were queued from the index on, in
    order, the index is back at 0 and the descriptor is left
    unregistered. *)
Theorem handleInput_writes_all (k : Kernel) (fd : Z) (p : Process) :
  queue_ok (mStdInBuffer p) (mStdInIndex p) ->
  (length (mStdInBuffer p) <= length (k_writes k fd))%nat ->
  Forall (fun room => size (concat (mStdInBuffer p)) <= room) (k_writes k fd) ->
  let '(p', effects, k') := handleInput k fd p in
  mStdInBuffer p' = []
  /\ mStdInIndex p' = 0
  /\ written fd effects = unread (concat (mStdInBuffer p)) (mStdInIndex p)
  /\ write_interest fd effects true = false
  /\ length (filter is_sys_write effects) = length (mStdInBuffer p)
  /\ k_writes k' fd = skipn (length (mStdInBuffer p)) (k_writes k fd).
Proof.
  intros Hok Hlen Hroom.
  pose proof (ProcessFacts.handleInput_drains k fd p Hok) as Hd.
  destruct (handleInput_loop_all (mStdInBuffer p) fd (k_writes k fd)
              (mStdInIndex p) Hok Hlen Hroom) as (effects & E & Hcount & Hall).
  unfold handleInput in *. rewrite E in *.
  destruct Hd as [(_ & Hwritten & _ & Hinterest & _) _].
  cbn [mStdInBuffer mStdInIndex set_stdin_queue] in *.
  split; [reflexivity|]. split; [reflexivity|].
  split.
  { rewrite <- Hwritten. unfold unread, mid. cbn [concat skipn].
    rewrite skipn_nil, app_nil_r. reflexivity. }
  split; [rewrite Hinterest; reflexivity|].
  split; [cbn [filter is_sys_write]; exact Hcount|].
  unfold set_writes, upd. cbn [k_writes]. rewrite Z.eqb_refl. reflexivity.
Qed.

Lemma handleInput_writes_all_witness :
  let '(p', effects, k') :=
    handleInput (mkKernel (fun _ => []) (fun _ => [8])) 5 Samples.writer in
  mStdInBuffer p' = []
  /\ mStdInIndex p' = 0
  /\ written 5 effects
     = unread (concat (mStdInBuffer Samples.writer))
         (mStdInIndex Samples.writer)
  /\ write_interest 5 effects true = false
  /\ length (filter is_sys_write effects)
     = length (mStdInBuffer Samples.writer)
  /\ k_writes k' 5
     = skipn (length (mStdInBuffer Samples.writer))
         (k_writes (mkKernel (fun _ => []) (fun _ => [8])) 5).
Proof.
  apply (handleInput_writes_all (mkKernel (fun _ => []) (fun _ => [8])) 5
           Samples.writer).
  - split; [repeat constructor|]; simpl; unfold size; simpl; lia.
  - simpl. lia.
  - repeat constructor. vm_compute. discriminate.
Defined.

Lemma sys_calls_app t cs1 cs2 :
  sys_calls t (cs1 ++ cs2) = sys_calls (sys_calls t cs1) cs2.
Proof. apply fold_left_app. Qed.

Lemma sys_call_close t fd x :
  sys_call t (Close fd) x = if x =? fd then None else t x.
Proof. reflexivity. Qed.

Lemma sys_call_dup2 t oldfd newfd x :
  sys_call t (Dup2 oldfd newfd) x
  = if x =? newfd
    then match t oldfd with Some file => Some file | None => t newfd end
    else t x.
Proof.
  cbn [sys_call]. destruct (t oldfd); unfold upd;
    destruct (Z.eqb_spec x newfd); subst; reflexivity.
Qed.

Ltac decide_eqb :=
  match goal with
  | |- context [?x =? ?y] =>
      first [ rewrite (Z.eqb_refl x)
            | replace (x =? y) with false
                by (symmetry; apply Z.eqb_neq;
                    first [ assumption
                          | apply not_eq_sym; assumption
                          | repeat match goal with
                                   | H : _ <> _ |- _ => clear H
                                   end; lia ]) ]
  end.

Ltac lookups :=
  repeat first [ rewrite sys_call_close | rewrite sys_call_dup2 | decide_eqb ].

(** X15.  In the child, when the six ends of the pipes are six different
    descriptors above 2, the calls made before [exec] leave the standard
    input on the read end of the first pipe and the standard output and
    error on the write ends of the other two, with all six ends closed and
    every other descriptor above 2 as it was. *)
Theorem child_has_the_pipes_as_standard_streams
    (p : Process) (t : Descriptors) (mCwd cmd : String)
    (arguments environ : list String) :
  NoDup (pipe_ends p) ->
  Forall (fun fd => 2 < fd) (pipe_ends p) ->
  let t' := sys_calls t (startInternal_child p mCwd cmd arguments environ) in
  t' STDIN_FILENO = t (fst (mStdIn p))
  /\ t' STDOUT_FILENO = t (snd (mStdOut p))
  /\ t' STDERR_FILENO = t (snd (mStdErr p))
  /\ (forall fd, In fd (pipe_ends p) -> t' fd = None)
  /\ (forall fd, 2 < fd -> ~ In fd (pipe_ends p) -> t' fd = t fd).
Proof.
  unfold pipe_ends. intros Hnd Hbig.
  set (a := fst (mStdIn p)) in *. set (b := snd (mStdIn p)) in *.
  set (c := fst (mStdOut p)) in *. set (d := snd (mStdOut p)) in *.
  set (e := fst (mStdErr p)) in *. set (f := snd (mStdErr p)) in *.
  assert (Hab : a <> b /\ a <> c /\ a <> d /\ a <> e /\ a <> f
                /\ b <> c /\ b <> d /\ b <> e /\ b <> f
                /\ c <> d /\ c <> e /\ c <> f
                /\ d <> e /\ d <> f /\ e <> f).
  { repeat match goal with
           | H : NoDup (_ :: _) |- _ => inversion H; clear H; subst
           end.
    cbn [In] in *. intuition congruence. }
  assert (Hgt : 2 < a /\ 2 < b /\ 2 < c /\ 2 < d /\ 2 < e /\ 2 < f).
  { repeat match goal with
           | H : Forall _ (_ :: _) |- _ => inversion H; clear H; subst
           end.
    auto 10. }
  clear Hnd Hbig.
  destruct Hab as (? & ? & ? & ? & ? & ? & ? & ? & ? & ? & ? & ? & ? & ? & ?).
  destruct Hgt as (? & ? & ? & ? & ? & ?).
  unfold startInternal_child. fold a b c d e f.
  rewrite !sys_calls_app.
  assert (Htail : forall t0,
             sys_calls
               (sys_calls t0 (if negb (size mCwd =? 0) then [Chdir mCwd] else []))
               [if negb (size environ =? 0)
                then Execve cmd (cmd :: arguments) environ
                else Execv cmd (cmd :: arguments); Exit 1] = t0).
  { intros t0. destruct (negb (size mCwd =? 0));
      destruct (negb (size environ =? 0)); reflexivity. }
  rewrite Htail. clear Htail. clearbody a b c d e f.
  unfold sys_calls, STDIN_FILENO, STDOUT_FILENO, STDERR_FILENO.
  cbn [fold_left].
  split; [lookups; destruct (t a); reflexivity|].
  split; [lookups; destruct (t d); reflexivity|].
  split; [lookups; destruct (t f); reflexivity|].
  split.
  - intros fd [E|[E|[E|[E|[E|[E|[]]]]]]]; subst fd; lookups; reflexivity.
  - intros fd Hfd Hnot. cbn [In] in Hnot.
    assert (fd <> a /\ fd <> b /\ fd <> c /\ fd <> d /\ fd <> e /\ fd <> f)
      as (? & ? & ? & ? & ? & ?) by (repeat split; intros E; subst; tauto).
    lookups. reflexivity.
Qed.

Lemma child_has_the_pipes_as_standard_streams_witness :
  let t' :=
    sys_calls table
      (startInternal_child piped [] Samples.bin_true [] []) in
  t' STDIN_FILENO = table (fst (mStdIn piped))
  /\ t' STDOUT_FILENO = table (snd (mStdOut piped))
  /\ t' STDERR_FILENO = table (snd (mStdErr piped))
  /\ (forall fd, In fd (pipe_ends piped) -> t' fd = None)
  /\ (forall fd, 2 < fd -> ~ In fd (pipe_ends piped) -> t' fd = table fd).
Proof.
  apply (child_has_the_pipes_as_standard_streams piped table []
           Samples.bin_true [] []).
  - repeat constructor; simpl; lia.
  - repeat constructor; simpl; lia.
Defined.

Lemma times_finished_app e1 e2 :
  times_finished (e1 ++ e2) = (times_finished e1 + times_finished e2)%nat.
Proof.
  unfold times_finished. rewrite emitted_app, filter_app, length_app.
  reflexivity.
Qed.

Lemma handleOutput_never_finished reads fd buffer index signal :
  signal <> FinishedSignal ->
  times_finished (snd (fst (handleOutput reads fd buffer index signal))) = 0%nat.
Proof.
  intros Hs. unfold handleOutput.
  pose proof (handleOutput_loop_trace reads fd buffer index 0) as H.
  destruct (handleOutput_loop reads fd buffer index 0) as [[[[b i] t] e] r].
  destruct H as (_ & _ & H & _). cbn [fst snd].
  unfold times_finished. rewrite emitted_app, H.
  destruct (t =? 0); [reflexivity|]. destruct signal; try reflexivity.
  contradiction.
Qed.

Lemma handleInput_loop_never_emits (writes : list Z) (fd : Z) :
  forall queue index,
    emitted (snd (fst (handleInput_loop writes fd queue index))) = [].
Proof.
  induction writes as [|room writes' IH]; intros queue index.
  - destruct queue as [|front rest]; [reflexivity|]. cbn [handleInput_loop].
    destruct (negb (index =? 0)); reflexivity.
  - destruct queue as [|front rest]; [reflexivity|].
    cbn [handleInput_loop].
    destruct (negb (index =? 0)).
    + destruct (write_result room (size front - index) =? -1); [reflexivity|].
      destruct (write_result room (size front - index) =? size front - index).
      * specialize (IH rest 0).
        destruct (handleInput_loop writes' fd rest 0) as [[[q i] e] w].
        exact IH.
      * specialize (IH (front :: rest)
                      (index + write_result room (size front - index))).
        destruct (handleInput_loop writes' fd (front :: rest) _)
          as [[[q i] e] w].
        exact IH.
    + destruct (write_result room (size front) =? -1); [reflexivity|].
      destruct (write_result room (size front) =? size front).
      * specialize (IH rest 0).
        destruct (handleInput_loop writes' fd rest 0) as [[[q i] e] w].
        exact IH.
      * specialize (IH (front :: rest) (index + write_result room (size front))).
        destruct (handleInput_loop writes' fd (front :: rest) _)
          as [[[q i] e] w].
        exact IH.
Qed.

(** The handlers change the buffers only, close nothing and never emit
    [finished]. *)
Lemma handleStdOut_quiet k p :
  exists b i e k',
    handleStdOut k p = (set_stdout b i p, e, k')
    /\ closes e = [] /\ times_finished e = 0%nat.
Proof.
  unfold handleStdOut.
  pose proof (handleOutput_trace (k_reads k (fst (mStdOut p))) (fst (mStdOut p))
                (mStdOutBuffer p) (mStdOutIndex p) ReadyReadStdOut) as H.
  pose proof (handleOutput_never_finished (k_reads k (fst (mStdOut p)))
                (fst (mStdOut p)) (mStdOutBuffer p) (mStdOutIndex p)
                ReadyReadStdOut ltac:(discriminate)) as H'.
  destruct (handleOutput _ _ _ _ _) as [[[b i] e] r]. cbn [fst snd] in H, H'.
  eauto 8.
Qed.

Lemma handleStdErr_quiet k p :
  exists b i e k',
    handleStdErr k p = (set_stderr b i p, e, k')
    /\ closes e = [] /\ times_finished e = 0%nat.
Proof.
  unfold handleStdErr.
  pose proof (handleOutput_trace (k_reads k (fst (mStdErr p))) (fst (mStdErr p))
                (mStdErrBuffer p) (mStdErrIndex p) ReadyReadStdErr) as H.
  pose proof (handleOutput_never_finished (k_reads k (fst (mStdErr p)))
                (fst (mStdErr p)) (mStdErrBuffer p) (mStdErrIndex p)
                ReadyReadStdErr ltac:(discriminate)) as H'.
  destruct (handleOutput _ _ _ _ _) as [[[b i] e] r]. cbn [fst snd] in H, H'.
  eauto 8.
Qed.

Lemma handleInput_quiet k fd p :
  exists q i e k',
    handleInput k fd p = (set_stdin_queue q i p, e, k')
    /\ closes e = [] /\ times_finished e = 0%nat.
Proof.
  unfold handleInput.
  pose proof (handleInput_loop_closes (k_writes k fd) fd (mStdInBuffer p)
                (mStdInIndex p)) as H.
  pose proof (handleInput_loop_never_emits (k_writes k fd) fd (mStdInBuffer p)
                (mStdInIndex p)) as H'.
  destruct (handleInput_loop _ _ _ _) as [[[q i] e] w]. cbn [fst snd] in H, H'.
  exists q, i, (UnregisterSocket fd :: e), (set_writes k fd w).
  split; [reflexivity|]. split; [exact H|].
  unfold times_finished. cbn [emitted]. rewrite H'. reflexivity.
Qed.


Ltac quiet_handlers :=
  repeat match goal with
  | |- context [handleStdOut ?k ?p] =>
      let b := fresh "b" in let i := fresh "i" in let e := fresh "e" in
      let k' := fresh "k" in let E := fresh "E" in let C := fresh "C" in
      let F := fresh "F" in
      destruct (handleStdOut_quiet k p) as (b & i & e & k' & E & C & F);
      rewrite E; clear E
  | |- context [handleStdErr ?k ?p] =>
      let b := fresh "b" in let i := fresh "i" in let e := fresh "e" in
      let k' := fresh "k" in let E := fresh "E" in let C := fresh "C" in
      let F := fresh "F" in
      destruct (handleStdErr_quiet k p) as (b & i & e & k' & E & C & F);
      rewrite E; clear E
  | |- context [handleInput ?k ?fd ?p] =>
      let q := fresh "q" in let i := fresh "i" in let e := fresh "e" in
      let k' := fresh "k" in let E := fresh "E" in let C := fresh "C" in
      let F := fresh "F" in
      destruct (handleInput_quiet k fd p) as (q & i & e & k' & E & C & F);
      rewrite E; clear E
  end.

Lemma turn_handlers_keep (t : Turn) (k : Kernel) (p : Process) :
  let '(p', e, _) := turn_handlers t k p in
  closes e = [] /\ times_finished e = 0%nat
  /\ mPid p' = mPid p /\ mReturn p' = mReturn p /\ mStdIn p' = mStdIn p
  /\ mStdOut p' = mStdOut p /\ mStdErr p' = mStdErr p /\ mSync p' = mSync p
  /\ mMode p' = mMode p.
Proof.
  unfold turn_handlers.
  assert (H1 : exists p1 e1 k1,
             (if t_stdout t then handleStdOut k p else (p, [], k))
             = (p1, e1, k1)
             /\ closes e1 = [] /\ times_finished e1 = 0%nat
             /\ mPid p1 = mPid p /\ mReturn p1 = mReturn p
             /\ mStdIn p1 = mStdIn p /\ mStdOut p1 = mStdOut p
             /\ mStdErr p1 = mStdErr p /\ mSync p1 = mSync p
             /\ mMode p1 = mMode p).
  { destruct (t_stdout t).
    - destruct (handleStdOut_quiet k p) as (b & i & e & k' & E & C & F).
      rewrite E. eexists _, _, _. split; [reflexivity|]. fields. auto 10.
    - eexists _, _, _. split; [reflexivity|]. auto 10. }
  destruct H1 as (p1 & e1 & k1 & -> & C1 & F1 & A1 & A2 & A3 & A4 & A5 & A6 & A7).
  assert (H2 : exists p2 e2 k2,
             (if t_stderr t then handleStdErr k1 p1 else (p1, [], k1))
             = (p2, e2, k2)
             /\ closes e2 = [] /\ times_finished e2 = 0%nat
             /\ mPid p2 = mPid p1 /\ mReturn p2 = mReturn p1
             /\ mStdIn p2 = mStdIn p1 /\ mStdOut p2 = mStdOut p1
             /\ mStdErr p2 = mStdErr p1 /\ mSync p2 = mSync p1
             /\ mMode p2 = mMode p1).
  { destruct (t_stderr t).
    - destruct (handleStdErr_quiet k1 p1) as (b & i & e & k' & E & C & F).
      rewrite E. eexists _, _, _. split; [reflexivity|]. fields. auto 10.
    - eexists _, _, _. split; [reflexivity|]. auto 10. }
  destruct H2 as (p2 & e2 & k2 & -> & C2 & F2 & B1 & B2 & B3 & B4 & B5 & B6 & B7).
  assert (H3 : exists p3 e3 k3,
             (if negb (snd (mStdIn p2) =? -1) && t_stdin t
              then handleInput k2 (snd (mStdIn p2)) p2 else (p2, [], k2))
             = (p3, e3, k3)
             /\ closes e3 = [] /\ times_finished e3 = 0%nat
             /\ mPid p3 = mPid p2 /\ mReturn p3 = mReturn p2
             /\ mStdIn p3 = mStdIn p2 /\ mStdOut p3 = mStdOut p2
             /\ mStdErr p3 = mStdErr p2 /\ mSync p3 = mSync p2
             /\ mMode p3 = mMode p2).
  { destruct (negb (snd (mStdIn p2) =? -1) && t_stdin t).
    - destruct (handleInput_quiet k2 (snd (mStdIn p2)) p2)
        as (b & i & e & k' & E & C & F).
      rewrite E. eexists _, _, _. split; [reflexivity|]. fields. auto 10.
    - eexists _, _, _. split; [reflexivity|]. auto 10. }
  destruct H3 as (p3 & e3 & k3 & -> & C3 & F3 & D1 & D2 & D3 & D4 & D5 & D6 & D7).
  rewrite !closes_app, !times_finished_app, C1, C2, C3, F1, F2, F3.
  repeat split; try reflexivity; congruence.
Qed.

Lemma turn_done_spec (k : Kernel) (p : Process) :
  let '(p', e, _) := turn_done k p in
  closes e
  = (if fst (mStdOut p) =? -1 then [] else [fst (mStdOut p)])
    ++ (if fst (mStdErr p) =? -1 then [] else [fst (mStdErr p)])
    ++ [fst (mSync p)]
  /\ times_finished e = 1%nat
  /\ mPid p' = mPid p /\ mReturn p' = mReturn p /\ mStdIn p' = mStdIn p
  /\ mStdOut p' = (-1, snd (mStdOut p)) /\ mStdErr p' = (-1, snd (mStdErr p))
  /\ mSync p' = (-1, snd (mSync p))
  /\ mMode p' = mMode p.
Proof.
  unfold turn_done, closeStdOut, closeStdErr. quiet_handlers. fields.
  destruct (fst (mStdOut p) =? -1) eqn:O; fields;
    destruct (fst (mStdErr p) =? -1) eqn:R; fields;
    apply Z.eqb_eq in O || apply Z.eqb_neq in O;
    apply Z.eqb_eq in R || apply Z.eqb_neq in R;
    cbn [app closes]; rewrite ?closes_app, ?times_finished_app, ?C, ?C0;
    cbn [app closes];
    (split; [reflexivity|]);
    (split; [unfold times_finished in *; cbn [emitted app];
             rewrite ?emitted_app, ?filter_app, ?length_app; cbn [emitted filter is_finished length app];
             lia|]);
    repeat split; try reflexivity;
    try (apply pair_eta; solve [reflexivity | assumption]).
Qed.

Lemma finish_sync_quiet (k : Kernel) (code : Z) (p : Process) :
  mMode p = Sync ->
  let '(p', effects, _) := finish k code p in
  times_finished effects = 0%nat /\ mMode p' = Sync.
Proof.
  intros Hm. pose proof (finish_sync k code p Hm) as H.
  destruct (finish k code p) as [[p' e] k'].
  destruct H as (_ & _ & _ & _ & _ & _ & _ & Hmode & _ & He).
  unfold times_finished. rewrite He. auto.
Qed.

Lemma select_loop_count (turns : list Turn) (timeout : Z) :
  forall k p,
    mMode p = Sync ->
    let '(p', effects, _, r) := select_loop turns timeout k p in
    mMode p' = Sync
    /\ times_finished effects
       = match r with Returns Done => 1%nat | _ => 0%nat end.
Proof.
  induction turns as [|t rest IH]; intros k p Hm.
  - cbn. auto.
  - cbn [select_loop].
    assert (H0 : exists p0 e0 k0,
               match t_finish t with
               | Some code => finish k code p
               | None => (p, [], k)
               end = (p0, e0, k0)
               /\ times_finished e0 = 0%nat /\ mMode p0 = Sync).
    { destruct (t_finish t) as [code|].
      - pose proof (finish_sync_quiet k code p Hm) as H.
        destruct (finish k code p) as [[p0 e0] k0]. eauto 6.
      - eauto 6. }
    destruct H0 as (p0 & e0 & k0 & -> & F0 & M0).
    destruct (t_select t =? -1); [cbn; auto|].
    pose proof (turn_handlers_keep t k0 p0) as H1.
    destruct (turn_handlers t k0 p0) as [[p1 e1] k1].
    destruct H1 as (_ & F1 & _ & _ & _ & _ & _ & _ & M1).
    assert (Hrec : let '(p', effects, _, r) :=
                     let '(p2, e, k2, r) := select_loop rest timeout k1 p1 in
                     (p2, e0 ++ e1 ++ e, k2, r) in
                   mMode p' = Sync
                   /\ times_finished effects
                      = match r with Returns Done => 1%nat | _ => 0%nat end).
    { specialize (IH k1 p1 ltac:(congruence)).
      destruct (select_loop rest timeout k1 p1) as [[[p2 e2] k2] r2].
      destruct IH as [IH1 IH2]. rewrite !times_finished_app, F0, F1, IH2. auto. }
    destruct (t_sync t).
    + pose proof (turn_done_spec k1 p1) as H2.
      destruct (turn_done k1 p1) as [[p2 e2] k2].
      destruct H2 as (_ & F2 & _ & _ & _ & _ & _ & _ & M2).
      rewrite !times_finished_app, F0, F1, F2. split; [congruence|reflexivity].
    + destruct (negb (timeout =? 0)); [|exact Hrec].
      destruct (timeout <? 0).
      { rewrite !times_finished_app, F0, F1. split; [congruence|reflexivity]. }
      destruct (timeout <=? t_lasted t); [|exact Hrec].
      rewrite !times_finished_app, F0, F1. split; [congruence|].
      unfold stop. destruct (mPid p1 =? -1); reflexivity.
Qed.

(** X16.  In the synchronous mode [finished] is emitted exactly once when
    the loop of [exec] returns [Done], and not at all as long as it has not:
    neither the [finish] of the supervisor thread nor any handler emits
    it. *)
Theorem select_loop_emits_finished_when_done
    (turns : list Turn) (timeout : Z) (k : Kernel) (p : Process) :
  mMode p = Sync ->
  let '(_, effects, _, r) := select_loop turns timeout k p in
  times_finished effects
  = match r with Returns Done => 1%nat | _ => 0%nat end.
Proof.
  intros Hm. pose proof (select_loop_count turns timeout k p Hm) as H.
  destruct (select_loop turns timeout k p) as [[[p' e] k'] r].
  apply H.
Qed.

Lemma select_loop_emits_finished_when_done_witness :
  let '(_, effects, _, r) :=
    select_loop two_turns 0 Samples.idle_kernel piped in
  times_finished effects
  = match r with Returns Done => 1%nat | _ => 0%nat end.
Proof.
  apply (select_loop_emits_finished_when_done two_turns 0
           Samples.idle_kernel piped).
  reflexivity.
Defined.

Lemma select_loop_timeout (turns : list Turn) (timeout : Z) :
  forall k p,
    let '(p', effects, _, r) := select_loop turns timeout k p in
    (r = Returns TimedOut ->
     0 < timeout /\ exists e, effects = e ++ stop p')
    /\ (r = NullTime -> timeout < 0).
Proof.
  induction turns as [|t rest IH]; intros k p.
  - cbn. split; discriminate.
  - cbn [select_loop].
    destruct (match t_finish t with
              | Some code => finish k code p
              | None => (p, [], k)
              end) as [[p0 e0] k0].
    destruct (t_select t =? -1); [split; discriminate|].
    destruct (turn_handlers t k0 p0) as [[p1 e1] k1].
    assert (Hrec : let '(p', effects, _, r) :=
                     let '(p2, e, k2, r) := select_loop rest timeout k1 p1 in
                     (p2, e0 ++ e1 ++ e, k2, r) in
                   (r = Returns TimedOut ->
                    0 < timeout /\ exists e, effects = e ++ stop p')
                   /\ (r = NullTime -> timeout < 0)).
    { specialize (IH k1 p1).
      destruct (select_loop rest timeout k1 p1) as [[[p2 e2] k2] r2].
      destruct IH as [IH1 IH2]. split; [|exact IH2].
      intros Hr. destruct (IH1 Hr) as [Ht [e He]]. split; [exact Ht|].
      exists (e0 ++ e1 ++ e). rewrite He, <- !app_assoc. reflexivity. }
    destruct (t_sync t).
    + destruct (turn_done k1 p1) as [[p2 e2] k2]. split; discriminate.
    + destruct (timeout =? 0) eqn:T0; cbn [negb]; [exact Hrec|].
      destruct (timeout <? 0) eqn:Tn.
      { apply Z.ltb_lt in Tn. split; [discriminate|auto]. }
      destruct (timeout <=? t_lasted t); [|exact Hrec].
      apply Z.ltb_ge in Tn. apply Z.eqb_neq in T0.
      split; [|discriminate]. intros _. split; [lia|].
      exists (e0 ++ e1). rewrite <- app_assoc. reflexivity.
Qed.

Lemma select_loop_first (turns : list Turn) (timeout : Z) (k : Kernel)
    (p : Process) :
  forall t rest,
    turns = t :: rest ->
    t_select t <> -1 ->
    t_sync t = false ->
    (timeout < 0 -> snd (select_loop turns timeout k p) = NullTime)
    /\ (0 < timeout <= t_lasted t ->
        snd (select_loop turns timeout k p) = Returns TimedOut).
Proof.
  intros t rest -> Hsel Hsync. cbn [select_loop].
  destruct (match t_finish t with
            | Some code => finish k code p
            | None => (p, [], k)
            end) as [[p0 e0] k0].
  apply Z.eqb_neq in Hsel. rewrite Hsel.
  destruct (turn_handlers t k0 p0) as [[p1 e1] k1].
  rewrite Hsync. split; intros Ht.
  - destruct (timeout =? 0) eqn:T0; [apply Z.eqb_eq in T0; lia|].
    cbn [negb]. destruct (timeout <? 0) eqn:Tn; [reflexivity|].
    apply Z.ltb_ge in Tn. lia.
  - destruct (timeout =? 0) eqn:T0; [apply Z.eqb_eq in T0; lia|].
    cbn [negb]. destruct (timeout <? 0) eqn:Tn; [apply Z.ltb_lt in Tn; lia|].
    destruct (timeout <=? t_lasted t) eqn:Tl; [reflexivity|].
    apply Z.leb_gt in Tl. lia.
Qed.

(** X17.  The loop of [exec] returns [TimedOut] only for a timeout above
    0, and the last thing it has done then is [stop]: [SIGTERM] to the child
    unless the pid is -1 already; it does return [TimedOut] when the first
    turn, in which [select] does not fail and the sync pipe is not readable,
    has lasted the timeout or longer.  With the timeout 0 it never times
    out.  Only a negative timeout ends at the null [selecttime], which the
    loop asserts and hands to [gettime]; and a negative timeout does end
    there, after the first turn in which [select] does not fail and the sync
    pipe is not readable. *)
Theorem select_loop_times_out_with_SIGTERM
    (turns : list Turn) (timeout : Z) (k : Kernel) (p : Process) :
  let '(p', effects, _, r) := select_loop turns timeout k p in
  (r = Returns TimedOut ->
   0 < timeout
   /\ exists e,
        effects
        = e ++ (if mPid p' =? -1 then [] else [SysKill (mPid p') SIGTERM]))
  /\ (r = NullTime -> timeout < 0)
  /\ (forall t rest,
        turns = t :: rest ->
        t_select t <> -1 ->
        t_sync t = false ->
        (timeout < 0 -> r = NullTime)
        /\ (0 < timeout <= t_lasted t -> r = Returns TimedOut)).
Proof.
  pose proof (select_loop_timeout turns timeout k p) as H.
  pose proof (select_loop_first turns timeout k p) as F.
  destruct (select_loop turns timeout k p) as [[[p' e] k'] r].
  destruct H as [H1 H2]. split; [exact H1|]. split; [exact H2|exact F].
Qed.

(** A child that does not end within the timeout of 5 is sent [SIGTERM];
    with the timeout -1 the same turn ends at the null [selecttime]. *)
Example select_loop_timed_out :
  let t := mkTurn None 0 EmptyString false false false false 7 in
  let p := set_mPid 42 Process_new in
  select_loop [t] 5 Samples.idle_kernel p
  = (p, [SysKill 42 SIGTERM], Samples.idle_kernel, Returns TimedOut)
  /\ select_loop [t] (-1) Samples.idle_kernel p
     = (p, [], Samples.idle_kernel, NullTime).
Proof. split; reflexivity. Qed.

Lemma select_loop_done (turns : list Turn) (timeout : Z) :
  forall finished k p,
    mMode p = Sync ->
    finished_once finished turns ->
    sync_after_finish finished turns ->
    (finished = true ->
     mPid p = -1 /\ snd (mStdIn p) = -1 /\ snd (mSync p) = -1) ->
    let '(p', effects, _, r) := select_loop turns timeout k p in
    r = Returns Done ->
    mPid p' = -1
    /\ mSync p' = (-1, -1)
    /\ open_ends p' = []
    /\ closes effects
       = (if finished then []
          else (if snd (mStdIn p) =? -1 then [] else [snd (mStdIn p)])
               ++ [snd (mSync p)])
         ++ (if fst (mStdOut p) =? -1 then [] else [fst (mStdOut p)])
         ++ (if fst (mStdErr p) =? -1 then [] else [fst (mStdErr p)])
         ++ [fst (mSync p)].
Proof.
  induction turns as [|t rest IH]; intros finished k p Hm Honce Hsync Hfin.
  - cbn. discriminate.
  - cbn [select_loop]. cbn [finished_once sync_after_finish] in Honce, Hsync.
    set (finished' := match t_finish t with
                      | Some _ => true
                      | None => finished
                      end) in *.
    assert (H0 : exists p0 e0 k0,
               match t_finish t with
               | Some code => finish k code p
               | None => (p, [], k)
               end = (p0, e0, k0)
               /\ mMode p0 = Sync
               /\ finished_once finished' rest
               /\ (finished' = true ->
                   mPid p0 = -1 /\ snd (mStdIn p0) = -1 /\ snd (mSync p0) = -1)
               /\ mStdOut p0 = mStdOut p /\ mStdErr p0 = mStdErr p
               /\ fst (mSync p0) = fst (mSync p)
               /\ closes e0
                  ++ (if finished' then []
                      else (if snd (mStdIn p0) =? -1 then []
                            else [snd (mStdIn p0)]) ++ [snd (mSync p0)])
                  = (if finished then []
                     else (if snd (mStdIn p) =? -1 then []
                           else [snd (mStdIn p)]) ++ [snd (mSync p)])).
    { subst finished'. destruct (t_finish t) as [code|].
      - destruct Honce as [-> Honce].
        pose proof (finish_sync k code p Hm) as H.
        destruct (finish k code p) as [[p0 e0] k0].
        destruct H as (P1 & P2 & P3 & P4 & P5 & P6 & P7 & P8 & P9 & P10).
        exists p0, e0, k0. split; [reflexivity|]. split; [assumption|].
        split; [assumption|]. rewrite P3, P6. cbn [fst snd].
        split; [auto|]. split; [assumption|]. split; [assumption|].
        split; [reflexivity|]. rewrite P9, app_nil_r. reflexivity.
      - exists p, [], k. split; [reflexivity|]. auto 10. }
    destruct H0 as (p0 & e0 & k0 & -> & M0 & Honce0 & Hfin0 & O0 & R0 & S0 & C0).
    destruct Hsync as [Hs Hsync].
    destruct (t_select t =? -1); [discriminate|].
    pose proof (turn_handlers_keep t k0 p0) as H1.
    destruct (turn_handlers t k0 p0) as [[p1 e1] k1].
    destruct H1 as (C1 & _ & A1 & A2 & A3 & A4 & A5 & A6 & A7).
    assert (Hrec : let '(p', effects, _, r) :=
                     let '(p2, e, k2, r) := select_loop rest timeout k1 p1 in
                     (p2, e0 ++ e1 ++ e, k2, r) in
                   r = Returns Done ->
                   mPid p' = -1
                   /\ mSync p' = (-1, -1)
                   /\ open_ends p' = []
                   /\ closes effects
                      = (if finished then []
                         else (if snd (mStdIn p) =? -1 then []
                               else [snd (mStdIn p)]) ++ [snd (mSync p)])
                        ++ (if fst (mStdOut p) =? -1 then []
                            else [fst (mStdOut p)])
                        ++ (if fst (mStdErr p) =? -1 then []
                            else [fst (mStdErr p)])
                        ++ [fst (mSync p)]).
    { assert (Hfin1 : finished' = true ->
                      mPid p1 = -1 /\ snd (mStdIn p1) = -1
                      /\ snd (mSync p1) = -1).
      { intros Hf. destruct (Hfin0 Hf) as (F1 & F2 & F3).
        rewrite A1, A3, A6. auto. }
      specialize (IH finished' k1 p1 ltac:(congruence) Honce0 Hsync Hfin1).
      destruct (select_loop rest timeout k1 p1) as [[[p2 e2] k2] r2].
      intros Hr. destruct (IH Hr) as (I1 & I2 & I3 & I4).
      split; [assumption|]. split; [assumption|]. split; [assumption|].
      rewrite !closes_app, C1, I4. cbn [app].
      rewrite A3, A4, A5, A6, O0, R0, S0, app_assoc, C0. reflexivity. }
    destruct (t_sync t).
    + specialize (Hs eq_refl). destruct (Hfin0 Hs) as (F1 & F2 & F3).
      pose proof (turn_done_spec k1 p1) as H2.
      destruct (turn_done k1 p1) as [[p2 e2] k2].
      destruct H2 as (C2 & _ & D1 & D2 & D3 & D4 & D5 & D6 & D7).
      intros _. split; [congruence|].
      split; [rewrite D6, A6, F3; reflexivity|].
      split.
      { unfold open_ends. rewrite D3, D4, D5, A3, F2. reflexivity. }
      rewrite !closes_app, C1, C2. cbn [app].
      rewrite Hs in C0. rewrite app_nil_r in C0.
      rewrite A4, A5, A6, O0, R0, S0, C0. reflexivity.
    + destruct (negb (timeout =? 0)); [|exact Hrec].
      destruct (timeout <? 0); [discriminate|].
      destruct (timeout <=? t_lasted t); [discriminate|exact Hrec].
Qed.

(** X18.  When [select] reports the sync pipe only after [finish] has
    written to it, and [finish] is called once, the loop of [exec] returns
    [Done] only in the state that its assertions ask for: the pid is -1 and
    the write end of the sync pipe is closed; and it leaves the read end of
    the sync pipe and all the parent's ends of the pipes closed. *)
Theorem select_loop_done_only_after_finish
    (turns : list Turn) (timeout : Z) (k : Kernel) (p : Process) :
  mMode p = Sync ->
  finished_once false turns ->
  sync_after_finish false turns ->
  let '(p', _, _, r) := select_loop turns timeout k p in
  r = Returns Done ->
  mPid p' = -1 /\ mSync p' = (-1, -1) /\ open_ends p' = [].
Proof.
  intros Hm Honce Hsync.
  pose proof (select_loop_done turns timeout false k p Hm Honce Hsync
                ltac:(discriminate)) as H.
  destruct (select_loop turns timeout k p) as [[[p' e] k'] r].
  intros Hr. destruct (H Hr) as (H1 & H2 & H3 & _). auto.
Qed.

Lemma select_loop_done_only_after_finish_witness :
  let '(p', _, _, r) :=
    select_loop two_turns 0 Samples.idle_kernel piped in
  r = Returns Done ->
  mPid p' = -1 /\ mSync p' = (-1, -1) /\ open_ends p' = [].
Proof.
  apply (select_loop_done_only_after_finish two_turns 0
           Samples.idle_kernel piped).
  - reflexivity.
  - simpl. auto.
  - simpl. repeat split; auto; discriminate.
Defined.

(** The two sample turns end the loop with [Done]. *)
Example two_turns_done :
  snd (select_loop two_turns 0 Samples.idle_kernel piped) = Returns Done.
Proof. reflexivity. Qed.

Lemma exec_spawns env fds fork noCloseStdIn self command p reg :
  size (findCommand env command) <> 0 -> fork <> -1 -> fork <> 0 ->
  exists p1 e1,
    exec env fds fork noCloseStdIn self command p reg
    = (p1, addPid fork self reg, e1, InSelectLoop)
    /\ mPid p1 = fork
    /\ mStdIn p1
       = (fst (pipe_in fds),
          if noCloseStdIn then snd (pipe_in fds) else -1)
    /\ mStdOut p1 = pipe_out fds
    /\ mStdErr p1 = pipe_err fds /\ mSync p1 = pipe_sync fds
    /\ mMode p1 = Sync
    /\ closes e1
       = [fst (pipe_in fds); snd (pipe_out fds); snd (pipe_err fds)]
         ++ (if noCloseStdIn || (snd (pipe_in fds) =? -1) then []
             else [snd (pipe_in fds)]).
Proof.
  intros Hc H1 H0. unfold exec, startInternal. fields.
  apply Z.eqb_neq in Hc, H1, H0. rewrite Hc, H1, H0.
  destruct noCloseStdIn.
  - eexists _, _. split; [reflexivity|]. fields.
    repeat split; try reflexivity.
    apply pair_eta; reflexivity.
  - unfold closeStdIn. fields.
    destruct (snd (pipe_in fds) =? -1) eqn:I.
    + eexists _, _. split; [reflexivity|]. fields.
      apply Z.eqb_eq in I.
      repeat split; try reflexivity. apply pair_eta; [reflexivity|assumption].
    + eexists _, _. split; [reflexivity|]. fields.
      repeat split; reflexivity.
Qed.

(** X19.  Over the life of a process of the synchronous mode that ends
    with [Done] -- [exec], the loop with the [finish] of the supervisor
    thread in it, the destructor -- every one of the eight ends of the four
    pipes is closed exactly as often as it is among the eight, that is once,
    whether [NoCloseStdIn] is set or not. *)
Theorem sync_life_closes_each_end_once
    (env : Env) (fds : Pipes) (fork : Z) (noCloseStdIn : bool)
    (self : ProcPtr) (command : String) (p : Process) (reg : Registry)
    (k : Kernel) (turns : list Turn) (timeout : Z) :
  size (findCommand env command) <> 0 ->
  fork <> -1 -> fork <> 0 ->
  snd (pipe_in fds) <> -1 ->
  fst (pipe_out fds) <> -1 ->
  fst (pipe_err fds) <> -1 ->
  finished_once false turns ->
  sync_after_finish false turns ->
  let '(p1, _, e1, _) :=
    exec env fds fork noCloseStdIn self command p reg in
  let '(p2, e2, k2, r) := select_loop turns timeout k p1 in
  let '(p3, e3, _) := Process_destructor k2 p2 in
  r = Returns Done ->
  forall fd,
    times_closed fd (e1 ++ e2 ++ e3)
    = count_occ Z.eq_dec
        (ends_of fds ++ [fst (pipe_sync fds); snd (pipe_sync fds)]) fd.
Proof.
  intros Hc Hf1 Hf0 Hin Hout Herr Honce Hsync.
  destruct (exec_spawns env fds fork noCloseStdIn self command p reg Hc Hf1 Hf0)
    as (p1 & e1 & E & _ & Si & So & Se & Ss & Sm & Sc).
  rewrite E.
  pose proof (select_loop_done turns timeout false k p1 Sm Honce Hsync
                ltac:(discriminate)) as H2.
  destruct (select_loop turns timeout k p1) as [[[p2 e2] k2] r].
  pose proof (destructor_closes k2 p2) as H3.
  destruct (Process_destructor k2 p2) as [[p3 e3] k3].
  destruct H3 as [C3 _].
  intros Hr fd. destruct (H2 Hr) as (_ & S2 & O2 & C2).
  unfold times_closed. rewrite !closes_app, Sc, C2, C3, O2, S2.
  rewrite Si, So, Se, Ss. cbn [fst snd].
  change (-1 =? -1) with true. cbn [negb].
  apply Z.eqb_neq in Hin, Hout, Herr. rewrite Hin, Hout, Herr.
  unfold ends_of. rewrite orb_false_r.
  destruct noCloseStdIn; rewrite ?Hin, ?Z.eqb_refl;
    rewrite !count_occ_app; cbn [app count_occ];
    destruct (Z.eq_dec (fst (pipe_in fds)) fd);
    destruct (Z.eq_dec (snd (pipe_in fds)) fd);
    destruct (Z.eq_dec (fst (pipe_out fds)) fd);
    destruct (Z.eq_dec (snd (pipe_out fds)) fd);
    destruct (Z.eq_dec (fst (pipe_err fds)) fd);
    destruct (Z.eq_dec (snd (pipe_err fds)) fd);
    destruct (Z.eq_dec (fst (pipe_sync fds)) fd);
    destruct (Z.eq_dec (snd (pipe_sync fds)) fd); lia.
Qed.

Lemma sync_life_closes_each_end_once_witness :
  let '(p1, _, e1, _) :=
    exec Samples.bin_env Samples.no_pipes 5 false 0%nat Samples.bin_true
      Process_new [] in
  let '(p2, e2, k2, r) := select_loop two_turns 0 Samples.idle_kernel p1 in
  let '(p3, e3, _) := Process_destructor k2 p2 in
  r = Returns Done ->
  forall fd,
    times_closed fd (e1 ++ e2 ++ e3)
    = count_occ Z.eq_dec
        (ends_of Samples.no_pipes
         ++ [fst (pipe_sync Samples.no_pipes);
             snd (pipe_sync Samples.no_pipes)]) fd.
Proof.
  apply (sync_life_closes_each_end_once Samples.bin_env Samples.no_pipes 5
           false 0%nat Samples.bin_true Process_new [] Samples.idle_kernel
           two_turns 0).
  - vm_compute. discriminate.
  - lia.
  - lia.
  - simpl. lia.
  - simpl. lia.
  - simpl. lia.
  - simpl. auto.
  - simpl. repeat split; auto; discriminate.
Defined.

Lemma written_app fd (e1 e2 : list Effect) :
  written fd (e1 ++ e2) = written fd e1 ++ written fd e2.
Proof.
  induction e1 as [|e rest IH]; [reflexivity|].
  destruct e; cbn [app written]; try exact IH.
  destruct (_ =? fd); [rewrite IH, app_assoc; reflexivity|exact IH].
Qed.

Lemma written_none fd (e : list Effect) :
  filter is_sys_write e = [] -> written fd e = [].
Proof.
  induction e as [|x rest IH]; [reflexivity|].
  destruct x; cbn [filter is_sys_write written]; try exact IH. discriminate.
Qed.

Lemma unread_queue_app (queue : list String) (index : Z) (data : String) :
  queue_ok queue index ->
  unread (concat (queue ++ [data])) index
  = unread (concat queue) index ++ data.
Proof.
  intros [Hpos Hi]. rewrite concat_app. cbn [concat]. rewrite app_nil_r.
  unfold unread. apply mid_app_l.
  destruct queue as [|front rest].
  - subst. cbn. lia.
  - cbn [concat]. rewrite size_app.
    pose proof (size_nonneg (concat rest)). lia.
Qed.

Lemma queue_ok_app (queue : list String) (index : Z) (data : String) :
  queue_ok queue index -> size data <> 0 -> queue_ok (queue ++ [data]) index.
Proof.
  intros [Hpos Hi] Hd. pose proof (size_nonneg data). split.
  - apply Forall_app. split; [assumption|]. constructor; [lia|constructor].
  - destruct queue as [|front rest]; [cbn; subst; lia|exact Hi].
Qed.

Lemma handleStdOut_stdin k p :
  let '(p', e, _) := handleStdOut k p in
  mStdInBuffer p' = mStdInBuffer p /\ mStdInIndex p' = mStdInIndex p
  /\ mStdIn p' = mStdIn p /\ filter is_sys_write e = [].
Proof.
  unfold handleStdOut.
  pose proof (ProcessFacts.handleOutput_no_write (k_reads k (fst (mStdOut p)))
                (fst (mStdOut p)) (mStdOutBuffer p) (mStdOutIndex p)
                ReadyReadStdOut) as H.
  destruct (handleOutput _ _ _ _ _) as [[[b i] e] r]. cbn [fst snd] in H.
  fields. auto.
Qed.

Lemma handleStdErr_stdin k p :
  let '(p', e, _) := handleStdErr k p in
  mStdInBuffer p' = mStdInBuffer p /\ mStdInIndex p' = mStdInIndex p
  /\ mStdIn p' = mStdIn p /\ filter is_sys_write e = [].
Proof.
  unfold handleStdErr.
  pose proof (ProcessFacts.handleOutput_no_write (k_reads k (fst (mStdErr p)))
                (fst (mStdErr p)) (mStdErrBuffer p) (mStdErrIndex p)
                ReadyReadStdErr) as H.
  destruct (handleOutput _ _ _ _ _) as [[[b i] e] r]. cbn [fst snd] in H.
  fields. auto.
Qed.

Lemma call_stdin (k : Kernel) (c : Call) (p : Process) :
  queue_ok (mStdInBuffer p) (mStdInIndex p) ->
  snd (mStdIn p) <> -1 ->
  keeps_stdin c = true ->
  let '(p', e, _) := call k c p in
  written (snd (mStdIn p)) e
  ++ unread (concat (mStdInBuffer p')) (mStdInIndex p')
  = unread (concat (mStdInBuffer p)) (mStdInIndex p) ++ data_of c
  /\ queue_ok (mStdInBuffer p') (mStdInIndex p')
  /\ mStdIn p' = mStdIn p.
Proof.
  intros Hok Hfd Hkeep.
  destruct c as [data|fd mode| | | | | |]; cbn [call data_of];
    try discriminate.
  - unfold write. apply Z.eqb_neq in Hfd. rewrite Hfd. cbn [negb].
    rewrite andb_true_r.
    destruct (size data =? 0) eqn:E; cbn [negb].
    + apply Z.eqb_eq in E.
      assert (data = []) as -> by (destruct data; [reflexivity|
                                   unfold size in E; simpl in E; lia]).
      cbn [written app]. rewrite app_nil_r. auto.
    + apply Z.eqb_neq in E.
      pose proof (ProcessFacts.handleInput_drains k (snd (mStdIn p))
                    (set_stdin_queue (mStdInBuffer p ++ [data])
                       (mStdInIndex p) p)) as H.
      cbn [mStdInBuffer mStdInIndex set_stdin_queue] in H.
      specialize (H (queue_ok_app _ _ _ Hok E)).
      destruct (handleInput _ _ _) as [[p' e] k'].
      destruct H as [(_ & Hw & Hq & _) Hin].
      rewrite Hw, unread_queue_app by assumption. auto.
  - unfold processCallback.
    destruct (mode =? SocketError); [cbn [written app]; rewrite app_nil_r; auto|].
    destruct (fd =? snd (mStdIn p)) eqn:F.
    { apply Z.eqb_eq in F. subst fd.
      pose proof (ProcessFacts.handleInput_drains k (snd (mStdIn p)) p Hok) as H.
      destruct (handleInput _ _ _) as [[p' e] k'].
      destruct H as [(_ & Hw & Hq & _) Hin]. rewrite Hw, app_nil_r. auto. }
    destruct (fd =? fst (mStdOut p)).
    { pose proof (handleStdOut_stdin k p) as H.
      destruct (handleStdOut k p) as [[p' e] k'].
      destruct H as (H1 & H2 & H3 & H4).
      rewrite (written_none _ _ H4), H1, H2, app_nil_r. cbn [app]. auto. }
    destruct (fd =? fst (mStdErr p)).
    { pose proof (handleStdErr_stdin k p) as H.
      destruct (handleStdErr k p) as [[p' e] k'].
      destruct H as (H1 & H2 & H3 & H4).
      rewrite (written_none _ _ H4), H1, H2, app_nil_r. cbn [app]. auto. }
    cbn [written app]. rewrite app_nil_r. auto.
  - unfold readAllStdOut. fields. cbn [written app]. rewrite app_nil_r. auto.
  - unfold readAllStdErr. fields. cbn [written app]. rewrite app_nil_r. auto.
  - unfold closeStdOut. destruct (fst (mStdOut p) =? -1); fields;
      cbn [written app]; rewrite app_nil_r; auto.
  - unfold closeStdErr. destruct (fst (mStdErr p) =? -1); fields;
      cbn [written app]; rewrite app_nil_r; auto.
  - unfold stop. destruct (mPid p =? -1); cbn [written app];
      rewrite app_nil_r; auto.
Qed.

(** X20.  The queue of the standard input is in order at first (it holds
    no empty string, and the index is inside the string in front, or 0 when
    the queue is empty), the standard input is open and none of the calls
    closes it.  Then no byte handed to [write] is lost, doubled or put out
    of order, whatever the pipe takes and however the calls of [write] and
    of the event loop follow each other: the bytes written to the descriptor
    so far, followed by the bytes still queued, are the bytes that were
    queued at first followed by the data of the calls of [write], in order;
    and the queue is in order afterwards. *)
Theorem stdin_bytes_are_written_in_order (k : Kernel) (cs : list Call)
    (p : Process) :
  queue_ok (mStdInBuffer p) (mStdInIndex p) ->
  snd (mStdIn p) <> -1 ->
  forallb keeps_stdin cs = true ->
  let '(p', effects, _) := calls k cs p in
  written (snd (mStdIn p)) effects
  ++ unread (concat (mStdInBuffer p')) (mStdInIndex p')
  = unread (concat (mStdInBuffer p)) (mStdInIndex p)
    ++ concat (map data_of cs)
  /\ queue_ok (mStdInBuffer p') (mStdInIndex p').
Proof.
  revert k p. induction cs as [|c rest IH]; intros k p Hok Hfd Hkeep.
  - cbn. rewrite app_nil_r. auto.
  - cbn [forallb] in Hkeep. apply andb_true_iff in Hkeep.
    destruct Hkeep as [Hc Hrest].
    cbn [calls map concat].
    pose proof (call_stdin k c p Hok Hfd Hc) as H1.
    destruct (call k c p) as [[p1 e1] k1]. destruct H1 as (W1 & Q1 & S1).
    specialize (IH k1 p1 Q1 ltac:(rewrite S1; assumption) Hrest).
    destruct (calls k1 rest p1) as [[p2 e2] k2]. destruct IH as [W2 Q2].
    split; [|assumption].
    rewrite written_app, <- app_assoc. rewrite S1 in W2. rewrite W2.
    rewrite !app_assoc. rewrite W1. reflexivity.
Qed.

Lemma stdin_bytes_are_written_in_order_witness :
  let '(p', effects, _) :=
    calls Samples.two_rooms
      [CallWrite Samples.ls; CallCallback 5 SocketWrite; CallWrite Samples.ls]
      Samples.writer in
  written (snd (mStdIn Samples.writer)) effects
  ++ unread (concat (mStdInBuffer p')) (mStdInIndex p')
  = unread (concat (mStdInBuffer Samples.writer))
      (mStdInIndex Samples.writer)
    ++ concat (map data_of
                 [CallWrite Samples.ls; CallCallback 5 SocketWrite;
                  CallWrite Samples.ls])
  /\ queue_ok (mStdInBuffer p') (mStdInIndex p').
Proof.
  apply (stdin_bytes_are_written_in_order Samples.two_rooms
           [CallWrite Samples.ls; CallCallback 5 SocketWrite;
            CallWrite Samples.ls]
           Samples.writer).
  - split; [repeat constructor|]; simpl; unfold size; simpl; lia.
  - simpl. lia.
  - reflexivity.
Defined.

Lemma handleOutput_append_index buffer buf :
  snd (fst (handleOutput_append buffer 0 buf)) = 0.
Proof.
  unfold handleOutput_append.
  destruct (size buffer + size buf >? MaxSize);
    [destruct (size buffer + size buf - 0 >? MaxSize)|]; reflexivity.
Qed.

Lemma handleOutput_loop_index (reads : list (list byte)) (fd : Z) :
  forall buffer total,
    snd (fst (fst (fst (handleOutput_loop reads fd buffer 0 total)))) = 0.
Proof.
  induction reads as [|buf rest IH]; intros buffer total; [reflexivity|].
  cbn [handleOutput_loop]. destruct (size buf =? 0); [reflexivity|].
  pose proof (handleOutput_append_index buffer buf) as Ha.
  destruct (handleOutput_append buffer 0 buf) as [[b i] log].
  cbn [fst snd] in Ha. subst i.
  specialize (IH b (total + size buf)).
  destruct (handleOutput_loop rest fd b 0 (total + size buf))
    as [[[[b2 i2] t2] e2] r2].
  exact IH.
Qed.

(** X21.  What the event loop's callback for the standard output reads
    is what [readAllStdOut] then hands over: with the index at 0 and room for
    the bytes in the buffer, the string returned is the buffer as it was
    followed by the bytes that the reads gave up to the end of file, in
    order, and the buffer is empty afterwards. *)
Theorem output_is_handed_over (k : Kernel) (p : Process) :
  mStdOutIndex p = 0 ->
  Forall (fun buf => size buf <= BufSize) (k_reads k (fst (mStdOut p))) ->
  size (mStdOutBuffer p) + size (taken (k_reads k (fst (mStdOut p))))
  <= MaxSize ->
  fst (mStdOut p) <> snd (mStdIn p) ->
  let '(p1, _, _) := processCallback k (fst (mStdOut p)) SocketRead p in
  let '(out, p2) := readAllStdOut p1 in
  out = mStdOutBuffer p ++ taken (k_reads k (fst (mStdOut p)))
  /\ mStdOutBuffer p2 = []
  /\ mStdOutIndex p2 = 0.
Proof.
  intros Hi Hreads Hfit Hfd. unfold processCallback.
  change (SocketRead =? SocketError) with false. cbv beta iota.
  apply Z.eqb_neq in Hfd. rewrite Hfd, Z.eqb_refl.
  unfold handleStdOut, handleOutput. rewrite Hi.
  pose proof (ProcessFacts.handleOutput_loop_spec
                (k_reads k (fst (mStdOut p))) (fst (mStdOut p))
                (mStdOutBuffer p) 0 0) as Hspec.
  pose proof (handleOutput_loop_index (k_reads k (fst (mStdOut p)))
                (fst (mStdOut p)) (mStdOutBuffer p) 0) as Hidx.
  destruct (handleOutput_loop _ _ _ _ _) as [[[[b i] t] e] r].
  cbn [fst snd] in Hidx. subst i.
  pose proof (size_nonneg (mStdOutBuffer p)) as Hn.
  pose proof (size_nonneg (taken (k_reads k (fst (mStdOut p))))) as Ht.
  destruct (Hspec ltac:(lia) ltac:(lia) Hreads b 0 t e r eq_refl)
    as (_ & _ & Hdrop & Happ).
  unfold unread in *. rewrite !mid_zero in *.
  unfold readAllStdOut. fields.
  split; [apply Happ; apply Hdrop; assumption|]. auto.
Qed.

Lemma output_is_handed_over_witness :
  let '(p1, _, _) :=
    processCallback talking (fst (mStdOut piped)) SocketRead piped in
  let '(out, p2) := readAllStdOut p1 in
  out = mStdOutBuffer piped ++ taken (k_reads talking (fst (mStdOut piped)))
  /\ mStdOutBuffer p2 = []
  /\ mStdOutIndex p2 = 0.
Proof.
  apply (output_is_handed_over talking piped).
  - reflexivity.
  - repeat constructor; vm_compute; discriminate.
  - vm_compute. discriminate.
  - simpl. lia.
Defined.

End LifecycleFacts.

(** ** The supervisor thread *)

Module ThreadFacts.
Import Process Supervisor Locking ListFacts SupervisorFacts.

Lemma held_after_app (held : bool) (a1 a2 : list Action) :
  held_after held (a1 ++ a2)
  = match held_after held a1 with
    | Some held' => held_after held' a2
    | None => None
    end.
Proof.
  revert held. induction a1 as [|a rest IH]; intros held; [reflexivity|].
  destruct a; destruct held; cbn [app held_after]; auto.
Qed.

Lemma walk_held (entries : Registry) :
  forall reg c,
    held_after true (snd (walk entries reg c)) = Some true.
Proof.
  induction entries as [|[pid process] rest IH]; intros reg c; [reflexivity|].
  cbn [walk]. destruct (waitpid c pid) as [[p ret] c1].
  destruct ((p =? 0) || (p =? -1)).
  - specialize (IH reg c1). destruct (walk rest reg c1) as [[r2 c2] a2].
    exact IH.
  - specialize (IH (registry_erase pid reg) c1).
    destruct (walk rest (registry_erase pid reg) c1) as [[r2 c2] a2].
    exact IH.
Qed.

(** X22.  Whatever the signal pipe holds and whatever the children do, the
    supervisor thread keeps to the mutex of the registry: it locks it only
    when it is free and unlocks it only when it holds it, calls [waitpid] and
    erases an entry only with the mutex held, calls [finish] only with the
    mutex free, and has released it when it waits for the next byte or
    exits. *)
Theorem run_keeps_to_the_mutex (pipe : list byte) (reg : Registry)
    (c : Children) :
  held_after false (snd (fst (run pipe reg c))) = Some false.
Proof.
  revert reg c. induction pipe as [|ch rest IH]; intros reg c; [reflexivity|].
  cbn [run]. destruct (Byte.eqb ch "s"); [reflexivity|].
  pose proof (walk_held reg reg c) as Hw.
  destruct (walk reg reg c) as [[r1 c1] a1]. cbn [snd] in Hw.
  specialize (IH r1 c1). destruct (run rest r1 c1) as [[[r2 c2] a2] st].
  cbn [fst snd] in *. cbn [app held_after].
  rewrite held_after_app, Hw. cbn [app held_after]. exact IH.
Qed.

Lemma finish_actions_app (a1 a2 : list Action) :
  finish_actions (a1 ++ a2) = finish_actions a1 ++ finish_actions a2.
Proof.
  induction a1 as [|a rest IH]; [reflexivity|].
  destruct a; cbn [app finish_actions]; rewrite IH; reflexivity.
Qed.

Lemma finish_actions_entries (c : Children) (reg : Registry) :
  finish_actions (flat_map (entry_actions c) reg) = due reg c.
Proof.
  induction reg as [|[pid process] rest IH]; [reflexivity|].
  cbn [flat_map due]. rewrite finish_actions_app, IH.
  unfold entry_actions. cbn [fst snd].
  destruct (c pid) as [[|status]|]; reflexivity.
Qed.

(** No entry of the registry has a child that waits to be collected. *)
Lemma due_nil (reg : Registry) (c : Children) :
  (forall e, In e reg -> reapable c (fst e) = false) -> due reg c = [].
Proof.
  induction reg as [|[pid process] rest IH]; intros H; [reflexivity|].
  cbn [due]. pose proof (H (pid, process) (or_introl eq_refl)) as Hp.
  unfold reapable in Hp. cbn [fst] in Hp.
  destruct (c pid) as [[|status]|]; try discriminate;
    apply IH; intros e He; apply H; right; assumption.
Qed.

Lemma filter_all {A} (f : A -> bool) (l : list A) :
  (forall x, In x l -> f x = true) -> filter f l = l.
Proof.
  induction l as [|x rest IH]; intros H; [reflexivity|].
  cbn [filter]. rewrite (H x (or_introl eq_refl)). f_equal.
  apply IH. intros y Hy. apply H. right. assumption.
Qed.

Lemma collected_in (c : Children) (reg : Registry) (pid : Z) :
  collected c reg pid = true ->
  reapable c pid = true /\ exists q, In (pid, q) reg.
Proof.
  unfold collected. intros H. apply andb_true_iff in H. destruct H as [H1 H2].
  split; [assumption|]. apply existsb_exists in H1.
  destruct H1 as ([pid' q] & Hin & E). apply Z.eqb_eq in E. cbn in E. subst.
  eauto.
Qed.

Lemma settled_pass (reg : Registry) (c : Children) :
  registry_ok reg ->
  (forall e, In e reg -> reapable c (fst e) = false) ->
  let '(reg', c', actions) := walk reg reg c in
  reg' = reg /\ (forall pid, c' pid = c pid) /\ finish_actions actions = [].
Proof.
  intros Hok Hset. pose proof (walk_spec reg reg c Hok) as H.
  destruct (walk reg reg c) as [[reg' c'] actions].
  destruct H as (Hreg & Hact & Hc).
  assert (Hnone : forall pid, collected c reg pid = false).
  { intros pid. destruct (collected c reg pid) eqn:E; [|reflexivity].
    apply collected_in in E. destruct E as [Hr [q Hin]].
    pose proof (Hset _ Hin) as Hs. cbn [fst] in Hs. congruence. }
  split.
  { rewrite Hreg. apply filter_all. intros x _. rewrite Hnone. reflexivity. }
  split.
  { intros pid. rewrite Hc, Hnone. reflexivity. }
  rewrite Hact, finish_actions_entries. apply due_nil. assumption.
Qed.

Lemma settled_run (pipe : list byte) :
  forall reg c,
    registry_ok reg ->
    (forall e, In e reg -> reapable c (fst e) = false) ->
    finish_actions (snd (fst (run pipe reg c))) = [].
Proof.
  induction pipe as [|ch rest IH]; intros reg c Hok Hset; [reflexivity|].
  cbn [run]. destruct (Byte.eqb ch "s"); [reflexivity|].
  pose proof (settled_pass reg c Hok Hset) as Hp.
  destruct (walk reg reg c) as [[r1 c1] a1]. destruct Hp as (-> & Hc & Ha).
  assert (Hset1 : forall e, In e reg -> reapable c1 (fst e) = false).
  { intros e He. unfold reapable. rewrite Hc. apply (Hset e He). }
  specialize (IH reg c1 Hok Hset1).
  destruct (run rest reg c1) as [[[r2 c2] a2] st]. cbn [fst snd] in *.
  cbn [app finish_actions]. rewrite finish_actions_app, Ha.
  cbn [app finish_actions]. exact IH.
Qed.

Lemma pass_settles (reg : Registry) (c : Children) :
  registry_ok reg ->
  let '(reg', c', actions) := walk reg reg c in
  registry_ok reg'
  /\ (forall e, In e reg' -> reapable c' (fst e) = false)
  /\ finish_actions actions = due reg c.
Proof.
  intros Hok. pose proof (walk_spec reg reg c Hok) as H.
  destruct (walk reg reg c) as [[reg' c'] actions].
  destruct H as (Hreg & Hact & Hc).
  split; [rewrite Hreg; apply registry_ok_filter; assumption|].
  split; [|rewrite Hact; apply finish_actions_entries].
  intros e He. rewrite Hreg in He. apply filter_In in He.
  destruct He as [Hin Hnot]. apply negb_true_iff in Hnot.
  unfold reapable. rewrite Hc, Hnot.
  unfold collected in Hnot. apply andb_false_iff in Hnot.
  destruct Hnot as [Hnot|Hnot].
  - assert (Hex : existsb (fun entry => fst entry =? fst e) reg = true).
    { apply existsb_exists. exists e. split; [assumption|apply Z.eqb_refl]. }
    congruence.
  - exact Hnot.
Qed.

(** X23.  However many bytes follow the one that wakes the supervisor
    thread, it calls [finish] once for every entry of the registry whose
    child has terminated, with the code of its status, in the order of the
    pids, and for no other: the passes that the bytes after the first set
    off find nothing to collect. *)
Theorem run_finishes_each_child_once (ch : byte) (pipe : list byte)
    (reg : Registry) (c : Children) :
  registry_ok reg ->
  ch <> "s"%byte ->
  finish_actions (snd (fst (run (ch :: pipe) reg c))) = due reg c.
Proof.
  intros Hok Hch. cbn [run].
  destruct (Byte.eqb ch "s") eqn:E; [apply Byte.byte_dec_bl in E; contradiction|].
  pose proof (pass_settles reg c Hok) as Hp.
  destruct (walk reg reg c) as [[r1 c1] a1]. destruct Hp as (Hok1 & Hset1 & Ha).
  pose proof (settled_run pipe r1 c1 Hok1 Hset1) as Hr.
  destruct (run pipe r1 c1) as [[[r2 c2] a2] st]. cbn [fst snd] in *.
  cbn [app finish_actions]. rewrite finish_actions_app, Ha.
  cbn [app finish_actions]. rewrite Hr. apply app_nil_r.
Qed.

Lemma run_finishes_each_child_once_witness :
  finish_actions
    (snd (fst (run ("c"%byte :: ["c"; "c"]%byte) Samples.two_entries
                 Samples.one_terminated)))
  = due Samples.two_entries Samples.one_terminated.
Proof.
  apply (run_finishes_each_child_once "c" ["c"; "c"]%byte Samples.two_entries
           Samples.one_terminated).
  - simpl. repeat split; try lia.
    intros e [E|[]]. subst e. simpl. lia.
  - discriminate.
Defined.

Lemma exit_code_killed (sig : Z) (core : bool) :
  1 <= sig <= 127 -> exit_code (sig + if core then 128 else 0) = -1.
Proof.
  intros Hsig. unfold exit_code, WIFEXITED.
  change 127 with (Z.ones 7). rewrite Z.land_ones by lia.
  change (2 ^ 7) with 128.
  assert (H : (sig + (if core then 128 else 0)) mod 128 = sig).
  { destruct core.
    - replace (sig + 128) with (sig + 1 * 128) by lia.
      rewrite Z.mod_add by lia. apply Z.mod_small. lia.
    - rewrite Z.add_0_r. apply Z.mod_small. lia. }
  rewrite H. destruct (sig =? 0) eqn:E; [apply Z.eqb_eq in E; lia|reflexivity].
Qed.

(** X24.  For a child that has exited with the status [n] the supervisor
    thread calls [finish] with [n]; for a child that a signal has killed,
    with or without a core dump, it calls [finish] with -1. *)
Theorem run_reports_the_exit_status (pid : Z) (q : ProcPtr) (n sig : Z)
    (core : bool) :
  0 < pid ->
  0 <= n <= 255 ->
  1 <= sig <= 127 ->
  finish_actions
    (snd (fst (run [wakeup SigChild] [(pid, q)]
                 (upd (fun _ => None) pid (Some (Terminated (n * 256)))))))
  = [(q, n)]
  /\ finish_actions
       (snd (fst (run [wakeup SigChild] [(pid, q)]
                    (upd (fun _ => None) pid
                       (Some (Terminated (sig + if core then 128 else 0)))))))
     = [(q, -1)].
Proof.
  intros Hpid Hn Hsig.
  assert (Hok : registry_ok [(pid, q)]).
  { cbn. split; [assumption|]. split; [intros e []|exact I]. }
  assert (H : forall status,
             finish_actions
               (snd (fst (run [wakeup SigChild] [(pid, q)]
                            (upd (fun _ => None) pid
                               (Some (Terminated status))))))
             = [(q, exit_code status)]).
  { intros status. cbn [run wakeup]. change (Byte.eqb "c" "s") with false.
    cbv beta iota.
    pose proof (pass_settles [(pid, q)]
                  (upd (fun _ => None) pid (Some (Terminated status))) Hok)
      as Hp.
    destruct (walk _ _ _) as [[r1 c1] a1]. destruct Hp as (_ & _ & Ha).
    cbn [fst snd app finish_actions]. rewrite finish_actions_app, Ha.
    cbn [due finish_actions]. rewrite upd_same. reflexivity. }
  rewrite !H, exit_code_exited, exit_code_killed by assumption. auto.
Qed.

Lemma run_reports_the_exit_status_witness :
  finish_actions
    (snd (fst (run [wakeup SigChild] [(5, 0%nat)]
                 (upd (fun _ => None) 5 (Some (Terminated (3 * 256)))))))
  = [(0%nat, 3)]
  /\ finish_actions
       (snd (fst (run [wakeup SigChild] [(5, 0%nat)]
                    (upd (fun _ => None) 5
                       (Some (Terminated (9 + if true then 128 else 0)))))))
     = [(0%nat, -1)].
Proof.
  apply (run_reports_the_exit_status 5 0%nat 3 9 true); lia.
Defined.

(** X25.  The supervisor thread reads no byte after an ['s']: what it does
    is what it does on the bytes up to the first ['s'], and it has exited. *)
Theorem run_stops_at_the_stop_byte (before after : list byte)
    (reg : Registry) (c : Children) :
  run (before ++ wakeup SigStop :: after) reg c
  = run (before ++ [wakeup SigStop]) reg c
  /\ snd (run (before ++ wakeup SigStop :: after) reg c) = ThreadExited.
Proof.
  revert reg c. induction before as [|ch rest IH]; intros reg c.
  - split; reflexivity.
  - cbn [app run]. destruct (Byte.eqb ch "s"); [split; reflexivity|].
    destruct (walk reg reg c) as [[r1 c1] a1].
    destruct (IH r1 c1) as [IH1 IH2]. rewrite IH1.
    destruct (run (rest ++ [wakeup SigStop]) r1 c1) as [[[r2 c2] a2] st] eqn:E.
    rewrite IH1 in IH2. cbn [snd] in *. split; [reflexivity|assumption].
Qed.

Lemma finish_return k code p : mReturn (fst (fst (finish k code p))) = code.
Proof.
  destruct (mMode p) eqn:M.
  - pose proof (LifecycleFacts.finish_sync k code p M) as H.
    destruct (finish k code p) as [[p' e] k']. apply H.
  - pose proof (LifecycleFacts.finish_async k code p M) as H.
    destruct (finish k code p) as [[p' e] k']. apply H.
Qed.

Lemma finish_calls_keeps (actions : list Action) :
  forall h k q,
    filter (fun a => Nat.eqb (fst a) q) (finish_actions actions) = [] ->
    fst (finish_calls actions h k) q = h q.
Proof.
  induction actions as [|a rest IH]; intros h k q H; [reflexivity|].
  destruct a as [| |pid p|pid|process ret]; cbn [finish_calls finish_actions] in *;
    try (apply IH; assumption).
  cbn [filter fst] in H. destruct (Nat.eqb process q) eqn:E; [discriminate|].
  destruct (finish k ret (h process)) as [[p e] k1].
  rewrite IH by assumption. apply heap_set_other.
  apply Nat.eqb_neq in E. congruence.
Qed.

Lemma finish_calls_once (actions : list Action) :
  forall h k q ret,
    filter (fun a => Nat.eqb (fst a) q) (finish_actions actions) = [(q, ret)] ->
    exists k', fst (finish_calls actions h k) q = fst (fst (finish k' ret (h q))).
Proof.
  induction actions as [|a rest IH]; intros h k q ret H; [discriminate|].
  destruct a as [| |pid p|pid|process r]; cbn [finish_calls finish_actions] in *;
    try (apply IH; assumption).
  cbn [filter fst] in H. destruct (Nat.eqb process q) eqn:E.
  - apply Nat.eqb_eq in E. subst process. injection H as -> H.
    exists k. destruct (finish k ret (h q)) as [[p e] k1]. cbn [fst].
    rewrite finish_calls_keeps by assumption. apply heap_set_same.
  - destruct (finish k r (h process)) as [[p e] k1].
    destruct (IH (heap_set h process p) k1 q ret H) as [k' Hk'].
    exists k'. rewrite Hk'. rewrite heap_set_other; [reflexivity|].
    apply Nat.eqb_neq in E. congruence.
Qed.

Lemma due_without (reg : Registry) (c : Children) (q : ProcPtr) :
  (forall pid, ~ In (pid, q) reg) ->
  filter (fun a => Nat.eqb (fst a) q) (due reg c) = [].
Proof.
  induction reg as [|[pid process] rest IH]; intros H; [reflexivity|].
  assert (Hrest : forall pid', ~ In (pid', q) rest).
  { intros pid' Hin. apply (H pid'). right. assumption. }
  cbn [due]. destruct (c pid) as [[|status]|]; try (apply IH; assumption).
  cbn [filter fst]. destruct (Nat.eqb process q) eqn:E; [|apply IH; assumption].
  apply Nat.eqb_eq in E. subst. exfalso. apply (H pid). left. reflexivity.
Qed.

Lemma due_of (reg : Registry) (c : Children) (pid : Z) (q : ProcPtr)
    (status : Z) :
  registry_ok reg ->
  (forall pid', In (pid', q) reg -> pid' = pid) ->
  In (pid, q) reg ->
  c pid = Some (Terminated status) ->
  filter (fun a => Nat.eqb (fst a) q) (due reg c) = [(q, exit_code status)].
Proof.
  induction reg as [|[pid0 q0] rest IH]; intros Hok Hq Hin Hc; [contradiction|].
  cbn [registry_ok] in Hok. destruct Hok as (Hpos & Hlt & Hrest).
  destruct Hin as [E|Hin].
  - injection E as -> ->. cbn [due]. rewrite Hc. cbn [filter fst].
    rewrite Nat.eqb_refl. apply f_equal. apply due_without.
    intros pid' Hin'. pose proof (Hq pid' (or_intror Hin')) as ->.
    specialize (Hlt _ Hin'). cbn in Hlt. lia.
  - assert (Hne : q0 <> q).
    { intros ->. pose proof (Hq pid0 (or_introl eq_refl)) as ->.
      specialize (Hlt _ Hin). cbn in Hlt. lia. }
    assert (IH' : filter (fun a => Nat.eqb (fst a) q) (due rest c)
                  = [(q, exit_code status)]).
    { apply IH; try assumption. intros pid' Hin'. apply Hq. right. assumption. }
    cbn [due]. destruct (c pid0) as [[|status0]|]; try exact IH'.
    cbn [filter fst]. apply Nat.eqb_neq in Hne. rewrite Hne. exact IH'.
Qed.

(** X26.  When the registry and the pids agree and the child of a process
    has terminated, the next pass of the supervisor thread hands the process
    the code of its status: afterwards [mReturn] is that code -- the exit
    status of a child that exited, -1 for one that was killed --, the pid is
    -1, the process is not live and the kernel has the child no more. *)
Theorem supervisor_delivers_the_exit_code (s : System) (pid : Z)
    (q : ProcPtr) (status : Z) :
  registry_inv s ->
  In (pid, q) (sProcesses s) ->
  children s pid = Some (Terminated status) ->
  mReturn (heap (step s OpSupervisor) q) = exit_code status
  /\ mPid (heap (step s OpSupervisor) q) = -1
  /\ live (step s OpSupervisor) q = false
  /\ children (step s OpSupervisor) pid = None.
Proof.
  intros (Hok & H1 & H2) Hin Hc. cbn [step].
  pose proof (walk_spec (sProcesses s) (sProcesses s) (children s) Hok) as Hw.
  destruct (walk (sProcesses s) (sProcesses s) (children s))
    as [[reg' c'] actions].
  destruct Hw as (Hreg & Hact & Hc').
  assert (Hq : forall pid', In (pid', q) (sProcesses s) -> pid' = pid).
  { intros pid' Hin'. destruct (H1 _ _ Hin') as [E _].
    destruct (H1 _ _ Hin) as [E' _]. congruence. }
  assert (Hdue : filter (fun a => Nat.eqb (fst a) q) (finish_actions actions)
                 = [(q, exit_code status)]).
  { rewrite Hact, finish_actions_entries. apply (due_of _ _ pid); assumption. }
  destruct (finish_calls_once actions (heap s) (kernel s) q _ Hdue) as [k' Hk'].
  destruct (finish_calls actions (heap s) (kernel s)) as [h k] eqn:E.
  cbn [fst] in Hk'. cbn [heap sProcesses children].
  assert (Hcol : collected (children s) (sProcesses s) pid = true).
  { unfold collected, reapable. rewrite Hc, andb_true_r.
    apply existsb_exists. exists (pid, q). split; [assumption|apply Z.eqb_refl]. }
  split; [rewrite Hk'; apply finish_return|].
  split; [rewrite Hk'; apply finish_pid|].
  split; [|rewrite Hc', Hcol; reflexivity].
  unfold live. cbn [sProcesses].
  match goal with |- ?x = false => destruct x eqn:Ex; [|reflexivity] end.
  apply existsb_exists in Ex. destruct Ex as ([pid' q'] & Hin' & Eq).
  cbn [snd] in Eq. apply Nat.eqb_eq in Eq. subst q'.
  rewrite Hreg in Hin'. apply filter_In in Hin'. destruct Hin' as [Hin' Hnot].
  rewrite (Hq _ Hin') in Hnot. cbn [fst] in Hnot. rewrite Hcol in Hnot.
  discriminate.
Qed.

Lemma supervisor_delivers_the_exit_code_witness :
  let s :=
    steps (System_new Samples.idle_kernel)
      [OpStart 0%nat Samples.bin_env Samples.no_pipes 5 Samples.bin_true;
       OpChildTerminates 5 768] in
  mReturn (heap (step s OpSupervisor) 0%nat) = exit_code 768
  /\ mPid (heap (step s OpSupervisor) 0%nat) = -1
  /\ live (step s OpSupervisor) 0%nat = false
  /\ children (step s OpSupervisor) 5 = None.
Proof.
  apply (supervisor_delivers_the_exit_code
           (steps (System_new Samples.idle_kernel)
              [OpStart 0%nat Samples.bin_env Samples.no_pipes 5
                 Samples.bin_true;
               OpChildTerminates 5 768])
           5 0%nat 768).
  - apply registry_inv_steps.
    + apply registry_inv_new.
    + simpl. split; [right; split; [lia|reflexivity]|]. auto.
    + simpl. split; [reflexivity|]. auto.
  - simpl. auto.
  - reflexivity.
Defined.

Lemma registry_insert_keys pid process reg pid' :
  (exists q, In (pid', q) (registry_insert pid process reg))
  <-> pid' = pid \/ exists q, In (pid', q) reg.
Proof.
  split.
  - intros [q Hin]. apply registry_insert_in in Hin.
    destruct Hin as [E|Hin]; [injection E as -> ->; auto|eauto].
  - intros [->|[q Hin]].
    + exists process. apply registry_insert_new.
    + destruct (Z.eq_dec pid' pid) as [->|Hne].
      * exists process. apply registry_insert_new.
      * exists q. apply registry_insert_old; assumption.
Qed.

Lemma registry_is_children_spawn s self p reg' env command fork :
  registry_is_children s ->
  fork_ok s fork ->
  (if size (findCommand env command) =? 0
   then reg' = sProcesses s
   else reg' = if (fork =? -1) || (fork =? 0) then sProcesses s
               else addPid fork self (sProcesses s)) ->
  registry_is_children
    (mkSystem reg' (forked env command fork (children s))
       (heap_set (heap s) self p) (kernel s)).
Proof.
  intros [Hok Hiff] Hfork Hreg. unfold registry_is_children, forked.
  cbn [sProcesses children].
  destruct (size (findCommand env command) =? 0); cbn [negb andb].
  - subst reg'. split; assumption.
  - destruct Hfork as [->|[Hpos Hnone]].
    + cbn in Hreg. subst reg'. cbn. split; assumption.
    + replace ((fork =? -1) || (fork =? 0)) with false in Hreg
        by (symmetry; apply orb_false_iff; split; apply Z.eqb_neq; lia).
      replace (0 <? fork) with true by (symmetry; apply Z.ltb_lt; assumption).
      subst reg'. unfold addPid.
      split; [apply registry_insert_ok; assumption|].
      intros pid. rewrite registry_insert_keys, <- Hiff.
      destruct (Z.eq_dec pid fork) as [->|Hne].
      * rewrite upd_same. split; [auto|discriminate].
      * rewrite upd_other by assumption. split; [auto|].
        intros [E|H]; [contradiction|assumption].
Qed.

Lemma registry_is_children_step s op :
  registry_is_children s -> op_possible s op ->
  registry_is_children (step s op).
Proof.
  intros Hinv Hposs.
  destruct op as [self env fds fork command
                 |self env fds fork ncs command
                 |pid status| |self data|self|self|self fd mode|self].
  - cbn [step]. unfold start.
    pose proof (startInternal_pid env fds fork true false self command
                  (set_mMode Async (heap s self)) (sProcesses s)) as H.
    destruct (startInternal _ _ _ _ _ _ _ _ _) as [[[p reg] e] r].
    apply registry_is_children_spawn; [assumption..|].
    destruct (size (findCommand env command) =? 0); tauto.
  - cbn [step]. unfold exec.
    pose proof (startInternal_pid env fds fork true ncs self command
                  (set_mMode Sync (heap s self)) (sProcesses s)) as H.
    destruct (startInternal _ _ _ _ _ _ _ _ _) as [[[p reg] e] r].
    apply registry_is_children_spawn; [assumption..|].
    destruct (size (findCommand env command) =? 0); tauto.
  - cbn [step]. destruct (children s pid) as [[|st]|] eqn:E; try assumption.
    destruct Hinv as [Hok Hiff]. split; [assumption|]. cbn [children sProcesses].
    intros pid'. rewrite <- Hiff.
    destruct (Z.eq_dec pid' pid) as [->|Hne].
    + rewrite upd_same, E. split; discriminate.
    + rewrite upd_other by assumption. tauto.
  - cbn [step]. destruct Hinv as [Hok Hiff].
    pose proof (walk_spec (sProcesses s) (sProcesses s) (children s) Hok) as Hw.
    destruct (walk (sProcesses s) (sProcesses s) (children s))
      as [[reg' c'] actions].
    destruct Hw as (Hreg & _ & Hc').
    destruct (finish_calls actions (heap s) (kernel s)) as [h k].
    split; cbn [sProcesses children].
    + rewrite Hreg. apply registry_ok_filter. assumption.
    + intros pid. rewrite Hc', Hreg.
      destruct (collected (children s) (sProcesses s) pid) eqn:Col.
      * split; [intros H; contradiction|].
        intros [q Hin]. apply filter_In in Hin. destruct Hin as [_ Hnot].
        cbn [fst] in Hnot. rewrite Col in Hnot. discriminate.
      * rewrite Hiff. split.
        -- intros [q Hin]. exists q. apply filter_In. split; [assumption|].
           cbn [fst]. rewrite Col. reflexivity.
        -- intros [q Hin]. apply filter_In in Hin. exists q. tauto.
  - cbn [step]. destruct (write _ _ _) as [[p e] k]. exact Hinv.
  - exact Hinv.
  - exact Hinv.
  - cbn [step]. destruct (processCallback _ _ _ _) as [[p e] k]. exact Hinv.
  - exact Hinv.
Qed.

(** X27.  Whatever is done to the processes, and in whatever order, the
    registry has exactly the children that the kernel has: its keys ascend,
    every child that runs or waits to be collected has an entry, and every
    entry has such a child; no child is lost to the supervisor thread and
    none is waited for twice. *)
Theorem registry_has_exactly_the_children (k : Kernel) (ops : list Op) :
  possible (System_new k) ops ->
  registry_is_children (steps (System_new k) ops).
Proof.
  assert (H : forall ops s,
             registry_is_children s -> possible s ops ->
             registry_is_children (steps s ops)).
  { clear. induction ops as [|op rest IH]; intros s Hinv Hposs; [assumption|].
    cbn [possible] in Hposs. destruct Hposs as [Hp Hps].
    apply IH; [apply registry_is_children_step|]; assumption. }
  apply H. split; [exact I|]. cbn. intros pid. split; [congruence|].
  intros [q []].
Qed.

Lemma registry_has_exactly_the_children_witness :
  registry_is_children
    (steps (System_new Samples.idle_kernel) Samples.start_twice).
Proof.
  apply (registry_has_exactly_the_children Samples.idle_kernel
           Samples.start_twice).
  simpl. split; [right; split; [lia|reflexivity]|]. split; [left; reflexivity|].
  exact I.
Defined.

(** X28.  [addPid] is the insertion into a map: afterwards the pid has
    one entry, which is the process given, also when the pid had an entry
    before; the entries of all other pids are as they were; and the keys
    still ascend. *)
Theorem addPid_inserts (pid : Z) (process : ProcPtr) (reg : Registry) :
  registry_ok reg ->
  0 < pid ->
  registry_ok (addPid pid process reg)
  /\ (forall q, In (pid, q) (addPid pid process reg) <-> q = process)
  /\ (forall pid' q,
         pid' <> pid ->
         (In (pid', q) (addPid pid process reg) <-> In (pid', q) reg)).
Proof.
  intros Hok Hpos. unfold addPid.
  pose proof (registry_insert_ok pid process reg Hpos Hok) as Hok'.
  split; [assumption|]. split.
  - intros q. split.
    + intros Hin.
      apply (registry_ok_unique _ pid q process Hok' Hin).
      apply registry_insert_new.
    + intros ->. apply registry_insert_new.
  - intros pid' q Hne. split.
    + intros Hin. apply registry_insert_in in Hin.
      destruct Hin as [E|Hin]; [congruence|assumption].
    + intros Hin. apply registry_insert_old; assumption.
Qed.

Lemma addPid_inserts_witness :
  registry_ok (addPid 6 2%nat Samples.two_entries)
  /\ (forall q, In (6, q) (addPid 6 2%nat Samples.two_entries) <-> q = 2%nat)
  /\ (forall pid' q,
         pid' <> 6 ->
         (In (pid', q) (addPid 6 2%nat Samples.two_entries)
          <-> In (pid', q) Samples.two_entries)).
Proof.
  apply (addPid_inserts 6 2%nat Samples.two_entries).
  - simpl. repeat split; try lia.
    intros e [E|[]]. subst e. simpl. lia.
  - lia.
Defined.

End ThreadFacts.
